(** * Elevation-profile engine of the VTOL flight-plan editor (src/app.js)

    A shallow embedding of the engine's functions and the properties its
    specification states about them.

    Numbers.  A JavaScript number is an IEEE 754 binary64 value.  The
    arithmetic that the engine writes with [+ - * /] alone is embedded once,
    over the interface [JsNumber], and read at two instances:
    - [float], Rocq's primitive binary64 numbers: what the engine computes,
      bit for bit, and what the examples below evaluate;
    - [R], the real numbers: the exact arithmetic that the rounding
      approximates.  The functions that call [Math.sin], [Math.cos],
      [Math.tan], [Math.log], [Math.atan2] and [Math.sqrt] exist at this
      instance only (binary64 has no such primitives in the kernel), so the
      geodesy, the tile projection and the route sampler are stated over [R].
      Where binary64 gives a result of another kind than exact arithmetic
      does, the embedding says so: a distance can be [NaN] (see [Number]
      and [JsEngine]), and the tile projection is read between the poles
      only. *)

From Stdlib Require Import ZArith Reals Lra Lia List Sorted String Floats.
From Stdlib Require Uint63.
From stdpp Require Import base option list gmap.
Import ListNotations.

Set Default Proof Using "Type".
Local Set Warnings "-inexact-float".

(** ** JavaScript numbers *)

Declare Scope js_scope.
Delimit Scope js_scope with js.

Class JsNumber (num : Type) : Type := {
  js_add : num -> num -> num;
  js_sub : num -> num -> num;
  js_mul : num -> num -> num;
  js_div : num -> num -> num;
  js_lit : Z -> num;                 (* an integer literal of the source *)
  js_eqb : num -> num -> bool;       (* [===] between two numbers *)
  js_leb : num -> num -> bool        (* [<=] *)
}.

Infix "+" := js_add : js_scope.
Infix "-" := js_sub : js_scope.
Infix "*" := js_mul : js_scope.
Infix "/" := js_div : js_scope.
Infix "===" := js_eqb (at level 70, no associativity) : js_scope.
Infix "<=?" := js_leb : js_scope.

(** Binary64.  [float_of_Z] reads an integer literal; every literal of the
    source is below [2^53] in magnitude, so the conversion is exact. *)
Definition float_of_Z (z : Z) : float :=
  match z with
  | Z0 => PrimFloat.zero
  | Zpos _ => PrimFloat.of_uint63 (Uint63.of_Z z)
  | Zneg _ => PrimFloat.opp (PrimFloat.of_uint63 (Uint63.of_Z (Z.opp z)))
  end.

#[export] Instance float_JsNumber : JsNumber float := {|
  js_add := PrimFloat.add;
  js_sub := PrimFloat.sub;
  js_mul := PrimFloat.mul;
  js_div := PrimFloat.div;
  js_lit := float_of_Z;
  js_eqb := PrimFloat.eqb;
  js_leb := PrimFloat.leb
|}.

(** Exact arithmetic. *)
Definition Reqb (x y : R) : bool := if Req_dec_T x y then true else false.
Definition Rleb (x y : R) : bool := if Rle_dec x y then true else false.

#[export] Instance R_JsNumber : JsNumber R := {|
  js_add := Rplus;
  js_sub := Rminus;
  js_mul := Rmult;
  js_div := Rdiv;
  js_lit := IZR;
  js_eqb := Reqb;
  js_leb := Rleb
|}.

(** ** Functions written with plain arithmetic *)

Section Arithmetic.
Context {num : Type} `{JsNumber num}.
Local Open Scope js_scope.

(** [interpolateCoordinate(start, end, t)]: [start + (end - start) * t]. *)
Definition interpolateCoordinate (start end_ t : num) : num :=
  start + (end_ - start) * t.

(** [decodeElevation(r, g, b)]; [None] is [null]. *)
Definition decodeElevation (r g b : num) : option num :=
  let value := r * js_lit 256 * js_lit 256 + g * js_lit 256 + b in
  if (value === js_lit 0)
     || (value === js_lit 256 * js_lit 256 * js_lit 256 - js_lit 1)
  then None
  else Some (value / js_lit 10 - js_lit 10000).

(** [chooseNiceStep(rawStep)]: the first candidate that is at least
    [rawStep], and the last candidate when there is none. *)
Fixpoint firstAtLeast (rawStep : num) (steps : list num) : option num :=
  match steps with
  | [] => None
  | step :: rest =>
      if rawStep <=? step then Some step else firstAtLeast rawStep rest
  end.

Definition niceSteps : list num :=
  map js_lit [10; 20; 50; 100; 200; 500; 1000; 2000]%Z.

(** The term [a] of [haversineDistance], from the values of [Math.sin] and
    [Math.cos] that enter it. *)
Definition haversineTerm (sinHalfLat cosLat1 cosLat2 sinHalfLon : num)
  : num :=
  sinHalfLat * sinHalfLat + cosLat1 * cosLat2 * sinHalfLon * sinHalfLon.

Definition chooseNiceStep (rawStep : num) : num :=
  match firstAtLeast rawStep niceSteps with
  | Some step => step
  | None => js_lit 2000
  end.
End Arithmetic.

(** ** The [Math] functions, over the reals *)

Section RealMath.
Local Open Scope R_scope.

(** [Math.floor]: [up x] is the least integer above [x]. *)
Definition Math_floor (x : R) : Z := (up x - 1)%Z.

(** [Math.ceil]. *)
Definition Math_ceil (x : R) : Z := (- Math_floor (- x))%Z.

(** [Math.atan2(y, x)]: the angle of the point [(x, y)], in [(-PI, PI]]. *)
Definition Math_atan2 (y x : R) : R :=
  if Rlt_dec 0 x then atan (y / x)
  else if Rlt_dec x 0 then
    if Rle_dec 0 y then atan (y / x) + PI else atan (y / x) - PI
  else if Rlt_dec 0 y then PI / 2
  else if Rlt_dec y 0 then - (PI / 2)
  else 0.

(** [Math.sqrt]. *)
Definition Math_sqrt (x : R) : R := R_sqrt.sqrt x.

(** [Math.min(...values, last)] and [Math.max(...values, last)]. *)
Definition Math_min (values : list R) (last : R) : R :=
  fold_right Rmin last values.

Definition Math_max (values : list R) (last : R) : R :=
  fold_right Rmax last values.

(** ** Geodesy *)

Definition toRad (deg : R) : R := deg * PI / 180.

(** The term [a] of [haversineDistance], in exact arithmetic; [earthRadius]
    is the source's local constant [R = 6371e3]. *)
Definition earthRadius : R := 6371000.

Definition haversine_a (lat1 lon1 lat2 lon2 : R) : R :=
  let dLat := toRad (lat2 - lat1) in
  let dLon := toRad (lon2 - lon1) in
  sin (dLat / 2) * sin (dLat / 2) +
  cos (toRad lat1) * cos (toRad lat2) * sin (dLon / 2) * sin (dLon / 2).

(** What [haversineDistance] returns when its result is a number, in exact
    arithmetic. *)
Definition haversineMeters (lat1 lon1 lat2 lon2 : R) : R :=
  let a := haversine_a lat1 lon1 lat2 lon2 in
  let c := 2 * Math_atan2 (Math_sqrt a) (Math_sqrt (1 - a)) in
  earthRadius * c.

(** ** Results that are not a number

    In exact arithmetic [a] lies in [[0, 1]].  Binary64 rounds it, and where
    [a] is close to an end of that interval the rounded value can leave it:
    above [1] for nearly antipodal positions, below [0] for nearly equal
    positions given with latitudes on both sides of a pole.  One of
    [Math.sqrt(a)], [Math.sqrt(1 - a)] is then [NaN], and so is the
    distance.  A number of the source that can be [NaN] is a [Number]. *)
Inductive Number :=
| NaN
| Num (x : R).

Coercion Num : R >-> Number.

Definition addN (x y : Number) : Number :=
  match x, y with
  | Num a, Num b => Num (a + b)
  | _, _ => NaN
  end.

Definition mulN (x y : Number) : Number :=
  match x, y with
  | Num a, Num b => Num (a * b)
  | _, _ => NaN
  end.

(** Where rounding can take [a] out of [[0, 1]]: the bounds are far wider
    than any rounding needs. *)
Definition roundingCanLeaveUnitInterval (lat1 lon1 lat2 lon2 : R) : Prop :=
  999 / 1000 <= haversine_a lat1 lon1 lat2 lon2 \/
  cos (toRad lat1) * cos (toRad lat2) < 0.

(** The JavaScript engine that runs the page, as far as the code depends on
    it beyond exact arithmetic:
    - [argumentLimit]: the number of arguments a call can take; a call that
      spreads more throws [RangeError];
    - [distanceIsNaN]: whether the engine's binary64 arithmetic takes [a]
      out of [[0, 1]] at the given arguments of [haversineDistance]; it can
      do so only where [roundingCanLeaveUnitInterval]. *)
Class JsEngine := {
  argumentLimit : nat;
  distanceIsNaN : R -> R -> R -> R -> bool;
  distanceIsNaN_where :
    forall lat1 lon1 lat2 lon2 : R,
      distanceIsNaN lat1 lon1 lat2 lon2 = true ->
      roundingCanLeaveUnitInterval lat1 lon1 lat2 lon2
}.

(** [haversineDistance(lat1, lon1, lat2, lon2)]. *)
Definition haversineDistance {engine : JsEngine} (lat1 lon1 lat2 lon2 : R)
  : Number :=
  if distanceIsNaN lat1 lon1 lat2 lon2 then NaN
  else Num (haversineMeters lat1 lon1 lat2 lon2).

(** ** Tile projection

    The continuous tile coordinates that [getElevationFromTile] computes in
    its first lines, [n] being [Math.pow(2, zoom)], in exact arithmetic.
    [tileCoordinateY] is the source's value up to rounding for latitudes
    well between the poles (from -89 to 89 degrees, say).  Towards the south
    pole [tan + 1 / cos] cancels in binary64 and the source's value is
    meaningless, infinite at -90; beyond the poles the logarithm is taken
    of a negative number and the source's value is [NaN].  The statements
    about rows of tiles and their pixels are made for latitudes between
    the poles. *)

Definition TILE_ZOOM : nat := 14.
Definition SAMPLE_SPACING_METERS : R := 80.

Definition tileCount (zoom : nat) : R := 2 ^ zoom.

Definition tileCoordinateX (zoom : nat) (lon : R) : R :=
  (lon + 180) / 360 * tileCount zoom.

Definition tileCoordinateY (zoom : nat) (lat : R) : R :=
  let latRad := lat * PI / 180 in
  (1 - ln (tan latRad + 1 / cos latRad) / PI) / 2 * tileCount zoom.

End RealMath.

(** ** Data model *)

Inductive WaypointType :=
| takeoff | transition_to_fixed | transit | transition_to_rotary | landing.

Record Waypoint := {
  id : string;
  type : WaypointType;
  latitude : R;
  longitude : R;
  altitude : R;
  note : string
}.

Record Sample := {
  distance : Number;               (* [NaN] after a segment of [NaN] length *)
  lat : R;
  lon : R;
  groundElevation : option R;      (* [None] is [null] *)
  plannedAltitude : R
}.

(** The key [`${z}/${x}/${y}`] of [tileCache]; the three integers determine
    the string and are determined by it. *)
Definition TileKey : Type := Z * Z * Z.

(** The [data] of an [ImageData]: the RGBA bytes of the decoded tile. *)
Definition ImageData : Type := list Z.

(** The [Response] of a [fetch]: [response.status], and the pixels the body
    decodes to; [image] is [None] when it does not decode
    ([createImageBitmap] rejects). *)
Record Response := {
  status : Z;
  image : option ImageData
}.

(** [response.ok]: the status is in the range 200-299. *)
Definition ok (response : Response) : bool :=
  (200 <=? status response)%Z && (status response <=? 299)%Z.

Inductive Error :=
| FetchRejected
| TileRequestFailed (code : Z)       (* [new Error(`...: ${response.status}`)] *)
| ImageDecodeFailed
| RangeError.                        (* a call with too many arguments *)

Inductive LogEntry :=
| ConsoleWarn (error : Error)
| ConsoleError (error : Error).

(** What a draw call leaves on [profileCanvas].  Both draw functions clear the
    surface first.  A chart is recorded in data coordinates (metres); its
    pixel geometry ([resizeCanvas], margins, [xScale], [yScale]) and the
    tick loop are given further down; colours and axis labels are not
    modelled. *)
Record Chart := {
  totalDistance : R;
  minElevation : R;
  maxElevation : R;
  groundPolygon : option (list (Number * R));
                                         (* [None]: the polygon is skipped *)
  plannedLine : list (Number * R);
  stepMeters : R
}.

Inductive Drawing :=
| Placeholder (message : string)
| Profile (chart : Chart)
| Cleared.       (* [ctx.clearRect] by a draw function that then threw *)

Definition msgComputing : string := "地形断面を計算中…".
Definition msgInsufficient : string :=
  "地形断面を表示するには2つ以上のウェイポイントが必要です。".
Definition msgFailed : string := "地形データの取得に失敗しました。".

(** The mutable state the engine touches: [state.waypoints],
    [state.profileToken], [tileCache], and the three places its effects land:
    the tiles requested from the network, the drawings made on the canvas and
    the console, each oldest first. *)
Record State := {
  waypoints : list Waypoint;
  profileToken : Z;
  tileCache : gmap TileKey ImageData;
  requests : list TileKey;
  canvas : list Drawing;
  console : list LogEntry
}.

Definition initialState : State := {|
  waypoints := [];
  profileToken := 0;
  tileCache := ∅;
  requests := [];
  canvas := [];
  console := []
|}.

(** ** Effects: state and exceptions

    An action runs on the state and completes normally or by a [throw]; the
    state a throwing action leaves is kept, as in JavaScript. *)

Inductive Completion (A : Type) :=
| Normal (value : A)
| Thrown (error : Error).
Arguments Normal {A} value.
Arguments Thrown {A} error.

Definition Action (A : Type) : Type := State -> Completion A * State.

Definition ret {A} (a : A) : Action A := fun st => (Normal a, st).

Definition bind {A B} (c : Action A) (k : A -> Action B) : Action B :=
  fun st =>
    match c st with
    | (Normal a, st') => k a st'
    | (Thrown e, st') => (Thrown e, st')
    end.

Definition throw {A} (e : Error) : Action A := fun st => (Thrown e, st).

Definition try_catch {A} (body : Action A) (handler : Error -> Action A)
  : Action A :=
  fun st =>
    match body st with
    | (Normal a, st') => (Normal a, st')
    | (Thrown e, st') => handler e st'
    end.

Definition gets {A} (f : State -> A) : Action A := fun st => (Normal (f st), st).

Definition modify (f : State -> State) : Action unit :=
  fun st => (Normal tt, f st).

Notation "x <- c ;; k" := (bind c (fun x => k))
  (at level 62, c at next level, right associativity).
Notation "c ;;; k" := (bind c (fun _ => k))
  (at level 62, right associativity).

(** [for (const x of xs) acc = body(acc, x)], with the accumulator passed
    along. *)
Fixpoint forEach {A S} (xs : list A) (body : S -> A -> Action S) (acc : S)
  : Action S :=
  match xs with
  | [] => ret acc
  | x :: rest => acc' <- body acc x ;; forEach rest body acc'
  end.

Definition set_tileCache (f : gmap TileKey ImageData -> gmap TileKey ImageData)
  (st : State) : State :=
  {| waypoints := waypoints st; profileToken := profileToken st;
     tileCache := f (tileCache st); requests := requests st;
     canvas := canvas st; console := console st |}.

Definition set_requests (f : list TileKey -> list TileKey) (st : State)
  : State :=
  {| waypoints := waypoints st; profileToken := profileToken st;
     tileCache := tileCache st; requests := f (requests st);
     canvas := canvas st; console := console st |}.

Definition set_canvas (f : list Drawing -> list Drawing) (st : State)
  : State :=
  {| waypoints := waypoints st; profileToken := profileToken st;
     tileCache := tileCache st; requests := requests st;
     canvas := f (canvas st); console := console st |}.

Definition set_console (f : list LogEntry -> list LogEntry) (st : State)
  : State :=
  {| waypoints := waypoints st; profileToken := profileToken st;
     tileCache := tileCache st; requests := requests st;
     canvas := canvas st; console := f (console st) |}.

Definition set_profileToken (f : Z -> Z) (st : State) : State :=
  {| waypoints := waypoints st; profileToken := f (profileToken st);
     tileCache := tileCache st; requests := requests st;
     canvas := canvas st; console := console st |}.

Definition set_waypoints (f : list Waypoint -> list Waypoint) (st : State)
  : State :=
  {| waypoints := f (waypoints st); profileToken := profileToken st;
     tileCache := tileCache st; requests := requests st;
     canvas := canvas st; console := console st |}.

Definition console_warn (e : Error) : Action unit :=
  modify (set_console (fun log => log ++ [ConsoleWarn e])).

Definition console_error (e : Error) : Action unit :=
  modify (set_console (fun log => log ++ [ConsoleError e])).

(** ** The engine *)

Section Engine.
Local Open Scope R_scope.
Context {engine : JsEngine}.

(** The network: the answer to the [n]-th request of the session, for the
    tile it asks for; [None] when the request fails and [fetch] rejects. *)
Variable network : nat -> TileKey -> option Response.

(** [await fetch(url, { mode: 'cors' })]: the request is recorded, then the
    network answers or the promise rejects. *)
Definition fetch (key : TileKey) : Action Response :=
  n <- gets (fun st => length (requests st)) ;;
  modify (set_requests (fun log => log ++ [key])) ;;;
  match network n key with
  | None => throw FetchRejected
  | Some response => ret response
  end.

(** [fetchElevationTile(z, x, y)]. *)
Definition fetchElevationTile (z x y : Z) : Action ImageData :=
  let key : TileKey := (z, x, y) in
  cache <- gets tileCache ;;
  match cache !! key with
  | Some cached => ret cached
  | None =>
      response <- fetch key ;;
      if negb (ok response) then
        throw (TileRequestFailed (status response))
      else
        match image response with
        | None => throw ImageDecodeFailed
        | Some imageData =>
            modify (set_tileCache (fun m => <[key := imageData]> m)) ;;;
            ret imageData
        end
  end.

(** [tileData[index]]; [None] is [undefined]. *)
Definition byteAt (tileData : ImageData) (index : Z) : option Z :=
  if (index <? 0)%Z then None else tileData !! Z.to_nat index.

(** [getElevationFromTile(lat, lon)].  A byte read outside the buffer is
    [undefined], the decoded value is then not a number and
    [Number.isFinite] turns it into [null]; a typed array is never falsy, so
    [if (!tileData) return null] does not fire. *)
Definition getElevationFromTile (lat lon : R) : Action (option R) :=
  try_catch
    (let x := tileCoordinateX TILE_ZOOM lon in
     let y := tileCoordinateY TILE_ZOOM lat in
     let xTile := Math_floor x in
     let yTile := Math_floor y in
     let xPixel := Math_floor ((x - IZR xTile) * 256) in
     let yPixel := Math_floor ((y - IZR yTile) * 256) in
     tileData <- fetchElevationTile (Z.of_nat TILE_ZOOM) xTile yTile ;;
     let index := ((yPixel * 256 + xPixel) * 4)%Z in
     match byteAt tileData index, byteAt tileData (index + 1),
           byteAt tileData (index + 2) with
     | Some r, Some g, Some b => ret (decodeElevation (IZR r) (IZR g) (IZR b))
     | _, _, _ => ret None
     end)
    (fun error => console_warn error ;;; ret None).

(** The number of subdivisions of a segment,
    [Math.max(1, Math.ceil(segmentDistance / SAMPLE_SPACING_METERS))]: for a
    distance that is a number, and in general, where [None] is [NaN]. *)
Definition stepCount (segmentDistance : R) : Z :=
  Z.max 1 (Math_ceil (segmentDistance / SAMPLE_SPACING_METERS)).

Definition segmentSteps (segmentDistance : Number) : option Z :=
  match segmentDistance with
  | NaN => None
  | Num d => Some (stepCount d)
  end.

(** One turn of the inner loop of [sampleElevationAlongRoute]: the elevation
    is awaited before the [continue] that skips the sample. *)
Definition sampleStep (i : nat) (start end_ : Waypoint)
    (segmentDistance : Number) (steps : Z) (cumulativeDistance : Number)
    (samples : list Sample) (step : nat) : Action (list Sample) :=
  let t := INR step / IZR steps in
  let lat := interpolateCoordinate (latitude start) (latitude end_) t in
  let lon := interpolateCoordinate (longitude start) (longitude end_) t in
  groundElevation <- getElevationFromTile lat lon ;;
  let plannedAltitude :=
    interpolateCoordinate (altitude start) (altitude end_) t in
  let distance := addN cumulativeDistance (mulN segmentDistance t) in
  if Nat.eqb step 0 && negb (Nat.eqb i 0) then
    ret samples
  else
    ret (samples ++ [ {| distance := distance; lat := lat; lon := lon;
                         groundElevation := groundElevation;
                         plannedAltitude := plannedAltitude |} ]).

(** The outer loop, from segment [i] on: [waypoints] is the rest of the route
    from [waypoints[i]].  When [steps] is [NaN] the test [step <= steps]
    fails at once and the inner loop takes no turn. *)
Fixpoint sampleSegments (i : nat) (waypoints : list Waypoint)
    (samples : list Sample) (cumulativeDistance : Number)
  : Action (list Sample) :=
  match waypoints with
  | start :: ((end_ :: _) as rest) =>
      let segmentDistance :=
        haversineDistance (latitude start) (longitude start)
                          (latitude end_) (longitude end_) in
      samples' <-
        match segmentSteps segmentDistance with
        | None => ret samples
        | Some steps =>
            forEach (seq 0 (S (Z.to_nat steps)))
                    (sampleStep i start end_ segmentDistance steps
                                cumulativeDistance)
                    samples
        end ;;
      sampleSegments (S i) rest samples'
        (addN cumulativeDistance segmentDistance)
  | _ => ret samples
  end.

(** [sampleElevationAlongRoute(waypoints)], run with nothing else scheduled
    while it awaits, so that the route is the same at every turn of its
    loops. *)
Definition sampleElevationAlongRoute (waypoints : list Waypoint)
  : Action (list Sample) :=
  sampleSegments 0 waypoints [] 0.

(** [drawProfilePlaceholder(message)]. *)
Definition drawProfilePlaceholder (message : string) : Action unit :=
  modify (set_canvas (fun drawn => drawn ++ [Placeholder message])).

(** [distances[distances.length - 1] || 1]: [undefined], [NaN] and [0] are
    falsy. *)
Definition lastOr1 (distances : list Number) : R :=
  match last distances with
  | Some (Num d) => if Reqb d 0 then 1 else d
  | Some NaN => 1
  | None => 1
  end.

Definition hasGround (s : Sample) : bool :=
  match groundElevation s with Some _ => true | None => false end.

(** The chart [drawElevationProfile(samples)] draws. *)
Definition profileChart (samples : list Sample) : Chart :=
  let distances := map distance samples in
  let totalDistance := lastOr1 distances in
  let elevations := omap groundElevation samples in
  let planned := map plannedAltitude samples in
  let minElevation := Math_min elevations 0 in
  let maxElevation := Math_max (elevations ++ planned) (minElevation + 10) in
  let validSamples := List.filter hasGround samples in
  let polygon :=
    if (2 <=? length validSamples)%nat then
      match validSamples, last validSamples with
      | first :: _, Some final =>
          Some (omap (fun s => match groundElevation s with
                               | Some e => Some (distance s, e)
                               | None => None
                               end) validSamples
                ++ [(distance final, minElevation);
                    (distance first, minElevation)])
      | _, _ => None
      end
    else None in
  let effectiveTotal := Rmax totalDistance 1 in
  {| totalDistance := totalDistance;
     minElevation := minElevation;
     maxElevation := maxElevation;
     groundPolygon := polygon;
     plannedLine := map (fun s => (distance s, plannedAltitude s)) samples;
     stepMeters := chooseNiceStep (effectiveTotal / 5) |}.

(** [drawElevationProfile(samples)].  The canvas is cleared first.  The
    spread calls [Math.min(...elevations, 0)] and
    [Math.max(...elevations, ...planned, minElevation + 10)] throw
    [RangeError] when they pass more arguments than the engine takes;
    otherwise the chart is drawn. *)
Definition drawElevationProfile (samples : list Sample) : Action unit :=
  let elevations := omap groundElevation samples in
  let planned := map plannedAltitude samples in
  if (argumentLimit <? length elevations + 1)%nat then
    modify (set_canvas (fun drawn => drawn ++ [Cleared])) ;;;
    throw RangeError
  else if (argumentLimit <? length elevations + length planned + 1)%nat then
    modify (set_canvas (fun drawn => drawn ++ [Cleared])) ;;;
    throw RangeError
  else
    modify (set_canvas (fun drawn => drawn ++ [Profile (profileChart samples)])).

(** [++state.profileToken].  The counter is a binary64 number holding an
    integer: adding one is exact below [2^53], and at [2^53] the sum rounds
    back to [2^53]. *)
Definition nextToken (n : Z) : Z :=
  if (n <? 2 ^ 53)%Z then (n + 1)%Z else n.

Definition incrementProfileToken : Action Z :=
  modify (set_profileToken nextToken) ;;;
  gets profileToken.

(** The two places where [updateElevationProfile] compares its token with the
    live counter and returns when they differ. *)
Definition unlessSuperseded (token : Z) (k : Action unit) : Action unit :=
  current <- gets profileToken ;;
  if negb (token =? current)%Z then ret tt else k.

(** [updateElevationProfile()], run with nothing else scheduled while it
    awaits. *)
Definition updateElevationProfile : Action unit :=
  token <- incrementProfileToken ;;
  drawProfilePlaceholder msgComputing ;;;
  route <- gets waypoints ;;
  if (length route <? 2)%nat then
    drawProfilePlaceholder msgInsufficient
  else
    try_catch
      (samples <- sampleElevationAlongRoute route ;;
       unlessSuperseded token (drawElevationProfile samples))
      (fun error =>
         console_error error ;;;
         unlessSuperseded token (drawProfilePlaceholder msgFailed)).

(** *** The same function, cut at its [await]

    Between the call of [sampleElevationAlongRoute] and the resumption of
    [updateElevationProfile] other handlers run.  [updateElevationProfile_begin]
    is the part before the [await]: it yields the captured token when the
    function goes on to sample, and [None] when it has returned.
    [updateElevationProfile_resume] is the part after it, entered with the
    outcome of the sampling. *)
Definition updateElevationProfile_begin : Action (option Z) :=
  token <- incrementProfileToken ;;
  drawProfilePlaceholder msgComputing ;;;
  route <- gets waypoints ;;
  if (length route <? 2)%nat then
    drawProfilePlaceholder msgInsufficient ;;; ret None
  else ret (Some token).

Definition settle {A} (outcome : Completion A) : Action A :=
  match outcome with
  | Normal a => ret a
  | Thrown e => throw e
  end.

Definition updateElevationProfile_resume (token : Z)
    (outcome : Completion (list Sample)) : Action unit :=
  try_catch
    (samples <- settle outcome ;;
     unlessSuperseded token (drawElevationProfile samples))
    (fun error =>
       console_error error ;;;
       unlessSuperseded token (drawProfilePlaceholder msgFailed)).

End Engine.

(** ** The engine among the other handlers

    The editor is single-threaded: handlers run one at a time, and an
    invocation of [updateElevationProfile] that awaits is resumed later,
    after any number of other handlers.  An event is one such turn. *)

Inductive Event :=
| RouteEdited (route : list Waypoint)
    (* a collaborator leaves [route] in [state.waypoints] and calls
       [updateElevationProfile]: the part before the [await] runs *)
| SamplerProgress (cache : gmap TileKey ImageData) (fetched : list TileKey)
                  (warnings : list LogEntry)
    (* an awaiting sampler takes a turn: tiles are requested and cached,
       warnings are logged *)
| SamplingSettled (token : Z) (outcome : Completion (list Sample)).
    (* the invocation that captured [token] is resumed with the outcome of
       its [sampleElevationAlongRoute] *)

(** The state, and the tokens of the invocations that are awaiting, one
    entry per invocation. *)
Definition System : Type := State * list Z.

(** The awaiting invocations without the one that is resumed. *)
Fixpoint removeFirst (token : Z) (pending : list Z) : list Z :=
  match pending with
  | [] => []
  | t :: rest => if (t =? token)%Z then rest else t :: removeFirst token rest
  end.

Section Handlers.
Context {engine : JsEngine}.

Definition step (sys : System) (ev : Event) : System :=
  let (st, pending) := sys in
  match ev with
  | RouteEdited route =>
      match updateElevationProfile_begin (set_waypoints (fun _ => route) st) with
      | (Normal (Some token), st') => (st', pending ++ [token])
      | (_, st') => (st', pending)
      end
  | SamplerProgress cache fetched warnings =>
      (set_console (fun log => log ++ warnings)
         (set_requests (fun log => log ++ fetched)
            (set_tileCache (fun _ => cache) st)),
       pending)
  | SamplingSettled token outcome =>
      if bool_decide (token ∈ pending) then
        (snd (updateElevationProfile_resume token outcome st),
         removeFirst token pending)
      else sys
  end.

Definition runEvents (events : list Event) (sys : System) : System :=
  fold_left step events sys.

End Handlers.

(** ** The route as the sampler walks it, in closed form

    What the specification says of the sample sequence, written without the
    loops: segment [i] contributes one point per emitted step, the steps
    being [0..steps] for the first segment and [1..steps] for the others. *)

Section RouteGeometry.
Local Open Scope R_scope.
Context {engine : JsEngine}.

(** The part of a sample that does not depend on the tiles. *)
Record Placement := {
  placeDistance : Number;
  placeLat : R;
  placeLon : R;
  placeAltitude : R
}.

Definition placement (s : Sample) : Placement :=
  {| placeDistance := distance s; placeLat := lat s; placeLon := lon s;
     placeAltitude := plannedAltitude s |}.

Definition emittedSteps (i : nat) (steps : Z) : list nat :=
  if Nat.eqb i 0 then seq 0 (S (Z.to_nat steps)) else seq 1 (Z.to_nat steps).

(** The placement of step [step] on a segment of [segmentDistance] metres,
    and the placements of a route from segment [i] on: a segment whose
    distance is [NaN] has none, and leaves the distance travelled [NaN]. *)
Definition placementAt (start end_ : Waypoint) (segmentDistance : R)
    (cumulativeDistance : Number) (step : nat) : Placement :=
  let t := INR step / IZR (stepCount segmentDistance) in
  {| placeDistance := addN cumulativeDistance (Num (segmentDistance * t));
     placeLat := latitude start + (latitude end_ - latitude start) * t;
     placeLon := longitude start + (longitude end_ - longitude start) * t;
     placeAltitude := altitude start + (altitude end_ - altitude start) * t |}.

Fixpoint routePlacements (i : nat) (waypoints : list Waypoint)
    (cumulativeDistance : Number) : list Placement :=
  match waypoints with
  | start :: ((end_ :: _) as rest) =>
      match haversineDistance (latitude start) (longitude start)
                              (latitude end_) (longitude end_) with
      | NaN => routePlacements (S i) rest NaN
      | Num segmentDistance =>
          map (placementAt start end_ segmentDistance cumulativeDistance)
              (emittedSteps i (stepCount segmentDistance))
          ++ routePlacements (S i) rest
               (addN cumulativeDistance (Num segmentDistance))
      end
  | _ => []
  end.

(** *** When every distance is a number

    The same in exact arithmetic alone, for a route none of whose segments
    has a distance of [NaN]. *)
Record Point := {
  pointDistance : R;
  pointLat : R;
  pointLon : R;
  pointAltitude : R
}.

Definition exactPlacement (p : Point) : Placement :=
  {| placeDistance := Num (pointDistance p); placeLat := pointLat p;
     placeLon := pointLon p; placeAltitude := pointAltitude p |}.

Definition segmentLength (start end_ : Waypoint) : R :=
  haversineMeters (latitude start) (longitude start)
                  (latitude end_) (longitude end_).

Definition pointAt (start end_ : Waypoint) (cumulativeDistance : R)
    (step : nat) : Point :=
  let segmentDistance := segmentLength start end_ in
  let t := INR step / IZR (stepCount segmentDistance) in
  {| pointDistance := cumulativeDistance + segmentDistance * t;
     pointLat := latitude start + (latitude end_ - latitude start) * t;
     pointLon := longitude start + (longitude end_ - longitude start) * t;
     pointAltitude := altitude start + (altitude end_ - altitude start) * t |}.

Fixpoint routePoints (i : nat) (waypoints : list Waypoint)
    (cumulativeDistance : R) : list Point :=
  match waypoints with
  | start :: ((end_ :: _) as rest) =>
      map (pointAt start end_ cumulativeDistance)
          (emittedSteps i (stepCount (segmentLength start end_)))
      ++ routePoints (S i) rest
           (cumulativeDistance + segmentLength start end_)
  | _ => []
  end.


(** No segment of the route has a distance of [NaN]. *)
Fixpoint distancesAreNumbers (waypoints : list Waypoint) : Prop :=
  match waypoints with
  | start :: ((end_ :: _) as rest) =>
      haversineDistance (latitude start) (longitude start)
                        (latitude end_) (longitude end_) <> NaN /\
      distancesAreNumbers rest
  | _ => True
  end.

End RouteGeometry.

(** ** Names used by the statements

    The definitions below add nothing to the engine: they name parts of its
    functions, properties of its states, and the inputs of the scenarios. *)

(** Equality of binary64 numbers as [==] decides it. *)
Definition same (x y : float) : bool := PrimFloat.eqb x y.

Definition same_option (x y : option float) : bool :=
  match x, y with
  | None, None => true
  | Some a, Some b => same a b
  | _, _ => false
  end.

Ltac unfold_action :=
  unfold settle, bind, ret, gets, modify, throw, try_catch in *;
  cbv beta iota zeta in *.

Section StatementNames.
Local Open Scope R_scope.

(** [tan x + 1 / cos x] on [[0, PI/2)]: positive and increasing. *)
Definition mercatorArgument (x : R) : R := tan x + 1 / cos x.

(** What the sampler leaves alone: the route, the token and the canvas. *)
Definition sameDisplay (st st' : State) : Prop :=
  waypoints st' = waypoints st /\
  profileToken st' = profileToken st /\
  canvas st' = canvas st.

(** The tile that covers a position, and the elevation its pixel decodes
    to: the names of what [getElevationFromTile] computes around its
    [await]. *)
Definition coveringTile (lat lon : R) : Z * Z :=
  (Math_floor (tileCoordinateX TILE_ZOOM lon),
   Math_floor (tileCoordinateY TILE_ZOOM lat)).

Definition pixelElevation (tileData : ImageData) (lat lon : R) : option R :=
  let x := tileCoordinateX TILE_ZOOM lon in
  let y := tileCoordinateY TILE_ZOOM lat in
  let xPixel := Math_floor ((x - IZR (Math_floor x)) * 256) in
  let yPixel := Math_floor ((y - IZR (Math_floor y)) * 256) in
  let index := ((yPixel * 256 + xPixel) * 4)%Z in
  match byteAt tileData index, byteAt tileData (index + 1),
        byteAt tileData (index + 2) with
  | Some r, Some g, Some b => decodeElevation (IZR r) (IZR g) (IZR b)
  | _, _, _ => None
  end.

(** The turns of the inner loop that end in [continue]. *)
Definition isSkipped (i step : nat) : bool :=
  Nat.eqb step 0 && negb (Nat.eqb i 0).

(** The subdivisions of the segment between two waypoints, as a count. *)
Definition stepsOf (start end_ : Waypoint) : nat :=
  Z.to_nat (stepCount (segmentLength start end_)).

(** The number of steps of a route: the sum of its segments' subdivisions. *)
Fixpoint routeSteps (route : list Waypoint) : nat :=
  match route with
  | start :: ((end_ :: _) as rest) => (stepsOf start end_ + routeSteps rest)%nat
  | _ => 0%nat
  end.

(** How a request for a tile that is not cached ends, by the network's
    answer: the three throws of [fetchElevationTile], or the decoded image. *)
Definition tileOutcome (answer : option Response) : Completion ImageData :=
  match answer with
  | None => Thrown FetchRejected
  | Some response =>
      if negb (ok response) then Thrown (TileRequestFailed (status response))
      else
        match image response with
        | None => Thrown ImageDecodeFailed
        | Some imageData => Normal imageData
        end
  end.

(** A tile that cannot be had: the request fails, the status is not a
    success, or the image does not decode. *)
Definition tileUnavailable (answer : option Response) : Prop :=
  match tileOutcome answer with
  | Normal _ => False
  | Thrown _ => True
  end.

(** The state after the synchronous start of a refresh. *)
Definition started (st : State) : State :=
  set_canvas (fun drawn => drawn ++ [Placeholder msgComputing])
    (set_profileToken nextToken st).

(** The route of the specification's scenario. *)
Definition scenarioRoute : list Waypoint :=
  [ {| id := "wp-1"; type := takeoff; latitude := 35; longitude := 139;
       altitude := 100; note := "" |};
    {| id := "wp-2"; type := landing; latitude := 35.001;
       longitude := 139.001; altitude := 150; note := "" |} ].

Definition scenarioState : State := set_waypoints (fun _ => scenarioRoute) initialState.

(** A network on which every request fails. *)
Definition offline : nat -> TileKey -> option Response := fun _ _ => None.

(** A network whose first answer is a failure and whose later answers are a
    one-pixel image. *)
Definition flaky : nat -> TileKey -> option Response :=
  fun n _ =>
    match n with
    | O => None
    | S _ => Some {| status := 200; image := Some [1; 134; 160; 255]%Z |}
    end.

(** A tile of the scenario's neighbourhood, and the state after one failed
    request for it. *)
Definition scenarioTile : TileKey := (14, 14518, 6451)%Z.

Definition afterFailedRequest : State :=
  set_requests (fun log => log ++ [scenarioTile]) initialState.

(** An engine for the scenarios: it takes 65535 arguments and rounds no
    distance out of range. *)
Definition scenarioEngine : JsEngine :=
  {| argumentLimit := Z.to_nat 65535;
     distanceIsNaN := fun _ _ _ _ => false;
     distanceIsNaN_where :=
       fun _ _ _ _ H => False_ind _ (Bool.diff_false_true H) |}.

(** The editor after the scenario's route was entered: one refresh is
    awaiting its samples. *)
Definition scenarioSystem : System :=
  step (engine := scenarioEngine) (initialState, [])
    (RouteEdited scenarioRoute).




(** The spreads of [drawElevationProfile] pass more arguments than the
    engine takes. *)
Definition tooManyArguments {engine : JsEngine} (samples : list Sample)
  : bool :=
  (argumentLimit <? length (omap groundElevation samples) + 1)%nat ||
  (argumentLimit <?
   length (omap groundElevation samples) +
   length (map plannedAltitude samples) + 1)%nat.

(** What a current invocation leaves on the canvas and the console when it
    is resumed with the outcome of its sampling. *)
Definition settled {engine : JsEngine} (outcome : Completion (list Sample))
    (st : State) : State :=
  match outcome with
  | Normal samples =>
      if tooManyArguments samples then
        set_canvas (fun drawn => drawn ++ [Placeholder msgFailed])
          (set_console (fun log => log ++ [ConsoleError RangeError])
             (set_canvas (fun drawn => drawn ++ [Cleared]) st))
      else
        set_canvas (fun drawn => drawn ++ [Profile (profileChart samples)]) st
  | Thrown e =>
      set_canvas (fun drawn => drawn ++ [Placeholder msgFailed])
        (set_console (fun log => log ++ [ConsoleError e]) st)
  end.

End StatementNames.


Section SamplerNames.
Local Open Scope R_scope.
Context {engine : JsEngine}.

(** The sample that the inner loop pushes: a placement with the elevation
    that was looked up for it. *)
Definition sampleOf (place : Placement) (ground : option R) : Sample :=
  {| distance := placeDistance place;
     lat := placeLat place;
     lon := placeLon place;
     groundElevation := ground;
     plannedAltitude := placeAltitude place |}.

(** The turns of the inner loops of a route from segment [i] on, each with
    its placement and whether its sample is kept (not skipped by the
    [continue]). *)
Definition segmentTurns (i : nat) (start end_ : Waypoint)
    (segmentDistance : R) (cumulativeDistance : Number)
  : list (Placement * bool) :=
  map (fun step =>
         (placementAt start end_ segmentDistance cumulativeDistance step,
          negb (isSkipped i step)))
      (seq 0 (S (Z.to_nat (stepCount segmentDistance)))).

Fixpoint routeTurns (i : nat) (waypoints : list Waypoint)
    (cumulativeDistance : Number) : list (Placement * bool) :=
  match waypoints with
  | start :: ((end_ :: _) as rest) =>
      match haversineDistance (latitude start) (longitude start)
                              (latitude end_) (longitude end_) with
      | NaN => routeTurns (S i) rest NaN
      | Num segmentDistance =>
          segmentTurns i start end_ segmentDistance cumulativeDistance
          ++ routeTurns (S i) rest
               (addN cumulativeDistance (Num segmentDistance))
      end
  | _ => []
  end.

(** One elevation lookup of a run: the turn it belongs to, the state it
    started from, what it found and the state it left. *)
Record Lookup := {
  place : Placement;
  kept : bool;
  stateBefore : State;
  found : option R;
  stateAfter : State
}.

(** The lookups of a run from [st] to [st']: each is a call of
    [getElevationFromTile] at its turn's position that returned, from the
    state that the lookup before it left. *)
Fixpoint lookupChain (network : nat -> TileKey -> option Response)
    (st : State) (lookups : list Lookup) (st' : State) : Prop :=
  match lookups with
  | [] => st' = st
  | lookup :: rest =>
      stateBefore lookup = st /\
      getElevationFromTile network (placeLat (place lookup))
        (placeLon (place lookup)) st =
      (Normal (found lookup), stateAfter lookup) /\
      lookupChain network (stateAfter lookup) rest st'
  end.

(** The samples that a list of lookups leaves. *)
Definition samplesOf (lookups : list Lookup) : list Sample :=
  map (fun lookup => sampleOf (place lookup) (found lookup))
      (List.filter kept lookups).

(** The offset of a coordinate's pixel within its tile:
    [Math.floor((x - xTile) * 256)], and the [index] of the pixel of a
    position in the buffer of its tile. *)
Definition pixelOffset (coordinate : R) : Z :=
  Math_floor ((coordinate - IZR (Math_floor coordinate)) * 256).

Definition pixelIndex (lat lon : R) : Z :=
  ((pixelOffset (tileCoordinateY TILE_ZOOM lat) * 256 +
    pixelOffset (tileCoordinateX TILE_ZOOM lon)) * 4)%Z.

(** How a lookup that went from [st] to [st'] and returned [ground] follows
    the fetch of its tile: when the fetch throws, [null] and a warning; when
    it returns, the elevation of the pixel, which is [null] when the bytes
    of the pixel decode to no data. *)
Definition lookupFollowsFetch (network : nat -> TileKey -> option Response)
    (lat lon : R) (st : State) (ground : option R) (st' : State) : Prop :=
  let tile := coveringTile lat lon in
  (forall e st1,
     fetchElevationTile network (Z.of_nat TILE_ZOOM) (fst tile) (snd tile) st =
     (Thrown e, st1) ->
     ground = None /\
     st' = set_console (fun log => log ++ [ConsoleWarn e]) st1) /\
  (forall tileData st1,
     fetchElevationTile network (Z.of_nat TILE_ZOOM) (fst tile) (snd tile) st =
     (Normal tileData, st1) ->
     ground = pixelElevation tileData lat lon /\ st' = st1 /\
     (forall r g b,
        byteAt tileData (pixelIndex lat lon) = Some r ->
        byteAt tileData (pixelIndex lat lon + 1) = Some g ->
        byteAt tileData (pixelIndex lat lon + 2) = Some b ->
        decodeElevation (IZR r) (IZR g) (IZR b) = None ->
        ground = None)).

End SamplerNames.
(** ** More names for the statements *)

Section MoreStatementNames.
Local Open Scope R_scope.
Context {engine : JsEngine}.

(** A byte of a [Uint8ClampedArray]. *)
Definition isByte (n : Z) : Prop := (0 <= n <= 255)%Z.

(** A box of positions and altitudes. *)
Record Box := {
  latLow : R; latHigh : R;
  lonLow : R; lonHigh : R;
  altLow : R; altHigh : R
}.

Definition waypointInBox (box : Box) (wp : Waypoint) : Prop :=
  latLow box <= latitude wp <= latHigh box /\
  lonLow box <= longitude wp <= lonHigh box /\
  altLow box <= altitude wp <= altHigh box.

Definition sampleInBox (box : Box) (s : Sample) : Prop :=
  latLow box <= lat s <= latHigh box /\
  lonLow box <= lon s <= lonHigh box /\
  altLow box <= plannedAltitude s <= altHigh box.

(** The box of the scenario's route. *)
Definition scenarioBox : Box :=
  {| latLow := 35; latHigh := 35.001; lonLow := 139; lonHigh := 139.001;
     altLow := 100; altHigh := 150 |}.

(** The bytes of a 256 by 256 RGBA tile. *)
Definition tileBytes : nat := Z.to_nat 262144.

(** A network on which every request is answered with the same decodable
    tile. *)
Definition online : nat -> TileKey -> option Response :=
  fun _ _ => Some {| status := 200; image := Some (repeat 7%Z tileBytes) |}.

(** Every answer of the network is a tile. *)
Definition alwaysAvailable (network : nat -> TileKey -> option Response)
  : Prop :=
  forall n key, exists data, tileOutcome (network n key) = Normal data.

(** What was cached stays cached, unchanged, and what was requested stays
    in the log, in order. *)
Definition cacheGrows (st st' : State) : Prop :=
  tileCache st ⊆ tileCache st' /\ requests st `prefix_of` requests st'.

(** No tile was requested twice, and every requested tile is cached. *)
Definition requestedOnce (st : State) : Prop :=
  NoDup (requests st) /\
  forall key, key ∈ requests st -> is_Some (tileCache st !! key).

(** The elevation lookups of a route: one per step of every segment whose
    distance is a number, the skipped step 0 included. *)
Fixpoint routeLookups (route : list Waypoint) : nat :=
  match route with
  | start :: ((end_ :: _) as rest) =>
      match segmentSteps (haversineDistance (latitude start) (longitude start)
                            (latitude end_) (longitude end_)) with
      | None => routeLookups rest
      | Some steps => (S (Z.to_nat steps) + routeLookups rest)%nat
      end
  | _ => 0%nat
  end.

End MoreStatementNames.

(** ** The pixel geometry of the chart

    [drawElevationProfile] draws the chart of [profileChart] through two
    scales; they are given here with the canvas size that [resizeCanvas]
    returns. *)

Section RendererGeometry.
Local Open Scope R_scope.

(** [Math.round]: the nearest integer, a half going up. *)
Definition Math_round (x : R) : Z := Math_floor (x + 1 / 2).

(** What [resizeCanvas] returns: [{ width, height, dpr }]. *)
Record CanvasSize := {
  width : R;
  height : R;
  dpr : R
}.

(** [resizeCanvas(canvas)], for a canvas whose bounding rectangle is
    [rectWidth] by [rectHeight] on a window of the given
    [devicePixelRatio]; [window.devicePixelRatio || 1] replaces a ratio of
    zero by one. *)
Definition resizeCanvas (rectWidth rectHeight devicePixelRatio : R)
  : CanvasSize :=
  let dpr := if Reqb devicePixelRatio 0 then 1 else devicePixelRatio in
  {| width := IZR (Math_round (rectWidth * dpr));
     height := IZR (Math_round (rectHeight * dpr));
     dpr := dpr |}.

(** [margin], [plotWidth] and [plotHeight] of [drawElevationProfile]. *)
Definition margin (size : CanvasSize) : R := 40 * dpr size.

Definition plotWidth (size : CanvasSize) : R := width size - margin size * 2.

Definition plotHeight (size : CanvasSize) : R :=
  Rmax (height size - margin size * 2) (dpr size).






(** The tick loop,
    [for (let d = 0; d <= effectiveTotal + 1e-6; d += stepMeters)], from
    [d] on: the distances [Math.min(d, totalDistance)] at which ticks are
    drawn.  [fuel] bounds the turns; [None] is a loop that has not ended
    within them. *)
Fixpoint tickLoop (fuel : nat) (effectiveTotal totalDistance stepMeters d : R)
  : option (list R) :=
  match fuel with
  | O => None
  | S fuel' =>
      if Rleb d (effectiveTotal + 1 / 1000000) then
        option_map (cons (Rmin d totalDistance))
          (tickLoop fuel' effectiveTotal totalDistance stepMeters
             (d + stepMeters))
      else Some []
  end.

Definition tickDistances (fuel : nat) (chart : Chart) : option (list R) :=
  tickLoop fuel (Rmax (totalDistance chart) 1) (totalDistance chart)
    (stepMeters chart) 0.


End RendererGeometry.

(** ** Route editing

    The four functions that change [state.waypoints].  Each is given as what
    it does to the array and whether it goes on to [renderWaypointsList()]
    and [updateMapVisualization()]; the list and the map markers themselves
    are not modelled. *)

Section RouteEditing.
Local Open Scope Z_scope.
Context {engine : JsEngine}.

Inductive EditOutcome :=
| Returned
    (* the early [return]: nothing is changed and nothing refreshed *)
| Edited (route : list Waypoint)
    (* [state.waypoints] is now [route]; list and map are refreshed *)
| Corrupted (before after : list Waypoint).
    (* [state.waypoints] is now [before], [undefined], [after];
       [renderWaypointsList] throws on the [undefined] entry *)

(** [addWaypoint({ type, latitude, longitude, altitude, note })];
    [generatedId] is the id made of [Date.now()] and [Math.random()], and a
    [note] of [None] is [undefined] or [null]. *)
Definition addWaypoint (generatedId : string) (type : WaypointType)
    (latitude longitude altitude : R) (note : option string)
    (route : list Waypoint) : EditOutcome :=
  let waypoint :=
    {| id := generatedId;
       type := type;
       latitude := latitude;
       longitude := longitude;
       altitude := altitude;
       note := match note with Some text => text | None => EmptyString end |} in
  Edited (route ++ [waypoint]).

(** The index at which [Array.prototype.splice(start, ...)] begins on an
    array of [len] elements: a negative [start] counts from the end. *)
Definition spliceStart (len start : Z) : nat :=
  Z.to_nat (if start <? 0 then Z.max (len + start) 0 else Z.min start len).

(** [moveWaypoint(fromIndex, toIndex)]. *)
Definition moveWaypoint (fromIndex toIndex : Z) (route : list Waypoint)
  : EditOutcome :=
  if (toIndex <? 0) || (toIndex >=? Z.of_nat (length route)) then Returned
  else
    let start := spliceStart (Z.of_nat (length route)) fromIndex in
    let item := route !! start in
    let rest := delete start route in
    let target := spliceStart (Z.of_nat (length rest)) toIndex in
    match item with
    | Some waypoint =>
        Edited (take target rest ++ waypoint :: drop target rest)
    | None => Corrupted (take target rest) (drop target rest)
    end.

(** The [updates] objects that the callers of [updateWaypoint] pass: any of
    the keys [type], [latitude], [longitude], [altitude], [note]. *)
Record Updates := {
  newType : option WaypointType;
  newLatitude : option R;
  newLongitude : option R;
  newAltitude : option R;
  newNote : option string
}.

(** [Object.assign(waypoint, updates)]. *)
Definition Object_assign (waypoint : Waypoint) (updates : Updates)
  : Waypoint :=
  {| id := id waypoint;
     type := default (type waypoint) (newType updates);
     latitude := default (latitude waypoint) (newLatitude updates);
     longitude := default (longitude waypoint) (newLongitude updates);
     altitude := default (altitude waypoint) (newAltitude updates);
     note := default (note waypoint) (newNote updates) |}.

(** The index of the object that [state.waypoints.find(predicate)]
    returns. *)
Fixpoint findIndex (predicate : Waypoint -> bool) (route : list Waypoint)
  : option nat :=
  match route with
  | [] => None
  | wp :: rest =>
      if predicate wp then Some O else option_map S (findIndex predicate rest)
  end.

(** [updateWaypoint(id, updates)]: the object found is changed in place. *)
Definition updateWaypoint (id0 : string) (updates : Updates)
    (route : list Waypoint) : EditOutcome :=
  match findIndex (fun wp => String.eqb (id wp) id0) route with
  | None => Returned
  | Some index =>
      Edited (alter (fun waypoint => Object_assign waypoint updates)
                index route)
  end.

(** [removeWaypoint(id)]. *)
Definition removeWaypoint (id0 : string) (route : list Waypoint)
  : EditOutcome :=
  Edited (List.filter (fun wp => negb (String.eqb (id wp) id0)) route).

(** The editing handlers of the page, and an edit among the other handlers:
    an edit that goes on to [updateMapVisualization()] starts a refresh on
    the route it leaves. *)
Inductive Edit :=
| AddWaypoint (generatedId : string) (type : WaypointType)
    (latitude longitude altitude : R) (note : option string)
| MoveWaypoint (fromIndex toIndex : Z)
| UpdateWaypoint (id0 : string) (updates : Updates)
| RemoveWaypoint (id0 : string).

Definition applyEdit (edit : Edit) (route : list Waypoint) : EditOutcome :=
  match edit with
  | AddWaypoint generatedId type latitude longitude altitude note =>
      addWaypoint generatedId type latitude longitude altitude note route
  | MoveWaypoint fromIndex toIndex => moveWaypoint fromIndex toIndex route
  | UpdateWaypoint id0 updates => updateWaypoint id0 updates route
  | RemoveWaypoint id0 => removeWaypoint id0 route
  end.

Definition handleEdit (edit : Edit) (sys : System) : option System :=
  match applyEdit edit (waypoints (fst sys)) with
  | Returned => Some sys
  | Edited route => Some (step sys (RouteEdited route))
  | Corrupted _ _ => None
  end.

(** The ids of a route; an edit whose generated id, if it generates one,
    is not an id of the route; and a sampler turn among the events. *)
Definition ids (route : list Waypoint) : list string := map id route.

Definition generatesFreshId (edit : Edit) (route : list Waypoint) : Prop :=
  match edit with
  | AddWaypoint generatedId _ _ _ _ _ => generatedId ∉ ids route
  | _ => True
  end.

Definition isProgress (ev : Event) : Prop :=
  match ev with SamplerProgress _ _ _ => True | _ => False end.

End RouteEditing.

(** ** Flight plan files

    [planSchema], the validation that [validatePlan] performs on it, and the
    two handlers that save and load a plan.  [validate] evaluates the
    keywords that [planSchema] uses ([type], [const], [enum], [minimum],
    [maximum], [minItems], [items], [required], [properties] and
    [additionalProperties: false]) as JSON Schema defines them. *)

Section FlightPlanFiles.
Local Open Scope R_scope.

(** A JSON value; the members of an object are in insertion order. *)
#[warnings="-register-all"]
Inductive Json :=
| JNull
| JBool (b : bool)
| JNumber (x : R)
| JString (s : string)
| JArray (items : list Json)
| JObject (members : list (string * Json)).

(** The four shapes of schema that occur in [planSchema].  Every object
    schema there has [additionalProperties: false]. *)
#[warnings="-register-all"]
Inductive Schema :=
| StringSchema (const : option string) (enum : option (list string))
| NumberSchema (minimum maximum : option R)
| ArraySchema (minItems : nat) (items : Schema)
| ObjectSchema (required : list string) (properties : list (string * Schema)).

(** [Object.keys(typeLabels)]. *)
Definition typeKeys : list string :=
  ["takeoff"; "transition_to_fixed"; "transit"; "transition_to_rotary";
   "landing"]%string.

Definition waypointSchema : Schema :=
  ObjectSchema ["id"; "type"; "latitude"; "longitude"; "altitude"]%string
    [("id", StringSchema None None);
     ("type", StringSchema None (Some typeKeys));
     ("latitude", NumberSchema (Some (-90)) (Some 90));
     ("longitude", NumberSchema (Some (-180)) (Some 180));
     ("altitude", NumberSchema (Some 0) None);
     ("note", StringSchema None None)]%string.

Definition planSchema : Schema :=
  ObjectSchema ["version"; "vehicleType"; "waypoints"]%string
    [("version", StringSchema None None);
     ("vehicleType", StringSchema (Some "VTOL") None);
     ("description", StringSchema None None);
     ("waypoints", ArraySchema 2 waypointSchema)]%string.

Definition hasKey (key : string) (members : list (string * Json)) : bool :=
  existsb (fun member => String.eqb (fst member) key) members.

Definition atLeast (minimum : option R) (x : R) : bool :=
  match minimum with Some low => Rleb low x | None => true end.

Definition atMost (maximum : option R) (x : R) : bool :=
  match maximum with Some high => Rleb x high | None => true end.

Definition isConst (const : option string) (s : string) : bool :=
  match const with Some c => String.eqb s c | None => true end.

Definition inEnum (enum : option (list string)) (s : string) : bool :=
  match enum with Some allowed => existsb (String.eqb s) allowed | None => true end.

Fixpoint validate (schema : Schema) (value : Json) {struct schema} : bool :=
  match schema, value with
  | StringSchema const enum, JString s => isConst const s && inEnum enum s
  | NumberSchema minimum maximum, JNumber x =>
      atLeast minimum x && atMost maximum x
  | ArraySchema minItems items, JArray values =>
      (minItems <=? length values)%nat && forallb (validate items) values
  | ObjectSchema required properties, JObject members =>
      forallb (fun key => hasKey key members) required &&
      forallb
        (fun member : string * Json =>
           (fix validateProperty (known : list (string * Schema)) : bool :=
              match known with
              | [] => false
              | (key, property) :: others =>
                  if String.eqb (fst member) key
                  then validate property (snd member)
                  else validateProperty others
              end) properties)
        members
  | _, _ => false
  end.

(** [validatePlan], the validator compiled from [planSchema]. *)
Definition validatePlan (value : Json) : bool := validate planSchema value.

(** The key of a waypoint type, and a waypoint of [state.waypoints] as the
    object it is. *)
Definition typeKey (type : WaypointType) : string :=
  match type with
  | takeoff => "takeoff"
  | transition_to_fixed => "transition_to_fixed"
  | transit => "transit"
  | transition_to_rotary => "transition_to_rotary"
  | landing => "landing"
  end.

Definition waypointObject (wp : Waypoint) : Json :=
  JObject [("id", JString (id wp));
           ("type", JString (typeKey (type wp)));
           ("latitude", JNumber (latitude wp));
           ("longitude", JNumber (longitude wp));
           ("altitude", JNumber (altitude wp));
           ("note", JString (note wp))]%string.

(** [handleSavePlan()]; [generatedAt] is [new Date().toISOString()]. *)
Inductive SaveOutcome :=
| TooFewWaypoints          (* the alert that two waypoints are needed *)
| PlanRejected             (* [console.error] and the alert about the schema *)
| Downloaded (plan : Json).

Definition savedPlan (generatedAt : string) (route : list Waypoint) : Json :=
  JObject [("version", JString "1.0.0");
           ("vehicleType", JString "VTOL");
           ("generatedAt", JString generatedAt);
           ("description", JString "VTOL Flight Plan");
           ("waypoints", JArray (map waypointObject route))]%string.

Definition handleSavePlan (generatedAt : string) (route : list Waypoint)
  : SaveOutcome :=
  if (length route <? 2)%nat then TooFewWaypoints
  else
    let plan := savedPlan generatedAt route in
    if negb (validatePlan plan) then PlanRejected else Downloaded plan.

(** [json.waypoints] and the other property reads: the value of the member
    of that name. *)
Fixpoint field (key : string) (members : list (string * Json))
  : option Json :=
  match members with
  | [] => None
  | (name, value) :: rest =>
      if String.eqb name key then Some value else field key rest
  end.

(** [handleLoadPlan(event)] on a chosen file; [parsed] is the value of
    [JSON.parse(await file.text())], [None] when either throws.  A load
    that succeeds leaves copies of the plan's waypoints in
    [state.waypoints]. *)
Inductive LoadOutcome :=
| FileRejected             (* the alert about the schema *)
| LoadFailed               (* the [catch]: the alert that reading failed *)
| Loaded (waypoints : list Json).

Definition handleLoadPlan (parsed : option Json) : LoadOutcome :=
  match parsed with
  | None => LoadFailed
  | Some json =>
      if negb (validatePlan json) then FileRejected
      else
        match json with
        | JObject members =>
            match field "waypoints" members with
            | Some (JArray waypoints) => Loaded waypoints
            | _ => LoadFailed
            end
        | _ => LoadFailed
        end
  end.

(** A waypoint object as [planSchema] wants it, told by its members. *)
Definition acceptableWaypoint (value : Json) : Prop :=
  exists members id0 type0 latitude0 longitude0 altitude0,
    value = JObject members /\
    field "id" members = Some (JString id0) /\
    field "type" members = Some (JString type0) /\ In type0 typeKeys /\
    field "latitude" members = Some (JNumber latitude0) /\
    -90 <= latitude0 <= 90 /\
    field "longitude" members = Some (JNumber longitude0) /\
    -180 <= longitude0 <= 180 /\
    field "altitude" members = Some (JNumber altitude0) /\
    0 <= altitude0.

(** A waypoint of the editor that [planSchema] accepts. *)
Definition waypointInRange (wp : Waypoint) : Prop :=
  -90 <= latitude wp <= 90 /\ -180 <= longitude wp <= 180 /\
  0 <= altitude wp.

(** The schema that [properties] gives for a key. *)
Fixpoint propertyOf (key : string) (known : list (string * Schema))
  : option Schema :=
  match known with
  | [] => None
  | (name, property) :: others =>
      if String.eqb key name then Some property else propertyOf key others
  end.

(** A plan file for a route with the keys that [planSchema] lists:
    [savedPlan] without [generatedAt]. *)
Definition planFile (route : list Waypoint) : Json :=
  JObject [("version", JString "1.0.0");
           ("vehicleType", JString "VTOL");
           ("description", JString "VTOL Flight Plan");
           ("waypoints", JArray (map waypointObject route))]%string.

End FlightPlanFiles.

(** ** The markers of the map

    [refreshMarkers] keeps one marker per waypoint on the map and remembers
    the markers in [state.markers], a [Map] from waypoint id to marker.  A
    marker is an object: [serial] tells one from another, and [created]
    counts the markers constructed so far. *)

Section MapMarkers.
Local Open Scope R_scope.

(** [typeColors]. *)
Definition typeColor (type : WaypointType) : string :=
  match type with
  | takeoff => "#2b8a3e"
  | transition_to_fixed => "#0f9ed5"
  | transit => "#f59f00"
  | transition_to_rotary => "#845ef7"
  | landing => "#d9480f"
  end.

Record Marker := {
  serial : nat;
  color : string;
  lngLat : R * R;
  waypointId : string
    (* the id that the marker's [dragend] handler passes to
       [updateWaypoint] *)
}.

Record MapView := {
  shown : list Marker;                 (* the markers on the map *)
  markers : list (string * Marker);    (* [state.markers], in insertion order *)
  created : nat
}.

Definition emptyView : MapView :=
  {| shown := []; markers := []; created := 0 |}.

(** [Map.prototype.set]: the value of a key that is there is replaced in
    place, a new key goes to the end. *)
Fixpoint Map_set (key : string) (value : Marker)
    (entries : list (string * Marker)) : list (string * Marker) :=
  match entries with
  | [] => [(key, value)]
  | (k, v) :: rest =>
      if String.eqb k key then (k, value) :: rest
      else (k, v) :: Map_set key value rest
  end.

(** The marker is one of [state.markers.values()]. *)
Definition isTracked (view : MapView) (marker : Marker) : bool :=
  existsb (fun entry => Nat.eqb (serial (snd entry)) (serial marker))
    (markers view).

(** The first loop of [refreshMarkers] and [state.markers.clear()]: every
    remembered marker is taken off the map. *)
Definition removeMarkers (view : MapView) : MapView :=
  {| shown := List.filter (fun marker => negb (isTracked view marker))
                (shown view);
     markers := [];
     created := created view |}.

(** [new maplibregl.Marker({ color, draggable }).setLngLat([wp.longitude,
    wp.latitude])] with its [dragend] handler, as the marker constructed
    after [count] others.  The fallback colour of [typeColors[wp.type] ??
    '#3b3b3b'] is for types outside the five. *)
Definition newMarker (count : nat) (wp : Waypoint) : Marker :=
  {| serial := count;
     color := typeColor (type wp);
     lngLat := (longitude wp, latitude wp);
     waypointId := id wp |}.

(** One turn of the second loop: a marker for [wp] is constructed, added to
    the map and remembered under [wp.id]. *)
Definition placeMarker (view : MapView) (wp : Waypoint) : MapView :=
  let marker := newMarker (created view) wp in
  {| shown := shown view ++ [marker];
     markers := Map_set (id wp) marker (markers view);
     created := S (created view) |}.

(** [refreshMarkers()] on the route in [state.waypoints]. *)
Definition refreshMarkers (route : list Waypoint) (view : MapView)
  : MapView :=
  fold_left placeMarker route (removeMarkers view).

(** The markers that a refresh constructs for a route, from the count
    [count] on. *)
Fixpoint markersFrom (count : nat) (route : list Waypoint) : list Marker :=
  match route with
  | [] => []
  | wp :: rest => newMarker count wp :: markersFrom (S count) rest
  end.

(** Every marker was constructed before the counter's current value. *)
Definition countedMarkers (view : MapView) : Prop :=
  Forall (fun marker => (serial marker < created view)%nat) (shown view) /\
  Forall (fun entry => (serial (snd entry) < created view)%nat)
    (markers view).

(** Every marker on the map is remembered. *)
Definition allTracked (view : MapView) : Prop :=
  Forall (fun marker => isTracked view marker = true) (shown view).

End MapMarkers.

(** The engine's own arithmetic, evaluated. *)
Module Binary64.
Local Open Scope float_scope.

Example decode_zero : decodeElevation 0 0 0 = None.
Proof. reflexivity. Qed.

Example decode_white : decodeElevation 255 255 255 = None.
Proof. reflexivity. Qed.

Example decode_10000 :
  same_option (decodeElevation 0 0 10000) (Some (-9000)) = true.
Proof. reflexivity. Qed.

Example decode_sea_level :
  same_option (decodeElevation 1 134 160) (Some 0) = true.
Proof. reflexivity. Qed.

Example interpolate_route_latitude :
  same (interpolateCoordinate 35 35.001 1) 35.001 = true.
Proof. reflexivity. Qed.

Example interpolate_halfway :
  same (interpolateCoordinate 100 150 0.5) 125 = true.
Proof. reflexivity. Qed.

Example interpolate_from_infinity :
  PrimFloat.is_nan (interpolateCoordinate infinity 0 0) = true.
Proof. reflexivity. Qed.

Example nice_step_small : same (chooseNiceStep 3) 10 = true.
Proof. reflexivity. Qed.

Example nice_step_large : same (chooseNiceStep 5000) 2000 = true.
Proof. reflexivity. Qed.

(** The term [a] between (8, -179) and (-8, 1), from the values that
    [Math.sin] and [Math.cos] have there: it exceeds 1, and the square root
    of [1 - a] is not a number. *)
Example antipodal_term_exceeds_one :
  same (haversineTerm (-0.13917310096006544) 0.9902680687415704
          0.9902680687415704 1) 1.0000000000000002 = true /\
  PrimFloat.is_nan
    (PrimFloat.sqrt
       (1 - haversineTerm (-0.13917310096006544) 0.9902680687415704
              0.9902680687415704 1)) = true.
Proof. split; reflexivity. Qed.
End Binary64.

(** ** Binary64 facts used for the interpolation end points *)

Section Binary64Facts.
Local Open Scope float_scope.

Lemma Prim2SF_of_finite (x : float) :
  is_finite x = true ->
  (exists s, Prim2SF x = S754_zero s) \/
  (exists s m e, Prim2SF x = S754_finite s m e).
Proof.
  unfold is_finite, is_nan, is_infinity.
  rewrite !FloatAxioms.eqb_spec, FloatAxioms.abs_spec.
  destruct (Prim2SF x) as [s | s | | s m e] eqn:Hx; cbn.
  - intros _. left. now exists s.
  - now destruct s.
  - discriminate.
  - intros _. right. now exists s, m, e.
Qed.

Lemma SFeqb_finite_refl (s : bool) (m : positive) (e : Z) :
  SFeqb (S754_finite s m e) (S754_finite s m e) = true.
Proof.
  unfold SFeqb, SFcompare.
  rewrite Z.compare_refl.
  change (PosDef.Pos.compare_cont Eq m m) with (Pos.compare m m).
  rewrite Pos.compare_refl.
  now destruct s.
Qed.

Lemma add_signed_zero (x z : float) (s : bool) :
  is_finite x = true -> Prim2SF z = S754_zero s -> (x + z =? x) = true.
Proof.
  intros Hx Hz.
  rewrite FloatAxioms.eqb_spec, FloatAxioms.add_spec, Hz.
  destruct (Prim2SF_of_finite x Hx) as [[sx ->] | (sx & m & e & ->)].
  - now destruct sx, s.
  - cbn. apply SFeqb_finite_refl.
Qed.

Lemma mul_zero_is_zero (d : float) :
  is_finite d = true -> exists s, Prim2SF (d * 0) = S754_zero s.
Proof.
  intros Hd.
  rewrite FloatAxioms.mul_spec.
  change (Prim2SF 0) with (S754_zero false).
  destruct (Prim2SF_of_finite d Hd) as [[s ->] | (s & m & e & ->)];
    cbn; eauto.
Qed.

(** Multiplying by one is exact: the product of the mantissa by [2^52] is
    shifted back by 52 bits with nothing lost. *)
Lemma mantissa_times_one (m : positive) :
  Pos.mul m 4503599627370496 = Pos.iter xO m 52.
Proof. rewrite Pos.mul_comm. reflexivity. Qed.

Lemma round_product_by_one (s : bool) (m : positive) (e : Z) :
  bounded prec emax m e = true ->
  binary_round_aux prec emax s (Zpos (Pos.mul m 4503599627370496)) (e + -52)
    loc_Exact = S754_finite s m e.
Proof.
  intros Hb. unfold bounded in Hb. apply andb_prop in Hb as [Hcanon Hmax].
  unfold canonical_mantissa in Hcanon. apply Z.eqb_eq in Hcanon.
  rewrite mantissa_times_one.
  unfold binary_round_aux, shr_fexp.
  assert (Zdigits2 (Zpos (Pos.iter xO m 52)) + (e + -52) =
          Zpos (digits2_pos m) + e)%Z as Hd.
  { cbn [Zdigits2 Pos.iter digits2_pos].
    rewrite !Pos2Z.inj_succ. lia. }
  rewrite Hd, Hcanon.
  replace (e - (e + -52))%Z with 52%Z by lia.
  cbn [shr shr_record_of_loc SpecFloat.iter_pos Pos.iter shr_1 orb].
  cbn [shr_m loc_of_shr_record round_nearest_even Zdigits2].
  replace (e + -52 + 52)%Z with e by lia.
  rewrite Hcanon, Z.sub_diag. cbn [shr shr_record_of_loc shr_m].
  now rewrite Hmax.
Qed.

Lemma mul_one_exact (x : float) : x * 1 = x.
Proof.
  apply Prim2SF_inj. rewrite FloatAxioms.mul_spec.
  change (Prim2SF 1) with (S754_finite false 4503599627370496 (-52)).
  pose proof (Prim2SF_valid x) as Hv.
  destruct (Prim2SF x) as [s | s | | s m e]; unfold SF64mul, SFmul.
  - now rewrite xorb_false_r.
  - now rewrite xorb_false_r.
  - reflexivity.
  - rewrite xorb_false_r. apply round_product_by_one. exact Hv.
Qed.
End Binary64Facts.

(** ** Decoding and interpolation *)

Section PureFunctions.
Local Open Scope R_scope.

Lemma Reqb_true (x y : R) : Reqb x y = true <-> x = y.
Proof. unfold Reqb. destruct (Req_dec_T x y); split; congruence. Qed.

Lemma Reqb_false (x y : R) : Reqb x y = false <-> x <> y.
Proof. unfold Reqb. destruct (Req_dec_T x y); split; congruence. Qed.

Lemma decodeElevation_real (r g b : R) :
  decodeElevation r g b =
  if Reqb (r * 65536 + g * 256 + b) 0
     || Reqb (r * 65536 + g * 256 + b) 16777215
  then None
  else Some ((r * 65536 + g * 256 + b) / 10 - 10000).
Proof.
  unfold decodeElevation; cbn.
  replace (r * 256 * 256 + g * 256 + b) with (r * 65536 + g * 256 + b) by ring.
  replace (256 * 256 * 256 - 1) with 16777215 by ring.
  reflexivity.
Qed.

(** C5.  Over exact arithmetic, for all [r], [g], [b]: the result is [null]
    exactly when [value = r*65536 + g*256 + b] is [0] or [16777215], and is
    [value/10 - 10000] otherwise.  In binary64, as the engine evaluates it:
    [decode(0,0,0)] and [decode(255,255,255)] are [null], and
    [decode(0,0,10000)] is the number [(0*65536 + 0*256 + 10000)/10 - 10000],
    which is finite. *)
Theorem decodeElevation_spec :
  (forall r g b : R,
     let value := r * 65536 + g * 256 + b in
     (decodeElevation r g b = None <-> value = 0 \/ value = 16777215) /\
     (value <> 0 -> value <> 16777215 ->
      decodeElevation r g b = Some (value / 10 - 10000))) /\
  (decodeElevation 0 0 0 = None /\
   decodeElevation 255 255 255 = None /\
   exists elevation : float,
     decodeElevation 0 0 10000 = Some elevation /\
     PrimFloat.eqb elevation ((0 * 65536 + 0 * 256 + 10000) / 10 - 10000) = true /\
     PrimFloat.is_finite elevation = true)%float.
Proof.
  split.
  - intros r g b value. rewrite decodeElevation_real. fold value.
    split; [split|].
    + destruct (Reqb value 0) eqn:E0; [left; now apply Reqb_true|].
      destruct (Reqb value 16777215) eqn:E1; [right; now apply Reqb_true|].
      discriminate.
    + intros [Hv | Hv]; rewrite Hv.
      * now replace (Reqb 0 0) with true by (symmetry; now apply Reqb_true).
      * replace (Reqb 16777215 16777215) with true
          by (symmetry; now apply Reqb_true).
        now rewrite orb_true_r.
    + intros H0 H1.
      apply Reqb_false in H0, H1. now rewrite H0, H1.
  - repeat split; try reflexivity.
    eexists. repeat split; reflexivity.
Qed.

Lemma decodeElevation_spec_witness :
  decodeElevation 0 0 10000 = Some (10000 / 10 - 10000).
Proof.
  replace (10000 / 10 - 10000) with ((0 * 65536 + 0 * 256 + 10000) / 10 - 10000)
    by lra.
  apply (proj1 decodeElevation_spec 0 0 10000); lra.
Defined.

(** C8, the counterexample: in binary64, interpolating from [100] to [0.1] at
    [t = 1] yields [0.09999999999999432], not [0.1]. *)
Lemma interpolate_end_inexact :
  (PrimFloat.eqb (interpolateCoordinate 100 0.1 1) 0.1 = false /\
   PrimFloat.eqb (interpolateCoordinate 100 0.1 1) 0.099999999999994316 = true)%float.
Proof. split; reflexivity. Qed.

(** C8, as amended.  In binary64, [interpolateCoordinate(a, b, 0) == a] for
    all finite [a] and [b] whose difference [b - a] is finite, and
    [interpolateCoordinate(a, b, 1)] is the rounded sum [a + (b - a)] for all
    [a] and [b].  In exact arithmetic both end points are met:
    [interpolateCoordinate(a, b, 0) = a] and
    [interpolateCoordinate(a, b, 1) = b]. *)
Theorem interpolateCoordinate_endpoints :
  (forall a b : float,
     PrimFloat.is_finite a = true ->
     PrimFloat.is_finite (b - a)%float = true ->
     PrimFloat.eqb (interpolateCoordinate a b 0%float) a = true) /\
  (forall a b : float,
     interpolateCoordinate a b 1%float = (a + (b - a))%float) /\
  (forall a b : R,
     interpolateCoordinate a b 0 = a /\ interpolateCoordinate a b 1 = b).
Proof.
  split; [|split].
  - intros a b Ha Hd.
    destruct (mul_zero_is_zero (b - a)%float Hd) as [s Hs].
    exact (add_signed_zero a _ s Ha Hs).
  - intros a b. unfold interpolateCoordinate; cbn.
    now rewrite mul_one_exact.
  - intros a b. unfold interpolateCoordinate; cbn. split; ring.
Qed.

Lemma interpolateCoordinate_endpoints_witness :
  (PrimFloat.eqb (interpolateCoordinate 100 0.1 0) 100 = true)%float.
Proof.
  apply (proj1 interpolateCoordinate_endpoints 100%float 0.1%float);
    reflexivity.
Defined.
End PureFunctions.

(** ** Facts about the [Math] functions, geodesy and projection *)

Section RealMathFacts.
Local Open Scope R_scope.

Lemma Math_floor_bounds (x : R) :
  IZR (Math_floor x) <= x < IZR (Math_floor x) + 1.
Proof.
  unfold Math_floor. rewrite minus_IZR.
  destruct (archimed x) as [Hup Hlow]. lra.
Qed.

Lemma Math_ceil_bounds (x : R) :
  x <= IZR (Math_ceil x) < x + 1.
Proof.
  unfold Math_ceil. rewrite opp_IZR.
  pose proof (Math_floor_bounds (- x)). lra.
Qed.

Lemma stepCount_positive (d : R) : (1 <= stepCount d)%Z.
Proof. unfold stepCount. lia. Qed.

Lemma stepCount_real_positive (d : R) : 0 < IZR (stepCount d).
Proof. apply IZR_lt. pose proof (stepCount_positive d). lia. Qed.

(** With a non-negative distance the steps are at most
    [SAMPLE_SPACING_METERS] apart. *)
Lemma stepCount_spacing (d : R) :
  0 <= d -> d / IZR (stepCount d) <= SAMPLE_SPACING_METERS.
Proof.
  intros Hd. unfold SAMPLE_SPACING_METERS.
  pose proof (stepCount_real_positive d) as Hpos.
  apply (Rmult_le_reg_r (IZR (stepCount d))); [exact Hpos|].
  unfold Rdiv. rewrite Rmult_assoc, Rinv_l by lra. rewrite Rmult_1_r.
  assert (IZR (Math_ceil (d / SAMPLE_SPACING_METERS)) <= IZR (stepCount d))
    as Hle by (apply IZR_le; unfold stepCount; lia).
  pose proof (Math_ceil_bounds (d / SAMPLE_SPACING_METERS)) as [Hc _].
  unfold SAMPLE_SPACING_METERS in *. lra.
Qed.

Lemma Math_atan2_nonneg (y x : R) : 0 <= y -> 0 <= x -> 0 <= Math_atan2 y x.
Proof.
  intros Hy Hx. unfold Math_atan2.
  destruct (Rlt_dec 0 x) as [Hpos | Hnpos].
  - destruct (Req_dec y 0) as [-> | Hy0].
    + unfold Rdiv. rewrite Rmult_0_l, atan_0. lra.
    + left. rewrite <- atan_0. apply atan_increasing.
      apply Rdiv_lt_0_compat; lra.
  - destruct (Rlt_dec x 0); [lra|].
    pose proof PI_RGT_0.
    destruct (Rlt_dec 0 y); [lra|].
    destruct (Rlt_dec y 0); lra.
Qed.

Lemma sin_half_squared (x : R) : sin (x / 2) * sin (x / 2) = (1 - cos x) / 2.
Proof.
  replace x with (2 * (x / 2)) at 3 by field.
  rewrite cos_2a_sin. field.
Qed.

Lemma cos_product (x y : R) : cos x * cos y = (cos (y - x) + cos (x + y)) / 2.
Proof. rewrite cos_minus, cos_plus. field. Qed.

(** The haversine term lies in [[0, 1]] for all arguments, so both square
    roots of [haversineMeters] are taken of non-negative numbers. *)
Lemma haversine_a_range (lat1 lon1 lat2 lon2 : R) :
  0 <= haversine_a lat1 lon1 lat2 lon2 <= 1.
Proof.
  unfold haversine_a.
  rewrite !Rmult_assoc, !sin_half_squared, <- Rmult_assoc, cos_product.
  replace (toRad lat2 - toRad lat1) with (toRad (lat2 - lat1))
    by (unfold toRad; field).
  pose proof (COS_bound (toRad (lat2 - lat1))) as [? ?].
  pose proof (COS_bound (toRad lat1 + toRad lat2)) as [? ?].
  pose proof (COS_bound (toRad (lon2 - lon1))) as [? ?].
  split; nra.
Qed.


Lemma haversineMeters_nonneg (lat1 lon1 lat2 lon2 : R) :
  0 <= haversineMeters lat1 lon1 lat2 lon2.
Proof.
  unfold haversineMeters, earthRadius, Math_sqrt.
  pose proof (Math_atan2_nonneg _ _
                (sqrt_pos (haversine_a lat1 lon1 lat2 lon2))
                (sqrt_pos (1 - haversine_a lat1 lon1 lat2 lon2))).
  nra.
Qed.

Lemma segmentLength_nonneg (start end_ : Waypoint) :
  0 <= segmentLength start end_.
Proof. apply haversineMeters_nonneg. Qed.


Lemma Math_atan2_at_most_right_angle (y x : R) :
  0 <= y -> 0 <= x -> Math_atan2 y x <= PI / 2.
Proof.
  intros Hy Hx. unfold Math_atan2. pose proof PI_RGT_0.
  destruct (Rlt_dec 0 x).
  - left. apply atan_bound.
  - destruct (Rlt_dec x 0); [lra|].
    destruct (Rlt_dec 0 y); [lra|].
    destruct (Rlt_dec y 0); lra.
Qed.

Lemma Math_ceil_at_most (x : R) (n : Z) : x <= IZR n -> (Math_ceil x <= n)%Z.
Proof.
  intros Hx. destruct (Math_ceil_bounds x) as [_ Hhi].
  assert (IZR (Math_ceil x) < IZR (n + 1)) as H by (rewrite plus_IZR; lra).
  apply lt_IZR in H. lia.
Qed.

(** No two positions are further apart than half the circumference of the
    sphere, so no segment has more than 318550 steps. *)
Lemma haversineMeters_at_most (lat1 lon1 lat2 lon2 : R) :
  haversineMeters lat1 lon1 lat2 lon2 <= PI * 6371000.
Proof.
  unfold haversineMeters, earthRadius, Math_sqrt.
  pose proof (Math_atan2_at_most_right_angle _ _
                (sqrt_pos (haversine_a lat1 lon1 lat2 lon2))
                (sqrt_pos (1 - haversine_a lat1 lon1 lat2 lon2))).
  nra.
Qed.

Lemma stepCount_at_most (lat1 lon1 lat2 lon2 : R) :
  (stepCount (haversineMeters lat1 lon1 lat2 lon2) <= 318550)%Z.
Proof.
  unfold stepCount, SAMPLE_SPACING_METERS.
  apply Z.max_lub; [lia|]. apply Math_ceil_at_most.
  pose proof (haversineMeters_at_most lat1 lon1 lat2 lon2).
  pose proof PI_4. lra.
Qed.

Lemma tileCount_positive (zoom : nat) : 0 < tileCount zoom.
Proof. unfold tileCount. apply pow_lt. lra. Qed.

Lemma tileCoordinateX_increasing (zoom : nat) (lon1 lon2 : R) :
  lon1 < lon2 -> tileCoordinateX zoom lon1 < tileCoordinateX zoom lon2.
Proof.
  intros Hlt. unfold tileCoordinateX.
  apply Rmult_lt_compat_r; [apply tileCount_positive | lra].
Qed.


Lemma mercatorArgument_positive (x : R) :
  0 <= x < PI / 2 -> 0 < mercatorArgument x.
Proof.
  intros [H0 H1]. unfold mercatorArgument.
  assert (0 < cos x) as Hcos by (apply cos_gt_0; lra).
  assert (0 <= tan x) as Htan.
  { destruct (Req_dec x 0) as [-> | Hx]; [rewrite tan_0; lra|].
    left. apply tan_gt_0; lra. }
  assert (0 < 1 / cos x) by (apply Rdiv_lt_0_compat; lra).
  lra.
Qed.

Lemma mercatorArgument_increasing (x y : R) :
  0 <= x -> x < y -> y < PI / 2 -> mercatorArgument x < mercatorArgument y.
Proof.
  intros H0 Hxy Hy. unfold mercatorArgument.
  pose proof PI_RGT_0 as Hpi.
  assert (tan x < tan y) as Htan by (apply tan_increasing; lra).
  assert (cos y < cos x) as Hcos by (apply cos_decreasing_1; lra).
  assert (0 < cos y) as Hcy by (apply cos_gt_0; lra).
  assert (/ cos x < / cos y) as Hinv
    by (apply Rinv_lt_contravar; [apply Rmult_lt_0_compat|]; lra).
  lra.
Qed.

Lemma tileCoordinateY_decreasing (zoom : nat) (lat1 lat2 : R) :
  0 <= lat1 -> lat1 < lat2 -> lat2 < 90 ->
  tileCoordinateY zoom lat2 < tileCoordinateY zoom lat1.
Proof.
  intros H0 Hlt H90. unfold tileCoordinateY.
  pose proof PI_RGT_0 as Hpi.
  pose proof (tileCount_positive zoom) as Hn.
  fold (mercatorArgument (lat1 * PI / 180)).
  fold (mercatorArgument (lat2 * PI / 180)).
  assert (0 <= lat1 * PI / 180) as Hr0 by nra.
  assert (lat1 * PI / 180 < lat2 * PI / 180) as Hr1 by nra.
  assert (lat2 * PI / 180 < PI / 2) as Hr2 by nra.
  pose proof (mercatorArgument_increasing _ _ Hr0 Hr1 Hr2) as Hinc.
  assert (0 < mercatorArgument (lat1 * PI / 180)) as Hpos
    by (apply mercatorArgument_positive; lra).
  pose proof (ln_increasing _ _ Hpos Hinc) as Hln.
  apply Rmult_lt_compat_r; [exact Hn|].
  apply Rmult_lt_compat_r; [lra|].
  apply Rplus_lt_compat_l, Ropp_lt_contravar.
  apply Rmult_lt_compat_r; [apply Rinv_0_lt_compat; lra | exact Hln].
Qed.

(** C9.  At every zoom: for a fixed latitude the continuous [x] grows
    strictly with the longitude; and for a fixed longitude the continuous
    [y] falls strictly as the latitude grows, for latitudes of the northern
    hemisphere below the pole (the Mercator band [|lat| < 85.05] lies within
    [lat < 90]). *)
Theorem tile_projection_monotonic (zoom : nat) :
  (forall lon1 lon2 : R,
     lon1 < lon2 -> tileCoordinateX zoom lon1 < tileCoordinateX zoom lon2) /\
  (forall lat1 lat2 : R,
     0 <= lat1 -> lat1 < lat2 -> lat2 < 90 ->
     tileCoordinateY zoom lat2 < tileCoordinateY zoom lat1).
Proof.
  split.
  - apply tileCoordinateX_increasing.
  - apply tileCoordinateY_decreasing.
Qed.

Lemma tile_projection_monotonic_witness :
  tileCoordinateX TILE_ZOOM 139 < tileCoordinateX TILE_ZOOM (139 + 1) /\
  tileCoordinateY TILE_ZOOM 36 < tileCoordinateY TILE_ZOOM 35.
Proof.
  split.
  - apply (proj1 (tile_projection_monotonic TILE_ZOOM)). lra.
  - apply (proj2 (tile_projection_monotonic TILE_ZOOM)); lra.
Defined.
End RealMathFacts.

(** ** The tile cache and fetcher *)


Section FetcherFacts.
Variable network : nat -> TileKey -> option Response.


Lemma sameDisplay_refl (st : State) : sameDisplay st st.
Proof. now unfold sameDisplay. Qed.

Lemma sameDisplay_trans (st1 st2 st3 : State) :
  sameDisplay st1 st2 -> sameDisplay st2 st3 -> sameDisplay st1 st3.
Proof. unfold sameDisplay. intuition congruence. Qed.

(** [fetchElevationTile] on a cached tile: no request, no change. *)
Lemma fetchElevationTile_hit (z x y : Z) (st : State) (data : ImageData) :
  tileCache st !! ((z, x, y) : TileKey) = Some data ->
  fetchElevationTile network z x y st = (Normal data, st).
Proof.
  intros Hhit. unfold fetchElevationTile. unfold_action. now rewrite Hhit.
Qed.

(** [fetchElevationTile] on a tile that is not cached: one request, and the
    four ways it can end. *)
Lemma fetchElevationTile_miss (z x y : Z) (st : State) :
  tileCache st !! ((z, x, y) : TileKey) = None ->
  let key : TileKey := (z, x, y) in
  let asked := set_requests (fun log => log ++ [key]) st in
  fetchElevationTile network z x y st =
  match tileOutcome (network (length (requests st)) key) with
  | Normal imageData =>
      (Normal imageData, set_tileCache (fun m => <[key := imageData]> m) asked)
  | Thrown e => (Thrown e, asked)
  end.
Proof.
  intros Hmiss key asked. subst key asked.
  unfold fetchElevationTile, fetch, tileOutcome. unfold_action. rewrite Hmiss.
  destruct (network (length (requests st)) (z, x, y)) as [response|];
    [|reflexivity].
  destruct (ok response); cbn [negb]; [|reflexivity].
  destruct (image response); reflexivity.
Qed.

Lemma tileOutcome_normal (answer : option Response) (data : ImageData) :
  tileOutcome answer = Normal data <->
  exists response,
    answer = Some response /\ ok response = true /\
    image response = Some data.
Proof.
  unfold tileOutcome. split.
  - destruct answer as [response|]; [|discriminate].
    destruct (ok response) eqn:Hok; cbn [negb]; [|discriminate].
    destruct (image response) as [img|] eqn:Himg; [|discriminate].
    intros [= <-]. now exists response.
  - intros (response & -> & Hok & Himg). now rewrite Hok, Himg.
Qed.

Lemma fetchElevationTile_sameDisplay (z x y : Z) (st st' : State)
    (r : Completion ImageData) :
  fetchElevationTile network z x y st = (r, st') -> sameDisplay st st'.
Proof.
  destruct (tileCache st !! ((z, x, y) : TileKey)) as [data|] eqn:Hc.
  - rewrite (fetchElevationTile_hit _ _ _ _ _ Hc).
    intros [= <- <-]. apply sameDisplay_refl.
  - rewrite (fetchElevationTile_miss _ _ _ _ Hc).
    destruct (tileOutcome _) as [img | e];
      intros [= <- <-]; now unfold sameDisplay.
Qed.

(** C10.  When [fetchElevationTile] throws (the request failed, the status
    was not a success, or the image did not decode), the tile was not
    cached, the cache is left as it was and the request was issued; a
    second call for the same tile issues the request again.  When it
    returns a buffer, the cache holds that buffer under the tile's key; the
    cache was either left as it was (a hit) or extended with exactly this
    buffer, decoded from a successful response; and a second call returns
    the cached buffer with no request.  And it does return: for a tile that
    is not cached, when the network answers with a success whose image
    decodes, it issues the request, returns the decoded buffer and leaves
    it in the cache under the tile's key; for a cached tile it returns the
    cached buffer and changes nothing. *)
Theorem fetchElevationTile_caches_successes_only (z x y : Z) (st : State) :
  let key : TileKey := (z, x, y) in
  (forall e st',
     fetchElevationTile network z x y st = (Thrown e, st') ->
     tileCache st !! key = None /\
     tileCache st' = tileCache st /\
     requests st' = requests st ++ [key] /\
     forall r st'',
       fetchElevationTile network z x y st' = (r, st'') ->
       requests st'' = requests st' ++ [key]) /\
  (forall data st',
     fetchElevationTile network z x y st = (Normal data, st') ->
     tileCache st' !! key = Some data /\
     (st' = st \/
      (exists response,
         network (length (requests st)) key = Some response /\
         ok response = true /\ image response = Some data) /\
      tileCache st' = <[key := data]> (tileCache st)) /\
     fetchElevationTile network z x y st' = (Normal data, st')) /\
  (forall response data,
     tileCache st !! key = None ->
     network (length (requests st)) key = Some response ->
     ok response = true ->
     image response = Some data ->
     exists st',
       fetchElevationTile network z x y st = (Normal data, st') /\
       tileCache st' = <[key := data]> (tileCache st) /\
       tileCache st' !! key = Some data /\
       requests st' = requests st ++ [key]) /\
  (forall data,
     tileCache st !! key = Some data ->
     fetchElevationTile network z x y st = (Normal data, st)).
Proof.
  intros key. split; [|split; [|split]].
  - intros e st' Hrun.
    destruct (tileCache st !! key) as [data|] eqn:Hc.
    { unfold key in Hc. rewrite (fetchElevationTile_hit _ _ _ _ _ Hc) in Hrun.
      discriminate. }
    pose proof Hc as Hc0.
    unfold key in Hc. rewrite (fetchElevationTile_miss _ _ _ _ Hc) in Hrun.
    assert (st' = set_requests (fun log => log ++ [key]) st) as ->.
    { destruct (tileOutcome _) as [img | e'];
        now inversion Hrun. }
    clear Hrun.
    repeat split; try reflexivity.
    intros r st'' Hagain.
    rewrite fetchElevationTile_miss in Hagain by exact Hc0.
    destruct (tileOutcome _) as [img | e'];
      inversion Hagain; subst; reflexivity.
  - intros data st' Hrun.
    destruct (tileCache st !! key) as [cached|] eqn:Hc.
    + unfold key in Hc.
      rewrite (fetchElevationTile_hit _ _ _ _ _ Hc) in Hrun.
      inversion Hrun; subst.
      split; [exact Hc|]. split; [now left|].
      now apply fetchElevationTile_hit.
    + pose proof Hc as Hc0. unfold key in Hc.
      rewrite (fetchElevationTile_miss _ _ _ _ Hc) in Hrun.
      destruct (tileOutcome _) as [img | e'] eqn:Hnet;
        inversion Hrun; subst.
      assert (tileCache (set_tileCache (fun m => <[key := data]> m)
                (set_requests (fun log => log ++ [key]) st)) !! key
              = Some data) as Hin by (cbn; apply lookup_insert_eq).
      split; [exact Hin|]. split.
      * right. split; [now apply tileOutcome_normal | reflexivity].
      * now apply fetchElevationTile_hit.
  - intros response data Hmiss Hanswer Hok Himage.
    unfold key in Hmiss. rewrite (fetchElevationTile_miss _ _ _ _ Hmiss).
    assert (tileOutcome (network (length (requests st)) (z, x, y)) =
            Normal data) as ->
      by (apply tileOutcome_normal; now exists response).
    eexists. split; [reflexivity|]. cbn.
    split; [reflexivity|]. split; [apply lookup_insert_eq | reflexivity].
  - intros data Hhit. now apply fetchElevationTile_hit.
Qed.
End FetcherFacts.

(** ** The route sampler *)

Section SamplerFacts.
Local Open Scope R_scope.
Context {engine : JsEngine}.
Variable network : nat -> TileKey -> option Response.


Lemma getElevationFromTile_run (lat lon : R) (st : State) :
  getElevationFromTile network lat lon st =
  match fetchElevationTile network (Z.of_nat TILE_ZOOM)
          (fst (coveringTile lat lon)) (snd (coveringTile lat lon)) st with
  | (Normal tileData, st') => (Normal (pixelElevation tileData lat lon), st')
  | (Thrown e, st') =>
      (Normal None, set_console (fun log => log ++ [ConsoleWarn e]) st')
  end.
Proof.
  unfold getElevationFromTile, pixelElevation, coveringTile, console_warn.
  unfold_action. unfold fst, snd.
  destruct (fetchElevationTile _ _ _ _ st) as [[tileData | e] st'];
    [|reflexivity].
  destruct (byteAt tileData _) as [r|]; [|reflexivity].
  destruct (byteAt tileData _) as [g|]; [|reflexivity].
  destruct (byteAt tileData _) as [b|]; reflexivity.
Qed.

(** [getElevationFromTile] never throws, and leaves the display alone. *)
Lemma getElevationFromTile_total (lat lon : R) (st : State) :
  exists ground st',
    getElevationFromTile network lat lon st = (Normal ground, st') /\
    sameDisplay st st'.
Proof.
  rewrite getElevationFromTile_run.
  destruct (fetchElevationTile _ _ _ _ st) as [[tileData | e] st'] eqn:Hf;
    apply fetchElevationTile_sameDisplay in Hf.
  - now exists (pixelElevation tileData lat lon), st'.
  - eexists _, _. split; [reflexivity|].
    unfold sameDisplay in *. cbn. exact Hf.
Qed.

Lemma getElevationFromTile_sameDisplay (lat lon : R) (st st' : State)
    (ground : option R) :
  getElevationFromTile network lat lon st = (Normal ground, st') ->
  sameDisplay st st'.
Proof.
  destruct (getElevationFromTile_total lat lon st) as (g & st1 & Hrun & Hsame).
  rewrite Hrun. now intros [= <- <-].
Qed.

(** [haversineDistance] is [NaN] or the exact distance. *)
Lemma haversineDistance_number (lat1 lon1 lat2 lon2 : R) :
  haversineDistance lat1 lon1 lat2 lon2 <> NaN ->
  haversineDistance lat1 lon1 lat2 lon2 =
  Num (haversineMeters lat1 lon1 lat2 lon2).
Proof.
  unfold haversineDistance.
  now destruct (distanceIsNaN lat1 lon1 lat2 lon2).
Qed.

Lemma haversineDistance_Num (lat1 lon1 lat2 lon2 d : R) :
  haversineDistance lat1 lon1 lat2 lon2 = Num d ->
  d = haversineMeters lat1 lon1 lat2 lon2.
Proof.
  unfold haversineDistance.
  destruct (distanceIsNaN lat1 lon1 lat2 lon2); [discriminate|].
  now intros [= <-].
Qed.

Lemma sampleStep_run (i : nat) (start end_ : Waypoint) (d : R)
    (cum : Number) (samples : list Sample) (step : nat) (st : State) :
  exists ground st',
    getElevationFromTile network
      (placeLat (placementAt start end_ d cum step))
      (placeLon (placementAt start end_ d cum step)) st =
    (Normal ground, st') /\
    sampleStep network i start end_ (Num d) (stepCount d) cum samples step
      st =
    (Normal (if isSkipped i step then samples
             else samples ++
                  [sampleOf (placementAt start end_ d cum step) ground]),
     st').
Proof.
  destruct (getElevationFromTile_total
              (placeLat (placementAt start end_ d cum step))
              (placeLon (placementAt start end_ d cum step)) st)
    as (ground & st' & Hrun & _).
  exists ground, st'. split; [exact Hrun|].
  unfold sampleStep, bind.
  change (interpolateCoordinate (latitude start) (latitude end_)
            (INR step / IZR (stepCount d)))
    with (placeLat (placementAt start end_ d cum step)).
  change (interpolateCoordinate (longitude start) (longitude end_)
            (INR step / IZR (stepCount d)))
    with (placeLon (placementAt start end_ d cum step)).
  rewrite Hrun. unfold isSkipped.
  destruct (Nat.eqb step 0 && negb (Nat.eqb i 0)); reflexivity.
Qed.

Lemma emittedSteps_filter (i : nat) (steps : Z) :
  List.filter (fun step => negb (isSkipped i step))
              (seq 0 (S (Z.to_nat steps))) =
  emittedSteps i steps.
Proof.
  unfold emittedSteps, isSkipped.
  destruct (Nat.eqb i 0); cbn [negb andb].
  - rewrite forallb_filter_id; [reflexivity|].
    apply forallb_forall. intros step _. now rewrite andb_false_r.
  - cbn [seq List.filter Nat.eqb negb andb].
    rewrite forallb_filter_id; [reflexivity|].
    apply forallb_forall. intros step Hin. apply in_seq in Hin.
    destruct step; [lia | reflexivity].
Qed.

Lemma sampleSegments_cons (i : nat) (start end_ : Waypoint)
    (tail : list Waypoint) (samples : list Sample) (cum : Number) :
  sampleSegments network i (start :: end_ :: tail) samples cum =
  bind (match segmentSteps
                (haversineDistance (latitude start) (longitude start)
                   (latitude end_) (longitude end_)) with
        | None => ret samples
        | Some steps =>
            forEach (seq 0 (S (Z.to_nat steps)))
              (sampleStep network i start end_
                 (haversineDistance (latitude start) (longitude start)
                    (latitude end_) (longitude end_)) steps cum)
              samples
        end)
       (fun samples' =>
          sampleSegments network (S i) (end_ :: tail) samples'
            (addN cum
               (haversineDistance (latitude start) (longitude start)
                  (latitude end_) (longitude end_)))).
Proof. reflexivity. Qed.

Lemma routePoints_cons (i : nat) (start end_ : Waypoint)
    (tail : list Waypoint) (cum : R) :
  routePoints i (start :: end_ :: tail) cum =
  map (pointAt start end_ cum)
      (emittedSteps i (stepCount (segmentLength start end_)))
  ++ routePoints (S i) (end_ :: tail) (cum + segmentLength start end_).
Proof. reflexivity. Qed.

Lemma routeTurns_cons (i : nat) (start end_ : Waypoint)
    (tail : list Waypoint) (cum : Number) :
  routeTurns i (start :: end_ :: tail) cum =
  match haversineDistance (latitude start) (longitude start)
                          (latitude end_) (longitude end_) with
  | NaN => routeTurns (S i) (end_ :: tail) NaN
  | Num d =>
      segmentTurns i start end_ d cum
      ++ routeTurns (S i) (end_ :: tail) (addN cum (Num d))
  end.
Proof. reflexivity. Qed.

Lemma routePlacements_cons (i : nat) (start end_ : Waypoint)
    (tail : list Waypoint) (cum : Number) :
  routePlacements i (start :: end_ :: tail) cum =
  match haversineDistance (latitude start) (longitude start)
                          (latitude end_) (longitude end_) with
  | NaN => routePlacements (S i) (end_ :: tail) NaN
  | Num d =>
      map (placementAt start end_ d cum) (emittedSteps i (stepCount d))
      ++ routePlacements (S i) (end_ :: tail) (addN cum (Num d))
  end.
Proof. reflexivity. Qed.

(** *** The lookups of a run *)

Lemma samplesOf_cons (lookup : Lookup) (rest : list Lookup) :
  samplesOf (lookup :: rest) =
  if kept lookup then sampleOf (place lookup) (found lookup) :: samplesOf rest
  else samplesOf rest.
Proof. unfold samplesOf. cbn [List.filter]. now destruct (kept lookup). Qed.

Lemma samplesOf_app (l1 l2 : list Lookup) :
  samplesOf (l1 ++ l2) = samplesOf l1 ++ samplesOf l2.
Proof. unfold samplesOf. now rewrite List.filter_app, map_app. Qed.

Lemma lookupChain_app (l1 l2 : list Lookup) :
  forall st st1 st2 : State,
    lookupChain network st l1 st1 ->
    lookupChain network st1 l2 st2 ->
    lookupChain network st (l1 ++ l2) st2.
Proof.
  induction l1 as [|lookup rest IH]; intros st st1 st2 H1 H2.
  - cbn in H1. now subst st1.
  - destruct H1 as (Hbefore & Hrun & Hrest). cbn [app lookupChain].
    split; [exact Hbefore|]. split; [exact Hrun|].
    exact (IH _ _ _ Hrest H2).
Qed.

(** The inner loop: one lookup per turn, each from the state the turn
    before left; the samples pushed are those of the turns that are kept. *)
Lemma innerLoop_trace (i : nat) (start end_ : Waypoint) (d : R)
    (cum : Number) (steps : list nat) :
  forall (samples : list Sample) (st : State),
    exists lookups st',
      forEach steps
        (sampleStep network i start end_ (Num d) (stepCount d) cum)
        samples st =
      (Normal (samples ++ samplesOf lookups), st') /\
      lookupChain network st lookups st' /\
      map (fun lookup => (place lookup, kept lookup)) lookups =
      map (fun step =>
             (placementAt start end_ d cum step, negb (isSkipped i step)))
          steps.
Proof.
  induction steps as [|step rest IH]; intros samples st.
  - exists [], st. cbn [forEach]. unfold ret, samplesOf. cbn.
    rewrite app_nil_r. repeat split.
  - destruct (sampleStep_run i start end_ d cum samples step st)
      as (ground & st1 & Hget & Hstep).
    cbn [forEach]. unfold bind at 1. rewrite Hstep.
    destruct (IH (if isSkipped i step then samples
                  else samples ++
                       [sampleOf (placementAt start end_ d cum step) ground])
                 st1) as (lookups & st2 & Hrest & Hchain & Hturns).
    exists ({| place := placementAt start end_ d cum step;
               kept := negb (isSkipped i step);
               stateBefore := st; found := ground; stateAfter := st1 |}
            :: lookups), st2.
    rewrite Hrest, samplesOf_cons. cbn [kept place found].
    split; [|split].
    + destruct (isSkipped i step); cbn [negb]; [reflexivity|].
      now rewrite <- app_assoc.
    + cbn [lookupChain stateBefore place found stateAfter].
      split; [reflexivity|]. split; [exact Hget | exact Hchain].
    + cbn [map place kept]. now rewrite Hturns.
Qed.

(** The outer loop: the lookups are those of the turns of the route, in
    order. *)
Lemma sampleSegments_trace (route : list Waypoint) :
  forall (i : nat) (samples : list Sample) (cum : Number) (st : State),
    exists lookups st',
      sampleSegments network i route samples cum st =
      (Normal (samples ++ samplesOf lookups), st') /\
      lookupChain network st lookups st' /\
      map (fun lookup => (place lookup, kept lookup)) lookups =
      routeTurns i route cum.
Proof.
  induction route as [|start rest IH]; intros i samples cum st.
  - exists [], st. cbn. unfold ret, samplesOf. cbn. rewrite app_nil_r.
    repeat split.
  - destruct rest as [|end_ tail].
    + exists [], st. cbn. unfold ret, samplesOf. cbn. rewrite app_nil_r.
      repeat split.
    + rewrite sampleSegments_cons, routeTurns_cons.
      destruct (haversineDistance (latitude start) (longitude start)
                  (latitude end_) (longitude end_)) as [|d].
      * cbn [segmentSteps]. unfold bind at 1, ret at 1.
        replace (addN cum NaN) with NaN by now destruct cum.
        apply IH.
      * cbn [segmentSteps]. unfold bind at 1.
        destruct (innerLoop_trace i start end_ d cum
                    (seq 0 (S (Z.to_nat (stepCount d)))) samples st)
          as (l1 & st1 & Hinner & Hchain1 & Hturns1).
        rewrite Hinner.
        destruct (IH (S i) (samples ++ samplesOf l1) (addN cum (Num d)) st1)
          as (l2 & st2 & Houter & Hchain2 & Hturns2).
        rewrite Houter.
        exists (l1 ++ l2), st2. rewrite samplesOf_app, app_assoc.
        split; [reflexivity|].
        split; [exact (lookupChain_app _ _ _ _ _ Hchain1 Hchain2)|].
        rewrite map_app, Hturns1, Hturns2. reflexivity.
Qed.

(** The turns that are kept are the placements of the route. *)
Lemma routeTurns_kept (route : list Waypoint) :
  forall (i : nat) (cum : Number),
    map fst (List.filter snd (routeTurns i route cum)) =
    routePlacements i route cum.
Proof.
  induction route as [|start rest IH]; intros i cum; [reflexivity|].
  destruct rest as [|end_ tail]; [reflexivity|].
  rewrite routeTurns_cons, routePlacements_cons.
  destruct (haversineDistance (latitude start) (longitude start)
              (latitude end_) (longitude end_)) as [|d]; [apply IH|].
  rewrite List.filter_app, map_app, IH. f_equal.
  unfold segmentTurns. rewrite <- emittedSteps_filter.
  induction (seq 0 (S (Z.to_nat (stepCount d)))) as [|step steps IHs];
    [reflexivity|].
  cbn [map List.filter snd].
  destruct (negb (isSkipped i step)); cbn [map fst]; now rewrite IHs.
Qed.

Lemma placement_samplesOf (lookups : list Lookup) :
  map placement (samplesOf lookups) =
  map fst (List.filter snd
             (map (fun lookup => (place lookup, kept lookup)) lookups)).
Proof.
  unfold samplesOf.
  induction lookups as [|lookup rest IH]; [reflexivity|].
  cbn [map List.filter snd]. destruct (kept lookup); cbn [map fst].
  - rewrite IH. f_equal. now destruct (place lookup).
  - exact IH.
Qed.

(** What every lookup keeps, the whole run keeps: an invariant [I] of the
    state, and a property [Q] of the elevations found. *)
Section Loops.
Variable I : State -> Prop.
Variable Q : option R -> Prop.
Hypothesis lookup_keeps :
  forall lat lon st ground st',
    I st ->
    getElevationFromTile network lat lon st = (Normal ground, st') ->
    I st' /\ Q ground.

Lemma lookupChain_keeps (lookups : list Lookup) :
  forall st st' : State,
    I st ->
    lookupChain network st lookups st' ->
    I st' /\ Forall (fun lookup => Q (found lookup)) lookups.
Proof using lookup_keeps.
  induction lookups as [|lookup rest IH]; intros st st' HI Hchain.
  - cbn in Hchain. subst st'. split; [exact HI | constructor].
  - destruct Hchain as (_ & Hrun & Hrest).
    destruct (lookup_keeps _ _ _ _ _ HI Hrun) as [HI1 HQ].
    destruct (IH _ _ HI1 Hrest) as [HI2 HQs].
    split; [exact HI2 | now constructor].
Qed.

Lemma sampleSegments_run (route : list Waypoint) :
  forall (i : nat) (samples : list Sample) (cum : Number) (st : State),
    I st ->
    exists new st',
      sampleSegments network i route samples cum st =
      (Normal (samples ++ new), st') /\
      map placement new = routePlacements i route cum /\
      Forall (fun s => Q (groundElevation s)) new /\
      I st'.
Proof using lookup_keeps.
  intros i samples cum st HI.
  destruct (sampleSegments_trace route i samples cum st)
    as (lookups & st' & Hrun & Hchain & Hturns).
  destruct (lookupChain_keeps lookups st st' HI Hchain) as [HI' HQ].
  exists (samplesOf lookups), st'. split; [exact Hrun|].
  split; [now rewrite placement_samplesOf, Hturns, routeTurns_kept|].
  split; [|exact HI'].
  unfold samplesOf. apply List.Forall_forall. intros s Hin.
  apply in_map_iff in Hin as (lookup & <- & Hin).
  apply filter_In in Hin as [Hin _].
  rewrite List.Forall_forall in HQ. exact (HQ lookup Hin).
Qed.
End Loops.

Lemma lookupChain_sameDisplay (lookups : list Lookup) (st st' : State) :
  lookupChain network st lookups st' -> sameDisplay st st'.
Proof.
  intros Hchain.
  destruct (lookupChain_keeps (sameDisplay st) (fun _ => True)
              (fun lat lon st0 ground st0' HI Hget =>
                 conj (sameDisplay_trans _ _ _ HI
                         (getElevationFromTile_sameDisplay _ _ _ _ _ Hget))
                      Logic.I)
              lookups st st' (sameDisplay_refl st) Hchain) as [Hsame _].
  exact Hsame.
Qed.

(** The sampler always returns: one sample per placement of the route,
    whatever the network does, and the display is left alone. *)
Lemma sampleElevationAlongRoute_points (route : list Waypoint) (st : State) :
  exists samples st',
    sampleElevationAlongRoute network route st = (Normal samples, st') /\
    map placement samples = routePlacements 0 route 0 /\
    sameDisplay st st'.
Proof.
  destruct (sampleSegments_trace route 0 [] 0 st)
    as (lookups & st' & Hrun & Hchain & Hturns).
  exists (samplesOf lookups), st'. unfold sampleElevationAlongRoute.
  rewrite Hrun. split; [reflexivity|].
  split; [now rewrite placement_samplesOf, Hturns, routeTurns_kept|].
  exact (lookupChain_sameDisplay _ _ _ Hchain).
Qed.

(** When no distance is [NaN] the placements are the points of the route in
    exact arithmetic. *)
Lemma routePlacements_exact (route : list Waypoint) :
  forall (i : nat) (cum : R),
    distancesAreNumbers route ->
    routePlacements i route (Num cum) =
    map exactPlacement (routePoints i route cum).
Proof.
  induction route as [|start rest IH]; intros i cum Hnum; [reflexivity|].
  destruct rest as [|end_ tail]; [reflexivity|].
  destruct Hnum as [Hd Hrest].
  rewrite routePlacements_cons, routePoints_cons.
  rewrite (haversineDistance_number _ _ _ _ Hd).
  fold (segmentLength start end_).
  cbn [addN]. rewrite (IH (S i) _ Hrest), map_app, map_map.
  reflexivity.
Qed.

Lemma sampleElevationAlongRoute_exact (route : list Waypoint) (st : State) :
  distancesAreNumbers route ->
  exists samples st',
    sampleElevationAlongRoute network route st = (Normal samples, st') /\
    map placement samples = map exactPlacement (routePoints 0 route 0) /\
    sameDisplay st st'.
Proof.
  intros Hnum.
  destruct (sampleElevationAlongRoute_points route st)
    as (samples & st' & Hrun & Hplace & Hsame).
  exists samples, st'. split; [exact Hrun|]. split; [|exact Hsame].
  rewrite Hplace. now apply routePlacements_exact.
Qed.
End SamplerFacts.

(** ** The closed form: distances and counts *)

Section RouteFacts.
Local Open Scope R_scope.
Context {engine : JsEngine}.




Lemma stepsOf_positive (start end_ : Waypoint) : (1 <= stepsOf start end_)%nat.
Proof.
  unfold stepsOf. pose proof (stepCount_positive (segmentLength start end_)).
  lia.
Qed.

Lemma stepsOf_real (start end_ : Waypoint) :
  INR (stepsOf start end_) = IZR (stepCount (segmentLength start end_)).
Proof.
  unfold stepsOf. rewrite INR_IZR_INZ, Z2Nat.id; [reflexivity|].
  pose proof (stepCount_positive (segmentLength start end_)). lia.
Qed.


Lemma pointDistance_first (start end_ : Waypoint) (cum : R) :
  pointDistance (pointAt start end_ cum 0) = cum.
Proof. cbn. unfold Rdiv. ring. Qed.

Lemma pointDistance_final (start end_ : Waypoint) (cum : R) :
  pointDistance (pointAt start end_ cum (stepsOf start end_)) =
  cum + segmentLength start end_.
Proof.
  cbn. rewrite stepsOf_real.
  pose proof (stepCount_real_positive (segmentLength start end_)).
  field. lra.
Qed.



Lemma last_map_seq {A} (f : nat -> A) (a n : nat) :
  last (map f (seq a (S n))) = Some (f (a + n)%nat).
Proof.
  rewrite seq_S, map_app. cbn [map]. apply last_snoc.
Qed.



End RouteFacts.
(** ** The distance of the scenario's route *)

Section ScenarioDistance.
Local Open Scope R_scope.
Context {engine : JsEngine}.



(** The haversine term of the scenario's two waypoints is tiny, and the
    cosines of their latitudes are positive. *)
Lemma scenario_term_small :
  0 <= haversine_a 35 139 35.001 139.001 <= 1 / 100000000 /\
  0 < cos (toRad 35) * cos (toRad 35.001).
Proof.
  pose proof PI_RGT_0 as Hpi. pose proof PI_4 as Hpi4.
  pose proof PI2_1 as Hpi2.
  assert (0 < cos (toRad 35)) as Hc1
    by (apply cos_gt_0; unfold toRad; lra).
  assert (0 < cos (toRad 35.001)) as Hc2
    by (apply cos_gt_0; unfold toRad; lra).
  split; [|nra].
  split; [apply haversine_a_range|].
  unfold haversine_a.
  assert (forall x, 0 < x < 2 / 100000 -> 0 < sin x < 2 / 100000) as Hsmall.
  { intros x [Hx0 Hx1]. split; [apply sin_gt_0; lra|].
    pose proof (sin_lt_x x Hx0). lra. }
  destruct (Hsmall (toRad (35.001 - 35) / 2)) as [Hs1 Hs1'];
    [unfold toRad; lra|].
  destruct (Hsmall (toRad (139.001 - 139) / 2)) as [Hs2 Hs2'];
    [unfold toRad; lra|].
  pose proof (COS_bound (toRad 35)) as [_ Hb1].
  pose proof (COS_bound (toRad 35.001)) as [_ Hb2].
  assert (cos (toRad 35) * cos (toRad 35.001) <= 1) by nra.
  assert (sin (toRad (35.001 - 35) / 2) * sin (toRad (35.001 - 35) / 2)
          <= 4 / 10000000000) by nra.
  assert (sin (toRad (139.001 - 139) / 2) * sin (toRad (139.001 - 139) / 2)
          <= 4 / 10000000000) by nra.
  assert (0 <= sin (toRad (139.001 - 139) / 2) *
               sin (toRad (139.001 - 139) / 2)) by nra.
  assert (cos (toRad 35) * cos (toRad 35.001) *
          sin (toRad (139.001 - 139) / 2) *
          sin (toRad (139.001 - 139) / 2) <= 4 / 10000000000) by nra.
  lra.
Qed.

(** The two waypoints of the scenario are too close for the haversine term
    to round out of range, on any engine. *)
Lemma scenario_distance_is_number :
  haversineDistance 35 139 35.001 139.001 =
  Num (haversineMeters 35 139 35.001 139.001).
Proof.
  apply haversineDistance_number. unfold haversineDistance.
  destruct (distanceIsNaN 35 139 35.001 139.001) eqn:Hnan; [|discriminate].
  exfalso. apply distanceIsNaN_where in Hnan.
  destruct scenario_term_small as [[_ Hsmall] Hcos].
  destruct Hnan; lra.
Qed.




End ScenarioDistance.
(** ** The sample sequence *)

Section SamplerTheorems.
Local Open Scope R_scope.
Context {engine : JsEngine}.
Variable network : nat -> TileKey -> option Response.

Lemma distance_of_placement (samples : list Sample) :
  map distance samples = map placeDistance (map placement samples).
Proof. rewrite map_map. reflexivity. Qed.

Lemma distance_of_exactPlacement (points : list Point) :
  map placeDistance (map exactPlacement points) =
  map Num (map pointDistance points).
Proof. rewrite !map_map. reflexivity. Qed.






Lemma failed_lookup_keeps_cache_empty :
  (forall n key, tileUnavailable (network n key)) ->
  forall (lat lon : R) (st : State) (ground : option R) (st' : State),
    tileCache st = ∅ ->
    getElevationFromTile network lat lon st = (Normal ground, st') ->
    tileCache st' = ∅ /\ ground = None.
Proof.
  intros Hdown lat lon st ground st' Hempty.
  rewrite getElevationFromTile_run, fetchElevationTile_miss
    by (rewrite Hempty; apply lookup_empty).
  specialize (Hdown (length (requests st))
                (Z.of_nat TILE_ZOOM, fst (coveringTile lat lon),
                 snd (coveringTile lat lon))).
  unfold tileUnavailable in Hdown.
  destruct (tileOutcome _) as [img | e]; [contradiction|].
  intros [= <- <-]. split; [cbn; exact Hempty | reflexivity].
Qed.

Lemma sampling_without_tiles (route : list Waypoint) (st : State) :
  (forall n key, tileUnavailable (network n key)) ->
  tileCache st = ∅ ->
  exists samples st',
    sampleElevationAlongRoute network route st = (Normal samples, st') /\
    map placement samples = routePlacements 0 route 0 /\
    Forall (fun s => groundElevation s = None) samples.
Proof.
  intros Hdown Hempty.
  destruct (sampleSegments_run network
              (fun st => tileCache st = ∅) (fun ground => ground = None)
              (fun lat lon st0 ground st0' HI Hget =>
                 failed_lookup_keeps_cache_empty Hdown lat lon st0 ground st0'
                   HI Hget)
              route 0 [] 0 st Hempty)
    as (new & st' & Hrun & Hplace & Hnull & _).
  exists new, st'. unfold sampleElevationAlongRoute. rewrite Hrun.
  now repeat split.
Qed.

Lemma lookup_follows_fetch (lat lon : R) (st : State) (ground : option R)
    (st' : State) :
  getElevationFromTile network lat lon st = (Normal ground, st') ->
  lookupFollowsFetch network lat lon st ground st'.
Proof.
  rewrite getElevationFromTile_run. unfold lookupFollowsFetch. cbv zeta.
  destruct (fetchElevationTile _ _ _ _ st) as [[tileData | e] st1].
  - intros [= <- <-]. split; [discriminate|].
    intros ? ? [= <- <-]. split; [reflexivity|]. split; [reflexivity|].
    intros r g b Hr Hg Hb Hnone.
    unfold pixelElevation. fold (pixelOffset (tileCoordinateX TILE_ZOOM lon)).
    fold (pixelOffset (tileCoordinateY TILE_ZOOM lat)).
    fold (pixelIndex lat lon). now rewrite Hr, Hg, Hb.
  - intros [= <- <-]. split; [|discriminate].
    now intros ? ? [= <- <-].
Qed.

Lemma lookupChain_each (lookups : list Lookup) :
  forall st st' : State,
    lookupChain network st lookups st' ->
    Forall (fun lookup =>
              getElevationFromTile network (placeLat (place lookup))
                (placeLon (place lookup)) (stateBefore lookup) =
              (Normal (found lookup), stateAfter lookup)) lookups.
Proof.
  induction lookups as [|lookup rest IH]; intros st st' Hchain;
    [constructor|].
  destruct Hchain as (Hbefore & Hrun & Hrest).
  constructor; [now rewrite Hbefore | exact (IH _ _ Hrest)].
Qed.

(** C6.  At the per-sample boundary, [getElevationFromTile] never throws;
    between the latitudes of -89 and 89 degrees its result follows the fetch
    of its tile: when the fetch throws, the elevation is [null] and the
    error is logged as a warning; when the pixel decodes to no data, the
    elevation is [null].  The sampler therefore always returns.  Its run is
    a chain of lookups, one for every turn of the route in order, each
    starting from the state that the lookup before it left; the samples are
    those of the turns that are kept, each with the elevation that its own
    lookup found, and a lookup whose fetch throws finds [null] whatever the
    lookups before it found.  When no tile can be had at all, the sampler
    still returns every sample, each with a [null] ground elevation. *)
Theorem sampling_survives_lookup_failures :
  (forall (lat lon : R) (st : State),
     exists ground st',
       getElevationFromTile network lat lon st = (Normal ground, st') /\
       (-89 <= lat <= 89 ->
        lookupFollowsFetch network lat lon st ground st')) /\
  (forall (route : list Waypoint) (st : State),
     exists samples st' lookups,
       sampleElevationAlongRoute network route st = (Normal samples, st') /\
       lookupChain network st lookups st' /\
       map (fun lookup => (place lookup, kept lookup)) lookups =
       routeTurns 0 route 0 /\
       samples = samplesOf lookups /\
       map placement samples = routePlacements 0 route 0 /\
       Forall (fun lookup =>
                 -89 <= placeLat (place lookup) <= 89 ->
                 lookupFollowsFetch network (placeLat (place lookup))
                   (placeLon (place lookup)) (stateBefore lookup)
                   (found lookup) (stateAfter lookup)) lookups) /\
  (forall (route : list Waypoint) (st : State),
     (forall n key, tileUnavailable (network n key)) ->
     tileCache st = ∅ ->
     exists samples st',
       sampleElevationAlongRoute network route st = (Normal samples, st') /\
       map placement samples = routePlacements 0 route 0 /\
       Forall (fun s => groundElevation s = None) samples).
Proof.
  split; [|split].
  - intros lat lon st.
    destruct (getElevationFromTile_total network lat lon st)
      as (ground & st' & Hrun & _).
    exists ground, st'. split; [exact Hrun|].
    intros _. now apply lookup_follows_fetch.
  - intros route st.
    destruct (sampleSegments_trace network route 0 [] 0 st)
      as (lookups & st' & Hrun & Hchain & Hturns).
    exists (samplesOf lookups), st', lookups.
    unfold sampleElevationAlongRoute. rewrite Hrun.
    split; [reflexivity|]. split; [exact Hchain|]. split; [exact Hturns|].
    split; [reflexivity|].
    split; [now rewrite placement_samplesOf, Hturns, routeTurns_kept|].
    eapply Forall_impl; [exact (lookupChain_each _ _ _ Hchain)|].
    intros lookup Hget _. now apply lookup_follows_fetch.
  - intros route st. apply sampling_without_tiles.
Qed.
End SamplerTheorems.

(** ** The refresh *)

Section RefreshTheorems.
Context {engine : JsEngine}.
Variable network : nat -> TileKey -> option Response.


Lemma updateElevationProfile_begin_run (st : State) :
  updateElevationProfile_begin st =
  if (length (waypoints st) <? 2)%nat then
    (Normal None,
     set_canvas (fun drawn => drawn ++ [Placeholder msgInsufficient])
       (started st))
  else (Normal (Some (nextToken (profileToken st))), started st).
Proof.
  unfold updateElevationProfile_begin, incrementProfileToken,
    drawProfilePlaceholder.
  unfold_action. cbn [waypoints set_canvas set_profileToken].
  destruct (length (waypoints st) <? 2)%nat; reflexivity.
Qed.

(** The function run in one piece is its start, the sampling, and its
    resumption. *)
Lemma updateElevationProfile_cut (st : State) :
  updateElevationProfile network st =
  match updateElevationProfile_begin st with
  | (Normal (Some token), st1) =>
      let (outcome, st2) :=
        sampleElevationAlongRoute network (waypoints st1) st1 in
      updateElevationProfile_resume token outcome st2
  | (Normal None, st1) => (Normal tt, st1)
  | (Thrown e, st1) => (Thrown e, st1)
  end.
Proof.
  rewrite updateElevationProfile_begin_run.
  unfold updateElevationProfile, updateElevationProfile_resume,
    incrementProfileToken, drawProfilePlaceholder.
  unfold_action. cbn [waypoints set_canvas set_profileToken].
  destruct (length (waypoints st) <? 2)%nat; [reflexivity|].
  unfold started. cbn [waypoints set_canvas set_profileToken profileToken].
  destruct (sampleElevationAlongRoute network (waypoints st) _)
    as [[samples | e] st2]; reflexivity.
Qed.

Lemma resume_superseded (token : Z) (outcome : Completion (list Sample))
    (st : State) :
  token <> profileToken st ->
  updateElevationProfile_resume token outcome st =
  (Normal tt,
   match outcome with
   | Normal _ => st
   | Thrown e => set_console (fun log => log ++ [ConsoleError e]) st
   end).
Proof.
  intros Hstale.
  unfold updateElevationProfile_resume, unlessSuperseded, console_error.
  destruct outcome as [samples | e]; unfold_action;
    cbn [profileToken set_console];
    destruct (Z.eqb_spec token (profileToken st)); try contradiction;
    reflexivity.
Qed.

Lemma resume_current (outcome : Completion (list Sample)) (st : State) :
  updateElevationProfile_resume (profileToken st) outcome st =
  (Normal tt, settled outcome st).
Proof.
  unfold updateElevationProfile_resume, unlessSuperseded, console_error,
    drawElevationProfile, drawProfilePlaceholder, settled, tooManyArguments.
  destruct outcome as [samples | e]; unfold_action;
    cbn [profileToken set_console]; rewrite Z.eqb_refl; cbn [negb].
  - destruct (argumentLimit <? length (omap groundElevation samples) + 1)%nat;
      cbn [orb].
    + cbn [profileToken set_canvas set_console]. now rewrite Z.eqb_refl.
    + destruct (argumentLimit <?
                length (omap groundElevation samples) +
                length (map plannedAltitude samples) + 1)%nat;
        [|reflexivity].
      cbn [profileToken set_canvas set_console]. now rewrite Z.eqb_refl.
  - reflexivity.
Qed.





(** C2.  Resumed with a token that is no longer the live counter, the
    refresh draws nothing, neither the chart nor the failure placeholder,
    whether the sampling returned or threw: it completes normally and
    leaves the canvas, the counter, the route, the cache and the request
    log as they were.  When the sampling returned, the state is left
    untouched; when it threw, the only trace is the [console.error] that
    precedes the comparison of the tokens. *)
Theorem superseded_refresh_is_dropped (token : Z)
    (outcome : Completion (list Sample)) (st : State) :
  token <> profileToken st ->
  exists st',
    updateElevationProfile_resume token outcome st = (Normal tt, st') /\
    canvas st' = canvas st /\
    profileToken st' = profileToken st /\
    waypoints st' = waypoints st /\
    tileCache st' = tileCache st /\
    requests st' = requests st /\
    match outcome with
    | Normal _ => st' = st
    | Thrown e => st' = set_console (fun log => log ++ [ConsoleError e]) st
    end.
Proof.
  intros Hstale. rewrite (resume_superseded _ _ _ Hstale).
  eexists. split; [reflexivity|].
  destruct outcome; now repeat split.
Qed.

(** C7.  On a route of fewer than two waypoints the refresh returns before
    its [await]: it draws the computing placeholder and then the
    insufficient-waypoints placeholder, never calls the sampler, requests no
    tile and leaves the cache and the console as they were. *)
Theorem short_route_draws_placeholder_only (st : State) :
  (length (waypoints st) < 2)%nat ->
  exists st',
    updateElevationProfile network st = (Normal tt, st') /\
    updateElevationProfile_begin st = (Normal None, st') /\
    canvas st' =
      canvas st ++ [Placeholder msgComputing; Placeholder msgInsufficient] /\
    requests st' = requests st /\
    tileCache st' = tileCache st /\
    console st' = console st.
Proof.
  intros Hlen.
  rewrite updateElevationProfile_cut, updateElevationProfile_begin_run.
  replace (length (waypoints st) <? 2)%nat with true
    by (symmetry; apply Nat.ltb_lt; exact Hlen).
  eexists. split; [reflexivity|]. split; [reflexivity|].
  cbn. rewrite <- app_assoc. now repeat split.
Qed.
End RefreshTheorems.

(** ** Supersession *)

Section Supersession.
Context {engine : JsEngine}.

Lemma nextToken_increases (n : Z) : (n < 2 ^ 53)%Z -> (n < nextToken n)%Z.
Proof.
  intros Hn. unfold nextToken.
  destruct (Z.ltb_spec n (2 ^ 53)); lia.
Qed.

Lemma nextToken_monotone (n : Z) : (n <= nextToken n)%Z.
Proof. unfold nextToken. destruct (Z.ltb_spec n (2 ^ 53)); lia. Qed.

(** A newer invocation supersedes every token captured before it, as long
    as the counter can still count. *)
Lemma newer_invocation_supersedes (token : Z) (st : State) :
  (token <= profileToken st)%Z ->
  (profileToken st < 2 ^ 53)%Z ->
  token <> profileToken (snd (updateElevationProfile_begin st)).
Proof.
  intros Hold Hroom. rewrite updateElevationProfile_begin_run.
  pose proof (nextToken_increases _ Hroom).
  destruct (length (waypoints st) <? 2)%nat; cbn; lia.
Qed.

(** The token an invocation captures is the live counter until the next
    invocation begins. *)
Lemma captured_token_is_live (st st' : State) (token : Z) :
  updateElevationProfile_begin st = (Normal (Some token), st') ->
  token = profileToken st'.
Proof.
  rewrite updateElevationProfile_begin_run.
  destruct (length (waypoints st) <? 2)%nat; [discriminate|].
  now intros [= <- <-].
Qed.

(** Among the other handlers: the settling of a superseded invocation
    changes nothing on the canvas. *)
Lemma step_settle_superseded (sys : System) (token : Z)
    (outcome : Completion (list Sample)) :
  token <> profileToken (fst sys) ->
  canvas (fst (step sys (SamplingSettled token outcome))) = canvas (fst sys).
Proof.
  intros Hstale. destruct sys as [st pending]. cbn [step fst] in *.
  destruct (bool_decide (token ∈ pending)); [|reflexivity].
  rewrite (resume_superseded _ _ _ Hstale). cbn [fst snd].
  now destruct outcome.
Qed.

(** The counter never decreases, and the canvas is only ever extended. *)
Lemma step_counter_monotone (sys : System) (ev : Event) :
  (profileToken (fst sys) <= profileToken (fst (step sys ev)))%Z.
Proof.
  destruct sys as [st pending], ev as [route | cache fetched warnings | token outcome];
    cbn [step fst].
  - rewrite updateElevationProfile_begin_run.
    cbn [waypoints set_waypoints].
    pose proof (nextToken_monotone (profileToken st)).
    destruct (length route <? 2)%nat; cbn; lia.
  - cbn. lia.
  - destruct (bool_decide (token ∈ pending)); [|cbn; lia].
    destruct (Z.eq_dec token (profileToken st)) as [-> | Hstale].
    + rewrite resume_current. unfold settled.
      destruct outcome; [destruct (tooManyArguments _)|]; cbn; lia.
    + rewrite (resume_superseded _ _ _ Hstale). destruct outcome; cbn; lia.
Qed.

Lemma runEvents_counter_monotone (events : list Event) :
  forall sys : System,
    (profileToken (fst sys) <= profileToken (fst (runEvents events sys)))%Z.
Proof.
  unfold runEvents.
  induction events as [|ev rest IH]; intros sys; cbn [fold_left]; [lia|].
  pose proof (step_counter_monotone sys ev). specialize (IH (step sys ev)).
  lia.
Qed.

Lemma route_edit_increments (sys : System) (route : list Waypoint) :
  profileToken (fst (step sys (RouteEdited route))) =
  nextToken (profileToken (fst sys)).
Proof.
  destruct sys as [st pending]. cbn [step fst].
  rewrite updateElevationProfile_begin_run. cbn [waypoints set_waypoints].
  destruct (length route <? 2)%nat; reflexivity.
Qed.

(** X2.  In any run of the editor: once a route edit has started a newer refresh
    (the counter still having room to count), an invocation that captured
    its token before that edit changes nothing on the canvas when it
    settles, however many handlers ran before and after the edit. *)
Theorem superseded_invocation_never_draws (sys : System)
    (before after : list Event) (route : list Waypoint) (token : Z)
    (outcome : Completion (list Sample)) :
  (token <= profileToken (fst sys))%Z ->
  (profileToken (fst (runEvents before sys)) < 2 ^ 53)%Z ->
  let later :=
    runEvents after (step (runEvents before sys) (RouteEdited route)) in
  canvas (fst (step later (SamplingSettled token outcome))) =
  canvas (fst later).
Proof.
  intros Hcaptured Hroom later. apply step_settle_superseded.
  pose proof (runEvents_counter_monotone before sys).
  pose proof (runEvents_counter_monotone after
                (step (runEvents before sys) (RouteEdited route))) as Hafter.
  rewrite route_edit_increments in Hafter.
  pose proof (nextToken_increases _ Hroom).
  subst later. lia.
Qed.
End Supersession.

(** ** Scenarios

    The scenarios run on [scenarioEngine], except where an engine is
    named. *)

Section Scenarios.
Local Open Scope R_scope.
#[local] Existing Instance scenarioEngine.

Lemma scenario_distances_are_numbers : distancesAreNumbers scenarioRoute.
Proof. cbn. split; [discriminate | exact Logic.I]. Qed.




Lemma superseded_refresh_is_dropped_witness :
  exists st',
    updateElevationProfile_resume 1 (Thrown FetchRejected)
      (set_profileToken (fun _ => 2%Z) scenarioState) = (Normal tt, st') /\
    canvas st' = canvas (set_profileToken (fun _ => 2%Z) scenarioState) /\
    profileToken st' =
      profileToken (set_profileToken (fun _ => 2%Z) scenarioState) /\
    waypoints st' = waypoints (set_profileToken (fun _ => 2%Z) scenarioState) /\
    tileCache st' = tileCache (set_profileToken (fun _ => 2%Z) scenarioState) /\
    requests st' = requests (set_profileToken (fun _ => 2%Z) scenarioState) /\
    st' = set_console (fun log => log ++ [ConsoleError FetchRejected])
            (set_profileToken (fun _ => 2%Z) scenarioState).
Proof.
  apply (superseded_refresh_is_dropped 1 (Thrown FetchRejected)
           (set_profileToken (fun _ => 2%Z) scenarioState)).
  cbn. lia.
Defined.

Lemma superseded_invocation_never_draws_witness :
  canvas (fst (step (step scenarioSystem (RouteEdited (firstn 1 scenarioRoute)))
                    (SamplingSettled 1 (Normal [])))) =
  canvas (fst (step scenarioSystem (RouteEdited (firstn 1 scenarioRoute)))).
Proof.
  apply (superseded_invocation_never_draws scenarioSystem [] []
           (firstn 1 scenarioRoute) 1 (Normal [])).
  - vm_compute. discriminate.
  - vm_compute. reflexivity.
Defined.




Lemma sampling_survives_lookup_failures_witness :
  (exists ground st',
     getElevationFromTile offline 35 139 initialState = (Normal ground, st') /\
     lookupFollowsFetch offline 35 139 initialState ground st') /\
  (exists samples st',
     sampleElevationAlongRoute offline scenarioRoute initialState =
       (Normal samples, st') /\
     map placement samples = routePlacements 0 scenarioRoute 0 /\
     Forall (fun s => groundElevation s = None) samples).
Proof.
  split.
  - destruct (proj1 (sampling_survives_lookup_failures offline)
                35 139 initialState) as (ground & st' & Hrun & Hfollows).
    exists ground, st'. split; [exact Hrun|]. apply Hfollows. lra.
  - apply (proj2 (proj2 (sampling_survives_lookup_failures offline))
             scenarioRoute initialState).
    + exact (fun _ _ => Logic.I).
    + reflexivity.
Defined.

Lemma short_route_draws_placeholder_only_witness :
  exists st',
    updateElevationProfile offline
      (set_waypoints (fun _ => firstn 1 scenarioRoute) initialState)
      = (Normal tt, st') /\
    updateElevationProfile_begin
      (set_waypoints (fun _ => firstn 1 scenarioRoute) initialState)
      = (Normal None, st') /\
    canvas st' = [Placeholder msgComputing; Placeholder msgInsufficient] /\
    requests st' = [] /\
    tileCache st' = ∅ /\
    console st' = [].
Proof.
  apply (short_route_draws_placeholder_only offline
           (set_waypoints (fun _ => firstn 1 scenarioRoute) initialState)).
  cbn. lia.
Defined.


Lemma fetchElevationTile_caches_successes_only_witness :
  (tileCache initialState !! scenarioTile = None /\
   tileCache afterFailedRequest = tileCache initialState /\
   requests afterFailedRequest = requests initialState ++ [scenarioTile] /\
   forall r st'',
     fetchElevationTile flaky 14 14518 6451 afterFailedRequest = (r, st'') ->
     requests st'' = requests afterFailedRequest ++ [scenarioTile]) /\
  (exists st',
     fetchElevationTile flaky 14 14518 6451 afterFailedRequest =
       (Normal [1; 134; 160; 255]%Z, st') /\
     tileCache st' =
       <[scenarioTile := [1; 134; 160; 255]%Z]> (tileCache afterFailedRequest) /\
     tileCache st' !! scenarioTile = Some [1; 134; 160; 255]%Z /\
     requests st' = requests afterFailedRequest ++ [scenarioTile]).
Proof.
  split.
  - apply (proj1 (fetchElevationTile_caches_successes_only flaky 14 14518 6451
                    initialState) FetchRejected afterFailedRequest).
    reflexivity.
  - apply (proj1 (proj2 (proj2 (fetchElevationTile_caches_successes_only flaky
                                  14 14518 6451 afterFailedRequest)))
             {| status := 200; image := Some [1; 134; 160; 255]%Z |}
             [1; 134; 160; 255]%Z); reflexivity.
Defined.

End Scenarios.

(** ** Further properties of the specification *)

Section FurtherProperties.
Local Open Scope R_scope.
Context {engine : JsEngine}.



Lemma Rleb_true (x y : R) : Rleb x y = true <-> x <= y.
Proof. unfold Rleb. destruct (Rle_dec x y); split; intros; congruence. Qed.

Lemma Rleb_false (x y : R) : Rleb x y = false <-> y < x.
Proof.
  unfold Rleb. destruct (Rle_dec x y); split; intros; try congruence; lra.
Qed.

(** X3.  [chooseNiceStep] over exact arithmetic: the result is one of the eight
    candidates; it is the least candidate that is at least [rawStep] when
    there is one, and [2000] otherwise. *)
Theorem chooseNiceStep_least_candidate (rawStep : R) :
  In (chooseNiceStep rawStep) [10; 20; 50; 100; 200; 500; 1000; 2000] /\
  (rawStep <= 2000 ->
   rawStep <= chooseNiceStep rawStep /\
   forall candidate,
     In candidate [10; 20; 50; 100; 200; 500; 1000; 2000] ->
     rawStep <= candidate -> chooseNiceStep rawStep <= candidate) /\
  (2000 < rawStep -> chooseNiceStep rawStep = 2000).
Proof.
  unfold chooseNiceStep, niceSteps.
  cbn [map firstAtLeast js_leb js_lit R_JsNumber].
  repeat match goal with
         | |- context [Rleb rawStep ?c] =>
             let H := fresh "H" in
             destruct (Rleb rawStep c) eqn:H;
             [apply Rleb_true in H | apply Rleb_false in H]
         end;
    (split; [cbn; tauto|]);
    (split; [intros Hle; split; [lra|];
             intros candidate Hin; cbn in Hin;
             repeat (destruct Hin as [<- | Hin]; [lra|]); contradiction
            | intros; lra]).
Qed.

Lemma chooseNiceStep_least_candidate_witness :
  30 <= chooseNiceStep 30 /\
  forall candidate,
    In candidate [10; 20; 50; 100; 200; 500; 1000; 2000] ->
    30 <= candidate -> chooseNiceStep 30 <= candidate.
Proof.
  apply (proj1 (proj2 (chooseNiceStep_least_candidate 30))). lra.
Defined.

(** X4.  Consecutive samples of a segment are at most [SAMPLE_SPACING_METERS]
    apart along the route. *)
Theorem samples_at_most_80m_apart (start end_ : Waypoint) (cum : R)
    (step : nat) :
  pointDistance (pointAt start end_ cum (S step)) -
  pointDistance (pointAt start end_ cum step) <= 80.
Proof.
  cbn [pointDistance pointAt]. rewrite S_INR.
  pose proof (stepCount_spacing _ (segmentLength_nonneg start end_)) as Hsp.
  pose proof (stepCount_real_positive (segmentLength start end_)) as Hpos.
  unfold SAMPLE_SPACING_METERS in Hsp.
  replace (cum + segmentLength start end_ *
             ((INR step + 1) / IZR (stepCount (segmentLength start end_))) -
           (cum + segmentLength start end_ *
              (INR step / IZR (stepCount (segmentLength start end_)))))
    with (segmentLength start end_ /
          IZR (stepCount (segmentLength start end_)))
    by (field; lra).
  exact Hsp.
Qed.

Lemma head_map {A B} (f : A -> B) (l : list A) :
  head (map f l) = option_map f (head l).
Proof. now destruct l. Qed.

Lemma last_map {A B} (f : A -> B) (l : list A) :
  last (map f l) = option_map f (last l).
Proof.
  induction l as [|x [|y l] IH]; [reflexivity | reflexivity |].
  exact IH.
Qed.

(** X5.  The scenario of the specification: the route from (35.0, 139.0) at
    100 m to (35.001, 139.001) at 150 m yields at least two samples; the
    first is at distance 0 with planned altitude 100, the last at the
    haversine distance of the two waypoints, which is a number on every
    engine, with planned altitude 150, and every planned altitude is
    [100 + 50 * t]. *)
Theorem scenario_route_samples (network : nat -> TileKey -> option Response)
    (st : State) :
  exists samples st',
    sampleElevationAlongRoute network scenarioRoute st = (Normal samples, st') /\
    (2 <= length samples)%nat /\
    head (map distance samples) = Some (Num 0) /\
    last (map distance samples) =
      Some (haversineDistance 35 139 35.001 139.001) /\
    haversineDistance 35 139 35.001 139.001 =
      Num (haversineMeters 35 139 35.001 139.001) /\
    head (map plannedAltitude samples) = Some 100 /\
    last (map plannedAltitude samples) = Some 150 /\
    Forall (fun s => exists t, 0 <= t <= 1 /\ plannedAltitude s = 100 + 50 * t)
           samples.
Proof.
  assert (distancesAreNumbers scenarioRoute) as Hnum.
  { cbn. rewrite scenario_distance_is_number.
    split; [discriminate | exact Logic.I]. }
  destruct (sampleElevationAlongRoute_exact network scenarioRoute st Hnum)
    as (samples & st' & Hrun & Hplace & _).
  exists samples, st'. split; [exact Hrun|].
  unfold scenarioRoute in Hplace. rewrite routePoints_cons in Hplace.
  cbn [routePoints emittedSteps Nat.eqb] in Hplace.
  rewrite app_nil_r in Hplace.
  set (start := {| id := "wp-1"; type := takeoff; latitude := 35;
                   longitude := 139; altitude := 100; note := "" |}) in *.
  set (end_ := {| id := "wp-2"; type := landing; latitude := 35.001;
                  longitude := 139.001; altitude := 150; note := "" |}) in *.
  fold (stepsOf start end_) in Hplace.
  pose proof (stepsOf_positive start end_) as Hsteps.
  pose proof (stepCount_real_positive (segmentLength start end_)) as Hpos.
  assert (map distance samples =
          map Num (map (fun x => pointDistance (pointAt start end_ 0 x))
                       (seq 0 (S (stepsOf start end_))))) as Hdist
    by (rewrite distance_of_placement, Hplace, distance_of_exactPlacement,
          !map_map; reflexivity).
  assert (map plannedAltitude samples =
          map (fun x => pointAltitude (pointAt start end_ 0 x))
              (seq 0 (S (stepsOf start end_)))) as Halt.
  { replace (map plannedAltitude samples)
      with (map placeAltitude (map placement samples))
      by (rewrite map_map; reflexivity).
    rewrite Hplace, !map_map. reflexivity. }
  split; [|split; [|split; [|split; [|split; [|split]]]]].
  - rewrite <- (length_map placement), Hplace, !length_map, length_seq. lia.
  - rewrite Hdist, head_map. cbn [seq map head option_map].
    now rewrite pointDistance_first.
  - rewrite Hdist, last_map,
      (last_map_seq (fun x => pointDistance (pointAt start end_ 0 x))).
    cbn [Nat.add option_map]. rewrite pointDistance_final.
    rewrite scenario_distance_is_number. f_equal. f_equal.
    unfold segmentLength. cbn [latitude longitude start end_]. ring.
  - apply scenario_distance_is_number.
  - rewrite Halt. cbn [seq map head pointAltitude pointAt altitude start end_ INR].
    f_equal. field. lra.
  - rewrite Halt, (last_map_seq (fun x => pointAltitude (pointAt start end_ 0 x))).
    cbn [Nat.add pointAltitude pointAt altitude start end_].
    rewrite stepsOf_real. f_equal. field. lra.
  - apply List.Forall_forall. intros s Hin.
    assert (In (plannedAltitude s) (map plannedAltitude samples)) as Hg
      by (apply in_map; exact Hin).
    rewrite Halt in Hg. apply in_map_iff in Hg as (x & Hx & Hseq).
    apply in_seq in Hseq.
    exists (INR x / IZR (stepCount (segmentLength start end_))).
    split.
    + rewrite <- stepsOf_real. split.
      * unfold Rdiv. apply Rle_mult_inv_pos;
          [apply pos_INR | rewrite stepsOf_real; exact Hpos].
      * apply (Rmult_le_reg_r (INR (stepsOf start end_)));
          [rewrite stepsOf_real; exact Hpos|].
        unfold Rdiv. rewrite Rmult_assoc, Rinv_l, Rmult_1_r, Rmult_1_l
          by (rewrite stepsOf_real; lra).
        apply le_INR. lia.
    + rewrite <- Hx. cbn [pointAltitude pointAt altitude start end_]. ring.
Qed.
End FurtherProperties.

(** ** Decoded values, distances and sample positions *)

Section ValueFacts.
Local Open Scope R_scope.
Context {engine : JsEngine}.

Lemma Reqb_IZR (m n : Z) : Reqb (IZR m) (IZR n) = (m =? n)%Z.
Proof.
  destruct (Z.eqb_spec m n) as [-> | Hne].
  - now apply Reqb_true.
  - apply Reqb_false. intros H. now apply eq_IZR in H.
Qed.

Lemma decodeElevation_integers (r g b : Z) :
  decodeElevation (IZR r) (IZR g) (IZR b) =
  if ((r * 65536 + g * 256 + b =? 0) ||
      (r * 65536 + g * 256 + b =? 16777215))%Z
  then None
  else Some (IZR (r * 65536 + g * 256 + b) / 10 - 10000).
Proof.
  rewrite decodeElevation_real.
  replace (IZR r * 65536 + IZR g * 256 + IZR b)
    with (IZR (r * 65536 + g * 256 + b))
    by (rewrite !plus_IZR, !mult_IZR; reflexivity).
  now rewrite !Reqb_IZR.
Qed.

(** X6.  On the bytes of a pixel, over exact arithmetic: the decoded
    elevation is [null] for the pixels (0,0,0) and (255,255,255) only; every
    other pixel decodes to a multiple of 0.1 m between -9999.9 m and
    1667721.4 m; and two pixels that decode to the same elevation are the
    same pixel. *)
Theorem decodeElevation_on_bytes (r g b r' g' b' : Z) :
  isByte r -> isByte g -> isByte b ->
  isByte r' -> isByte g' -> isByte b' ->
  (decodeElevation (IZR r) (IZR g) (IZR b) = None <->
   (r, g, b) = (0, 0, 0)%Z \/ (r, g, b) = (255, 255, 255)%Z) /\
  (forall e,
     decodeElevation (IZR r) (IZR g) (IZR b) = Some e ->
     e = IZR (r * 65536 + g * 256 + b) / 10 - 10000 /\
     -9999.9 <= e <= 1667721.4) /\
  (forall e,
     decodeElevation (IZR r) (IZR g) (IZR b) = Some e ->
     decodeElevation (IZR r') (IZR g') (IZR b') = Some e ->
     (r, g, b) = (r', g', b')).
Proof.
  unfold isByte. intros Hr Hg Hb Hr' Hg' Hb'.
  rewrite !decodeElevation_integers.
  split; [|split].
  - destruct (Z.eqb_spec (r * 65536 + g * 256 + b) 0) as [H0 | H0]; cbn [orb].
    + split; [intros _; left | reflexivity].
      assert (r = 0 /\ g = 0 /\ b = 0)%Z as (-> & -> & ->) by lia.
      reflexivity.
    + destruct (Z.eqb_spec (r * 65536 + g * 256 + b) 16777215) as [H1 | H1].
      * split; [intros _; right | reflexivity].
        assert (r = 255 /\ g = 255 /\ b = 255)%Z as (-> & -> & ->) by lia.
        reflexivity.
      * split; [discriminate|].
        intros [[= -> -> ->] | [= -> -> ->]]; lia.
  - intros e.
    destruct (Z.eqb_spec (r * 65536 + g * 256 + b) 0) as [H0 | H0];
      cbn [orb]; [discriminate|].
    destruct (Z.eqb_spec (r * 65536 + g * 256 + b) 16777215) as [H1 | H1];
      [discriminate|].
    intros [= <-]. split; [reflexivity|].
    assert (1 <= r * 65536 + g * 256 + b <= 16777214)%Z as [Hlo Hhi] by lia.
    apply IZR_le in Hlo, Hhi. lra.
  - intros e.
    destruct ((r * 65536 + g * 256 + b =? 0) ||
              (r * 65536 + g * 256 + b =? 16777215))%Z; [discriminate|].
    destruct ((r' * 65536 + g' * 256 + b' =? 0) ||
              (r' * 65536 + g' * 256 + b' =? 16777215))%Z; [discriminate|].
    intros [= <-] [= Heq].
    assert (IZR (r' * 65536 + g' * 256 + b') = IZR (r * 65536 + g * 256 + b))
      as Hv by lra.
    apply eq_IZR in Hv.
    assert (r = r' /\ g = g' /\ b = b')%Z as (-> & -> & ->) by lia.
    reflexivity.
Qed.


Lemma decodeElevation_on_bytes_witness :
  (decodeElevation (IZR 1) (IZR 134) (IZR 160) = None <->
   (1, 134, 160)%Z = (0, 0, 0)%Z \/ (1, 134, 160)%Z = (255, 255, 255)%Z) /\
  (forall e,
     decodeElevation (IZR 1) (IZR 134) (IZR 160) = Some e ->
     e = IZR (1 * 65536 + 134 * 256 + 160) / 10 - 10000 /\
     -9999.9 <= e <= 1667721.4) /\
  (forall e,
     decodeElevation (IZR 1) (IZR 134) (IZR 160) = Some e ->
     decodeElevation (IZR 0) (IZR 0) (IZR 1) = Some e ->
     (1, 134, 160)%Z = (0, 0, 1)%Z).
Proof.
  apply (decodeElevation_on_bytes 1 134 160 0 0 1); unfold isByte; lia.
Defined.

Lemma interpolateCoordinate_between (a b t lo hi : R) :
  0 <= t <= 1 -> lo <= a <= hi -> lo <= b <= hi ->
  lo <= interpolateCoordinate a b t <= hi.
Proof.
  intros Ht Ha Hb. unfold interpolateCoordinate. cbn.
  split; nra.
Qed.

Lemma emitted_step_fraction (i : nat) (d : R) (step : nat) :
  In step (emittedSteps i (stepCount d)) ->
  0 <= INR step / IZR (stepCount d) <= 1.
Proof.
  intros Hin.
  pose proof (stepCount_positive d) as Hsteps.
  pose proof (stepCount_real_positive d) as Hpos.
  assert (step <= Z.to_nat (stepCount d))%nat as Hle.
  { unfold emittedSteps in Hin.
    destruct (Nat.eqb i 0); apply in_seq in Hin; lia. }
  apply le_INR in Hle.
  rewrite (INR_IZR_INZ (Z.to_nat (stepCount d))), Z2Nat.id in Hle by lia.
  pose proof (pos_INR step).
  split.
  - unfold Rdiv. apply Rle_mult_inv_pos; assumption.
  - apply (Rmult_le_reg_r (IZR (stepCount d))); [exact Hpos|].
    unfold Rdiv. rewrite Rmult_assoc, Rinv_l, Rmult_1_r, Rmult_1_l by lra.
    exact Hle.
Qed.

Lemma routePlacements_in_box (box : Box) (route : list Waypoint) :
  Forall (waypointInBox box) route ->
  forall (i : nat) (cum : Number),
    Forall (fun p =>
              latLow box <= placeLat p <= latHigh box /\
              lonLow box <= placeLon p <= lonHigh box /\
              altLow box <= placeAltitude p <= altHigh box)
           (routePlacements i route cum).
Proof.
  induction route as [|start rest IH]; intros Hbox i cum; [constructor|].
  destruct rest as [|end_ tail]; [constructor|].
  rewrite routePlacements_cons.
  inversion Hbox as [|? ? Hstart Hrest]; subst.
  pose proof Hrest as Hrest'.
  inversion Hrest' as [|? ? Hend _]; subst.
  destruct (haversineDistance (latitude start) (longitude start)
              (latitude end_) (longitude end_)) as [|d]; [now apply IH|].
  apply Forall_app. split; [|now apply IH].
  apply List.Forall_forall. intros p Hin.
  apply in_map_iff in Hin as (step & <- & Hstep).
  apply emitted_step_fraction in Hstep.
  destruct Hstart as (Hla & Hlo & Hal), Hend as (Hla' & Hlo' & Hal').
  cbn [placeLat placeLon placeAltitude placementAt].
  split; [|split].
  - exact (interpolateCoordinate_between (latitude start) (latitude end_)
             _ _ _ Hstep Hla Hla').
  - exact (interpolateCoordinate_between (longitude start) (longitude end_)
             _ _ _ Hstep Hlo Hlo').
  - exact (interpolateCoordinate_between (altitude start) (altitude end_)
             _ _ _ Hstep Hal Hal').
Qed.

(** X7.  The samples stay within the route's bounds: when the latitudes,
    longitudes and altitudes of all waypoints lie in a box, so do the
    latitude, longitude and planned altitude of every sample.  In
    particular the planned altitude is never negative on a route whose
    altitudes are not. *)
Theorem samples_stay_in_the_box
    (network : nat -> TileKey -> option Response) (box : Box)
    (route : list Waypoint) (st : State) :
  Forall (waypointInBox box) route ->
  exists samples st',
    sampleElevationAlongRoute network route st = (Normal samples, st') /\
    Forall (sampleInBox box) samples.
Proof.
  intros Hbox.
  destruct (sampleElevationAlongRoute_points network route st)
    as (samples & st' & Hrun & Hplace & _).
  exists samples, st'. split; [exact Hrun|].
  pose proof (routePlacements_in_box box route Hbox 0%nat 0) as Hpoints.
  rewrite <- Hplace in Hpoints.
  rewrite List.Forall_forall in Hpoints. apply List.Forall_forall.
  intros s Hin. exact (Hpoints (placement s) (in_map placement samples s Hin)).
Qed.
End ValueFacts.

(** ** Pixels, tile columns and tile rows *)

Section ProjectionFacts.
Local Open Scope R_scope.
Context {engine : JsEngine}.

Lemma Math_floor_unique (x : R) (n : Z) :
  IZR n <= x < IZR n + 1 -> Math_floor x = n.
Proof.
  intros [Hlo Hhi]. destruct (Math_floor_bounds x) as [Flo Fhi].
  assert (IZR (Math_floor x) < IZR (n + 1)) as H1
    by (rewrite plus_IZR; lra).
  assert (IZR n < IZR (Math_floor x + 1)) as H2
    by (rewrite plus_IZR; lra).
  apply lt_IZR in H1, H2. lia.
Qed.

Lemma Math_floor_range (x : R) (lo hi : Z) :
  IZR lo <= x < IZR hi -> (lo <= Math_floor x < hi)%Z.
Proof.
  intros [Hlo Hhi]. destruct (Math_floor_bounds x) as [Flo Fhi].
  assert (IZR (Math_floor x) < IZR hi) as H1 by lra.
  assert (IZR lo < IZR (Math_floor x + 1)) as H2
    by (rewrite plus_IZR; lra).
  apply lt_IZR in H1, H2. lia.
Qed.

Lemma pixel_offset_range (x : R) :
  (0 <= Math_floor ((x - IZR (Math_floor x)) * 256) < 256)%Z.
Proof.
  apply Math_floor_range. destruct (Math_floor_bounds x). cbn. lra.
Qed.

(** X8.  The pixel that [getElevationFromTile] reads is inside the tile:
    for a position between the latitudes of -89 and 89 degrees the pixel
    offsets [xPixel] and [yPixel] are between 0 and 255 and the index of
    the pixel is within the 262144 bytes of a 256 by 256 RGBA buffer, so on
    such a buffer the three bytes read exist (the read is never
    [undefined]) and the elevation is the decoding of those bytes. *)
Theorem pixel_lookup_in_bounds (tileData : ImageData) (lat lon : R) :
  -89 <= lat <= 89 ->
  (tileBytes <= length tileData)%nat ->
  let xPixel := pixelOffset (tileCoordinateX TILE_ZOOM lon) in
  let yPixel := pixelOffset (tileCoordinateY TILE_ZOOM lat) in
  (0 <= xPixel <= 255)%Z /\ (0 <= yPixel <= 255)%Z /\
  pixelIndex lat lon = ((yPixel * 256 + xPixel) * 4)%Z /\
  (0 <= pixelIndex lat lon)%Z /\ (pixelIndex lat lon + 3 < 262144)%Z /\
  exists r g b : Z,
    byteAt tileData (pixelIndex lat lon) = Some r /\
    byteAt tileData (pixelIndex lat lon + 1) = Some g /\
    byteAt tileData (pixelIndex lat lon + 2) = Some b /\
    pixelElevation tileData lat lon =
      decodeElevation (IZR r) (IZR g) (IZR b).
Proof.
  intros _ Hlen xPixel yPixel.
  assert (Z.of_nat tileBytes = 262144%Z) as Hbytes
    by (unfold tileBytes; lia).
  pose proof (pixel_offset_range (tileCoordinateX TILE_ZOOM lon)) as Hx.
  pose proof (pixel_offset_range (tileCoordinateY TILE_ZOOM lat)) as Hy.
  fold (pixelOffset (tileCoordinateX TILE_ZOOM lon)) in Hx.
  fold (pixelOffset (tileCoordinateY TILE_ZOOM lat)) in Hy.
  fold xPixel in Hx. fold yPixel in Hy.
  assert (pixelIndex lat lon = ((yPixel * 256 + xPixel) * 4)%Z) as Hindex
    by reflexivity.
  assert (forall k : Z, (0 <= k <= 2)%Z ->
            exists v, byteAt tileData (pixelIndex lat lon + k) = Some v)
    as Hbyte.
  { intros k Hk. unfold byteAt. rewrite Hindex.
    destruct (Z.ltb_spec ((yPixel * 256 + xPixel) * 4 + k) 0); [lia|].
    apply lookup_lt_is_Some. lia. }
  destruct (Hbyte 0%Z) as [r Hr]; [lia|]. rewrite Z.add_0_r in Hr.
  destruct (Hbyte 1%Z) as [g Hg]; [lia|].
  destruct (Hbyte 2%Z) as [b Hb]; [lia|].
  split; [lia|]. split; [lia|]. split; [exact Hindex|].
  split; [lia|]. split; [lia|].
  exists r, g, b.
  split; [exact Hr|]. split; [exact Hg|]. split; [exact Hb|].
  unfold pixelElevation.
  fold (pixelOffset (tileCoordinateX TILE_ZOOM lon)).
  fold (pixelOffset (tileCoordinateY TILE_ZOOM lat)).
  fold (pixelIndex lat lon). now rewrite Hr, Hg, Hb.
Qed.

Lemma tileCount_at_zoom : tileCount TILE_ZOOM = 16384.
Proof. unfold tileCount, TILE_ZOOM. simpl. lra. Qed.

(** X9.  Tile columns: a longitude in [-180, 180) falls in a column between
    0 and 16383, the columns that exist at zoom 14; the longitude 180 itself
    falls in column 16384, which does not. *)
Theorem tile_column_range (lon : R) :
  (-180 <= lon < 180 ->
   (0 <= Math_floor (tileCoordinateX TILE_ZOOM lon) <= 16383)%Z) /\
  Math_floor (tileCoordinateX TILE_ZOOM 180) = 16384%Z.
Proof.
  unfold tileCoordinateX. rewrite tileCount_at_zoom. split.
  - intros Hlon.
    assert (0 <= Math_floor ((lon + 180) / 360 * 16384) < 16384)%Z
      by (apply Math_floor_range; cbn; lra).
    lia.
  - apply Math_floor_unique. cbn. lra.
Qed.

Lemma tile_column_range_witness :
  (0 <= Math_floor (tileCoordinateX TILE_ZOOM 139) <= 16383)%Z.
Proof. apply (proj1 (tile_column_range 139)). lra. Defined.

Lemma mercatorArgument_quotient (x : R) :
  - (PI / 2) < x < PI / 2 ->
  0 < 1 + sin x /\ 0 < cos x /\ mercatorArgument x = (1 + sin x) / cos x.
Proof.
  intros [Hlo Hhi].
  assert (0 < cos x) as Hc by (apply cos_gt_0; lra).
  pose proof (sin2_cos2 x) as Hsc. unfold Rsqr in Hsc.
  assert (0 < 1 + sin x) as Hs by nra.
  split; [exact Hs|]. split; [exact Hc|].
  unfold mercatorArgument, tan. field. lra.
Qed.

Lemma mercatorArgument_opposite (x : R) :
  - (PI / 2) < x < PI / 2 ->
  0 < mercatorArgument x /\ mercatorArgument (- x) = / mercatorArgument x.
Proof.
  intros Hx.
  destruct (mercatorArgument_quotient x Hx) as (Hs & Hc & ->).
  assert (- (PI / 2) < - x < PI / 2) as Hnx by lra.
  destruct (mercatorArgument_quotient (- x) Hnx) as (_ & _ & ->).
  rewrite sin_neg, cos_neg.
  pose proof (sin2_cos2 x) as Hsc. unfold Rsqr in Hsc.
  split; [apply Rdiv_lt_0_compat; assumption|].
  field_simplify_eq; [nra | lra].
Qed.

Lemma mercatorArgument_increasing_everywhere (x y : R) :
  - (PI / 2) < x -> x < y -> y < PI / 2 ->
  mercatorArgument x < mercatorArgument y.
Proof.
  intros Hx Hxy Hy.
  assert (mercatorArgument 0 = 1) as H0
    by (unfold mercatorArgument; rewrite tan_0, cos_0; lra).
  assert (forall z, 0 < z < PI / 2 -> 1 < mercatorArgument z) as Habove.
  { intros z Hz. rewrite <- H0. apply mercatorArgument_increasing; lra. }
  assert (forall z, - (PI / 2) < z < 0 -> 0 < mercatorArgument z < 1) as Hbelow.
  { intros z Hz.
    destruct (mercatorArgument_opposite (- z)) as [Hpos Hinv]; [lra|].
    rewrite Ropp_involutive in Hinv. rewrite Hinv.
    pose proof (Habove (- z) ltac:(lra)) as H1.
    split; [now apply Rinv_0_lt_compat|].
    rewrite <- Rinv_1. apply Rinv_lt_contravar; lra. }
  destruct (Rle_lt_dec 0 x) as [Hx0 | Hx0].
  - apply mercatorArgument_increasing; lra.
  - destruct (Rle_lt_dec y 0) as [Hy0 | Hy0].
    + destruct (mercatorArgument_opposite (- x)) as [Hpx Hix]; [lra|].
      destruct (mercatorArgument_opposite (- y)) as [Hpy Hiy]; [lra|].
      rewrite Ropp_involutive in Hix, Hiy. rewrite Hix, Hiy.
      apply Rinv_lt_contravar; [now apply Rmult_lt_0_compat|].
      apply mercatorArgument_increasing; lra.
    + destruct (Hbelow x) as [_ Hlt]; [lra|].
      pose proof (Habove y ltac:(lra)). lra.
Qed.

(** X10.  Tile rows between the latitudes of -89 and 89 degrees: the
    equator lies on the middle row boundary ([y = n / 2]); the projection
    is symmetric about it ([y(-lat) = n - y(lat)]); and [y] falls strictly
    as the latitude grows, in both hemispheres.  The arithmetic is exact
    here; binary64 rounds each operation. *)
Theorem tile_row_symmetric_and_decreasing (zoom : nat) :
  tileCoordinateY zoom 0 = tileCount zoom / 2 /\
  (forall lat : R,
     -89 <= lat <= 89 ->
     tileCoordinateY zoom (- lat) = tileCount zoom - tileCoordinateY zoom lat) /\
  (forall lat1 lat2 : R,
     -89 <= lat1 -> lat1 < lat2 -> lat2 <= 89 ->
     tileCoordinateY zoom lat2 < tileCoordinateY zoom lat1).
Proof.
  pose proof PI_RGT_0 as Hpi.
  pose proof (tileCount_positive zoom) as Hn.
  split; [|split].
  - unfold tileCoordinateY.
    replace (0 * PI / 180) with 0 by lra.
    rewrite tan_0, cos_0.
    replace (0 + 1 / 1) with 1 by lra. rewrite ln_1. field. lra.
  - intros lat Hlat. unfold tileCoordinateY.
    fold (mercatorArgument (- lat * PI / 180)).
    fold (mercatorArgument (lat * PI / 180)).
    replace (- lat * PI / 180) with (- (lat * PI / 180)) by lra.
    destruct (mercatorArgument_opposite (lat * PI / 180)) as [Hpos ->];
      [split; nra|].
    rewrite ln_Rinv by exact Hpos. field. lra.
  - intros lat1 lat2 H1 Hlt H2. unfold tileCoordinateY.
    fold (mercatorArgument (lat1 * PI / 180)).
    fold (mercatorArgument (lat2 * PI / 180)).
    assert (- (PI / 2) < lat1 * PI / 180) as Hr0 by nra.
    assert (lat1 * PI / 180 < lat2 * PI / 180) as Hr1 by nra.
    assert (lat2 * PI / 180 < PI / 2) as Hr2 by nra.
    pose proof (mercatorArgument_increasing_everywhere _ _ Hr0 Hr1 Hr2) as Hinc.
    destruct (mercatorArgument_opposite (lat1 * PI / 180)) as [Hpos _];
      [lra|].
    pose proof (ln_increasing _ _ Hpos Hinc) as Hln.
    apply Rmult_lt_compat_r; [exact Hn|].
    apply Rmult_lt_compat_r; [lra|].
    apply Rplus_lt_compat_l, Ropp_lt_contravar.
    apply Rmult_lt_compat_r; [apply Rinv_0_lt_compat; lra | exact Hln].
Qed.

Lemma routeTurns_count (route : list Waypoint) :
  forall (i : nat) (cum : Number),
    (length (routeTurns i route cum) <=
     Z.to_nat 318551 * pred (length route))%nat.
Proof.
  induction route as [|start rest IH]; intros i cum; [cbn; lia|].
  destruct rest as [|end_ tail]; [cbn; lia|].
  rewrite routeTurns_cons.
  change (pred (length (start :: end_ :: tail)))
    with (S (pred (length (end_ :: tail)))).
  rewrite Nat.mul_succ_r.
  destruct (haversineDistance (latitude start) (longitude start)
              (latitude end_) (longitude end_)) as [|d] eqn:Hd.
  - specialize (IH (S i) NaN). lia.
  - apply haversineDistance_Num in Hd. subst d.
    unfold segmentTurns. rewrite length_app, length_map, length_seq.
    specialize (IH (S i)
                  (addN cum
                     (Num (haversineMeters (latitude start) (longitude start)
                             (latitude end_) (longitude end_))))).
    pose proof (stepCount_at_most (latitude start) (longitude start)
                  (latitude end_) (longitude end_)) as Hsteps.
    pose proof (stepCount_positive
                  (haversineMeters (latitude start) (longitude start)
                     (latitude end_) (longitude end_))) as Hpos.
    lia.
Qed.

(** X11.  The work per segment is bounded.  The distance between two
    positions is [NaN], and the segment then has no steps, or it is a
    number that is at most half the circumference of the sphere,
    [PI * 6371000] metres, and the segment is cut into at least 1 and at
    most 318550 steps.  The sampler so takes at most 318551 turns, each
    with one elevation lookup, for every segment of a route. *)
Theorem segment_work_is_bounded (lat1 lon1 lat2 lon2 : R) :
  match haversineDistance lat1 lon1 lat2 lon2 with
  | NaN => segmentSteps (haversineDistance lat1 lon1 lat2 lon2) = None
  | Num d =>
      0 <= d <= PI * 6371000 /\
      exists steps : Z,
        segmentSteps (haversineDistance lat1 lon1 lat2 lon2) = Some steps /\
        (1 <= steps <= 318550)%Z
  end /\
  (forall (route : list Waypoint) (i : nat) (cum : Number),
     (length (routeTurns i route cum) <=
      Z.to_nat 318551 * pred (length route))%nat).
Proof.
  split; [|intros route; apply routeTurns_count].
  destruct (haversineDistance lat1 lon1 lat2 lon2) as [|d] eqn:Hd;
    [reflexivity|].
  apply haversineDistance_Num in Hd. subst d.
  split; [split; [apply haversineMeters_nonneg | apply haversineMeters_at_most]|].
  eexists. split; [reflexivity|].
  split; [apply stepCount_positive | apply stepCount_at_most].
Qed.
End ProjectionFacts.

Section ProjectionScenarios.
Local Open Scope R_scope.
#[local] Existing Instance scenarioEngine.

Lemma samples_stay_in_the_box_witness :
  exists samples st',
    sampleElevationAlongRoute offline scenarioRoute initialState =
      (Normal samples, st') /\
    Forall (sampleInBox scenarioBox) samples.
Proof.
  apply (samples_stay_in_the_box offline scenarioBox scenarioRoute initialState).
  repeat constructor; cbn; lra.
Defined.

Lemma pixel_lookup_in_bounds_witness :
  let xPixel := pixelOffset (tileCoordinateX TILE_ZOOM 139) in
  let yPixel := pixelOffset (tileCoordinateY TILE_ZOOM 35) in
  (0 <= xPixel <= 255)%Z /\ (0 <= yPixel <= 255)%Z /\
  pixelIndex 35 139 = ((yPixel * 256 + xPixel) * 4)%Z /\
  (0 <= pixelIndex 35 139)%Z /\ (pixelIndex 35 139 + 3 < 262144)%Z /\
  exists r g b : Z,
    byteAt (repeat 7%Z tileBytes) (pixelIndex 35 139) = Some r /\
    byteAt (repeat 7%Z tileBytes) (pixelIndex 35 139 + 1) = Some g /\
    byteAt (repeat 7%Z tileBytes) (pixelIndex 35 139 + 2) = Some b /\
    pixelElevation (repeat 7%Z tileBytes) 35 139 =
      decodeElevation (IZR r) (IZR g) (IZR b).
Proof.
  apply (pixel_lookup_in_bounds (repeat 7%Z tileBytes) 35 139).
  - lra.
  - rewrite repeat_length. apply Nat.le_refl.
Defined.

Lemma tile_row_symmetric_and_decreasing_witness :
  tileCoordinateY TILE_ZOOM (- 35) =
    tileCount TILE_ZOOM - tileCoordinateY TILE_ZOOM 35 /\
  tileCoordinateY TILE_ZOOM (-35) < tileCoordinateY TILE_ZOOM (-36).
Proof.
  split.
  - apply (proj1 (proj2 (tile_row_symmetric_and_decreasing TILE_ZOOM)) 35). lra.
  - apply (proj2 (proj2 (tile_row_symmetric_and_decreasing TILE_ZOOM))); lra.
Defined.

Lemma segment_work_is_bounded_witness :
  0 <= haversineMeters 35 139 35.001 139.001 <= PI * 6371000 /\
  exists steps : Z,
    segmentSteps (haversineDistance 35 139 35.001 139.001) = Some steps /\
    (1 <= steps <= 318550)%Z.
Proof.
  exact (proj1 (segment_work_is_bounded 35 139 35.001 139.001)).
Defined.
End ProjectionScenarios.

(** ** The cache and the request log over a whole sampling *)

Section CacheFacts.
Local Open Scope R_scope.
Context {engine : JsEngine}.
Variable network : nat -> TileKey -> option Response.

Lemma cacheGrows_refl (st : State) : cacheGrows st st.
Proof. split; reflexivity. Qed.

Lemma cacheGrows_trans (st1 st2 st3 : State) :
  cacheGrows st1 st2 -> cacheGrows st2 st3 -> cacheGrows st1 st3.
Proof. intros [? ?] [? ?]. split; etrans; eassumption. Qed.

Lemma fetchElevationTile_cacheGrows (z x y : Z) (st st' : State)
    (r : Completion ImageData) :
  fetchElevationTile network z x y st = (r, st') -> cacheGrows st st'.
Proof.
  destruct (tileCache st !! ((z, x, y) : TileKey)) as [data|] eqn:Hc.
  - rewrite (fetchElevationTile_hit _ _ _ _ _ _ Hc).
    intros [= <- <-]. apply cacheGrows_refl.
  - rewrite (fetchElevationTile_miss _ _ _ _ _ Hc).
    destruct (tileOutcome _) as [img | e]; intros [= <- <-]; split; cbn.
    + now apply insert_subseteq.
    + now apply prefix_app_r.
    + reflexivity.
    + now apply prefix_app_r.
Qed.

Lemma getElevationFromTile_cacheGrows (lat lon : R) (st st' : State)
    (ground : option R) :
  getElevationFromTile network lat lon st = (Normal ground, st') ->
  cacheGrows st st'.
Proof.
  rewrite getElevationFromTile_run.
  destruct (fetchElevationTile _ _ _ _ st) as [[tileData | e] st1] eqn:Hf;
    apply fetchElevationTile_cacheGrows in Hf; intros [= <- <-].
  - exact Hf.
  - exact Hf.
Qed.

Lemma sampling_cacheGrows (route : list Waypoint) (st : State) :
  exists samples st',
    sampleElevationAlongRoute network route st = (Normal samples, st') /\
    cacheGrows st st' /\ sameDisplay st st'.
Proof.
  destruct (sampleSegments_trace network route 0 [] 0 st)
    as (lookups & st' & Hrun & Hchain & _).
  destruct (lookupChain_keeps network
              (fun st0 => cacheGrows st st0) (fun _ => True)
              (fun lat lon st0 ground st0' HI Hget =>
                 conj (cacheGrows_trans _ _ _ HI
                         (getElevationFromTile_cacheGrows _ _ _ _ _ Hget))
                      Logic.I)
              lookups st st' (cacheGrows_refl st) Hchain) as [Hgrow _].
  exists (samplesOf lookups), st'. unfold sampleElevationAlongRoute.
  rewrite Hrun. split; [reflexivity|]. split; [exact Hgrow|].
  exact (lookupChain_sameDisplay network _ _ _ Hchain).
Qed.

(** X12.  The tile cache is append-only and the request log only grows:
    whatever the network does, after a sampling and after a whole refresh
    every tile that was cached is still cached with the same pixels, and
    the earlier requests are a prefix of the log. *)
Theorem tile_cache_only_grows (route : list Waypoint) (st : State) :
  (exists samples st',
     sampleElevationAlongRoute network route st = (Normal samples, st') /\
     cacheGrows st st') /\
  (exists st', updateElevationProfile network st = (Normal tt, st') /\
     cacheGrows st st').
Proof.
  split.
  - destruct (sampling_cacheGrows route st) as (samples & st' & Hrun & Hg & _).
    now exists samples, st'.
  - rewrite updateElevationProfile_cut, updateElevationProfile_begin_run.
    destruct (length (waypoints st) <? 2)%nat eqn:Hlen.
    + eexists. split; [reflexivity|]. split; reflexivity.
    + destruct (sampling_cacheGrows (waypoints (started st)) (started st))
        as (samples & st2 & Hrun & Hg & _ & Htoken & _).
      rewrite Hrun.
      change (nextToken (profileToken st)) with (profileToken (started st)).
      rewrite <- Htoken, resume_current.
      eexists. split; [reflexivity|].
      unfold settled. destruct Hg as [Hcache Hlog].
      destruct (tooManyArguments samples); split;
        [exact Hcache | exact Hlog | exact Hcache | exact Hlog].
Qed.

Lemma fetchElevationTile_requestedOnce (z x y : Z) (st st' : State)
    (r : Completion ImageData) :
  alwaysAvailable network ->
  requestedOnce st ->
  fetchElevationTile network z x y st = (r, st') -> requestedOnce st'.
Proof.
  intros Havail [Hnodup Hcached].
  destruct (tileCache st !! ((z, x, y) : TileKey)) as [data|] eqn:Hc.
  - rewrite (fetchElevationTile_hit _ _ _ _ _ _ Hc).
    intros [= <- <-]. now split.
  - rewrite (fetchElevationTile_miss _ _ _ _ _ Hc).
    destruct (Havail (length (requests st)) (z, x, y)) as [img ->].
    intros [= <- <-]. split; cbn.
    + apply NoDup_app. split; [exact Hnodup|]. split; [|apply NoDup_singleton].
      intros key Hin Hkey. apply list_elem_of_singleton in Hkey. subst key.
      destruct (Hcached _ Hin) as [v Hv]. congruence.
    + intros key Hin. apply elem_of_app in Hin as [Hin | Hin].
      * destruct (decide (key = (z, x, y))) as [-> | Hne].
        -- rewrite lookup_insert_eq. now eexists.
        -- rewrite lookup_insert_ne by congruence. now apply Hcached.
      * apply list_elem_of_singleton in Hin. subst key.
        rewrite lookup_insert_eq. now eexists.
Qed.

Lemma getElevationFromTile_requestedOnce (lat lon : R) (st st' : State)
    (ground : option R) :
  alwaysAvailable network ->
  requestedOnce st ->
  getElevationFromTile network lat lon st = (Normal ground, st') ->
  requestedOnce st'.
Proof.
  intros Havail Hinv. rewrite getElevationFromTile_run.
  destruct (fetchElevationTile _ _ _ _ st) as [[tileData | e] st1] eqn:Hf;
    apply (fetchElevationTile_requestedOnce _ _ _ _ _ _ Havail Hinv) in Hf;
    intros [= <- <-]; exact Hf.
Qed.

(** X13.  When every tile can be had, no tile is requested twice: from a
    state in which no tile was requested twice and every requested tile is
    cached (the initial state is one), a sampling leaves such a state. *)
Theorem available_tiles_are_requested_once (route : list Waypoint)
    (st : State) :
  alwaysAvailable network ->
  requestedOnce st ->
  exists samples st',
    sampleElevationAlongRoute network route st = (Normal samples, st') /\
    NoDup (requests st') /\
    forall key, key ∈ requests st' -> is_Some (tileCache st' !! key).
Proof.
  intros Havail Hinv.
  destruct (sampleSegments_run network requestedOnce (fun _ => True)
              (fun lat lon st0 ground st0' HI Hget =>
                 conj (getElevationFromTile_requestedOnce _ _ _ _ _
                         Havail HI Hget) Logic.I)
              route 0 [] 0 st Hinv)
    as (new & st' & Hrun & _ & _ & [Hnodup Hcached]).
  exists new, st'. unfold sampleElevationAlongRoute. now rewrite Hrun.
Qed.

(** Counting the lookups of a run: [J n] holds after [n] lookups. *)
Section CountingLoops.
Variable J : nat -> State -> Prop.
Hypothesis lookup_counts :
  forall lat lon st ground st' n,
    J n st ->
    getElevationFromTile network lat lon st = (Normal ground, st') ->
    J (S n) st'.

Lemma lookupChain_counts (lookups : list Lookup) :
  forall (st st' : State) (n : nat),
    J n st ->
    lookupChain network st lookups st' ->
    J (n + length lookups) st'.
Proof using lookup_counts.
  induction lookups as [|lookup rest IH]; intros st st' n HJ Hchain.
  - cbn in Hchain. subst st'. cbn [length]. now rewrite Nat.add_0_r.
  - destruct Hchain as (_ & Hrun & Hrest).
    pose proof (lookup_counts _ _ _ _ _ _ HJ Hrun) as HJ1.
    cbn [length].
    replace (n + S (length rest))%nat with (S n + length rest)%nat by lia.
    exact (IH _ _ _ HJ1 Hrest).
Qed.
End CountingLoops.

Lemma routeTurns_length (route : list Waypoint) :
  forall (i : nat) (cum : Number),
    length (routeTurns i route cum) = routeLookups route.
Proof.
  induction route as [|start rest IH]; intros i cum; [reflexivity|].
  destruct rest as [|end_ tail]; [reflexivity|].
  rewrite routeTurns_cons.
  change (routeLookups (start :: end_ :: tail))
    with (match segmentSteps
                  (haversineDistance (latitude start) (longitude start)
                     (latitude end_) (longitude end_)) with
          | None => routeLookups (end_ :: tail)
          | Some steps => S (Z.to_nat steps) + routeLookups (end_ :: tail)
          end)%nat.
  destruct (haversineDistance (latitude start) (longitude start)
              (latitude end_) (longitude end_)) as [|d]; cbn [segmentSteps].
  - apply IH.
  - unfold segmentTurns. now rewrite length_app, length_map, length_seq, IH.
Qed.

(** The lookups of a sampling: as many as [routeLookups] counts. *)
Lemma sampling_lookups (route : list Waypoint) (st : State) :
  exists samples st' lookups,
    sampleElevationAlongRoute network route st = (Normal samples, st') /\
    lookupChain network st lookups st' /\
    samples = samplesOf lookups /\
    length lookups = routeLookups route.
Proof.
  destruct (sampleSegments_trace network route 0 [] 0 st)
    as (lookups & st' & Hrun & Hchain & Hturns).
  exists (samplesOf lookups), st', lookups.
  unfold sampleElevationAlongRoute. rewrite Hrun.
  split; [reflexivity|]. split; [exact Hchain|]. split; [reflexivity|].
  rewrite <- (length_map (fun lookup => (place lookup, kept lookup))), Hturns.
  apply routeTurns_length.
Qed.

Lemma getElevationFromTile_one_request (lat lon : R) (st st' : State)
    (ground : option R) :
  getElevationFromTile network lat lon st = (Normal ground, st') ->
  (length (requests st') <= S (length (requests st)))%nat.
Proof.
  rewrite getElevationFromTile_run.
  destruct (tileCache st !! ((Z.of_nat TILE_ZOOM, fst (coveringTile lat lon),
                              snd (coveringTile lat lon)) : TileKey))
    as [data|] eqn:Hc.
  - rewrite (fetchElevationTile_hit _ _ _ _ _ _ Hc). intros [= <- <-]. lia.
  - rewrite (fetchElevationTile_miss _ _ _ _ _ Hc).
    destruct (tileOutcome _) as [img | e]; intros [= <- <-]; cbn;
      rewrite length_app; cbn; lia.
Qed.

Lemma failed_lookup_is_one_request (lat lon : R) (st st' : State)
    (ground : option R) :
  (forall n key, tileUnavailable (network n key)) ->
  tileCache st = ∅ ->
  getElevationFromTile network lat lon st = (Normal ground, st') ->
  tileCache st' = ∅ /\ length (requests st') = S (length (requests st)).
Proof.
  intros Hdown Hempty.
  rewrite getElevationFromTile_run, fetchElevationTile_miss
    by (rewrite Hempty; apply lookup_empty).
  specialize (Hdown (length (requests st))
                (Z.of_nat TILE_ZOOM, fst (coveringTile lat lon),
                 snd (coveringTile lat lon))).
  unfold tileUnavailable in Hdown.
  destruct (tileOutcome _) as [img | e]; [contradiction|].
  intros [= <- <-]. split; [cbn; exact Hempty|].
  cbn. rewrite length_app. cbn. lia.
Qed.

Lemma routeLookups_count (route : list Waypoint) :
  distancesAreNumbers route ->
  (2 <= length route)%nat ->
  routeLookups route = (S (routeSteps route) + (length route - 2))%nat.
Proof.
  induction route as [|start rest IH]; cbn [length]; [lia|].
  destruct rest as [|end_ tail]; cbn [length]; [lia|]. intros [Hd Hnum] _.
  change (routeLookups (start :: end_ :: tail))
    with (match segmentSteps
                  (haversineDistance (latitude start) (longitude start)
                     (latitude end_) (longitude end_)) with
          | None => routeLookups (end_ :: tail)
          | Some steps => S (Z.to_nat steps) + routeLookups (end_ :: tail)
          end)%nat.
  rewrite (haversineDistance_number _ _ _ _ Hd). cbn [segmentSteps].
  fold (segmentLength start end_). fold (stepsOf start end_).
  change (routeSteps (start :: end_ :: tail))
    with (stepsOf start end_ + routeSteps (end_ :: tail))%nat.
  destruct tail as [|next tail'].
  - cbn. lia.
  - rewrite (IH Hnum) by (cbn; lia). cbn [length]. lia.
Qed.

(** X14.  Requests against lookups.  A sampling looks the elevation up once
    per step of every segment whose distance is a number, the skipped
    step 0 of the later segments included, and not at all on a segment
    whose distance is [NaN]; when every distance is a number, on a route of
    two or more waypoints that is one lookup per sample plus one per
    interior waypoint.  It issues at most one request per lookup; and when
    no tile can be had and the cache is empty, it issues exactly one
    request per lookup and leaves the cache empty: failures are not
    remembered. *)
Theorem requests_per_lookup (route : list Waypoint) (st : State) :
  (distancesAreNumbers route -> (2 <= length route)%nat ->
   routeLookups route = (S (routeSteps route) + (length route - 2))%nat) /\
  (exists samples st' lookups,
     sampleElevationAlongRoute network route st = (Normal samples, st') /\
     lookupChain network st lookups st' /\
     samples = samplesOf lookups /\
     length lookups = routeLookups route /\
     (length (requests st') <= length (requests st) + routeLookups route)%nat) /\
  ((forall n key, tileUnavailable (network n key)) ->
   tileCache st = ∅ ->
   exists samples st',
     sampleElevationAlongRoute network route st = (Normal samples, st') /\
     tileCache st' = ∅ /\
     length (requests st') = (length (requests st) + routeLookups route)%nat).
Proof.
  destruct (sampling_lookups route st)
    as (samples & st' & lookups & Hrun & Hchain & Hsamples & Hcount).
  split; [apply routeLookups_count|]. split.
  - exists samples, st', lookups.
    split; [exact Hrun|]. split; [exact Hchain|]. split; [exact Hsamples|].
    split; [exact Hcount|].
    assert (forall lat lon st0 ground st0' n,
              (length (requests st0) <= length (requests st) + n)%nat ->
              getElevationFromTile network lat lon st0 = (Normal ground, st0') ->
              (length (requests st0') <= length (requests st) + S n)%nat)
      as Hstep.
    { intros lat lon st0 ground st0' n HJ Hget.
      apply getElevationFromTile_one_request in Hget. lia. }
    pose proof (lookupChain_counts
                  (fun n st0 =>
                     (length (requests st0) <= length (requests st) + n)%nat)
                  Hstep lookups st st' 0%nat ltac:(cbn beta; lia) Hchain)
      as HJ.
    cbn beta in HJ. now rewrite Hcount in HJ.
  - intros Hdown Hempty.
    assert (forall lat lon st0 ground st0' n,
              tileCache st0 = ∅ /\
              length (requests st0) = (length (requests st) + n)%nat ->
              getElevationFromTile network lat lon st0 = (Normal ground, st0') ->
              tileCache st0' = ∅ /\
              length (requests st0') = (length (requests st) + S n)%nat)
      as Hstep.
    { intros lat lon st0 ground st0' n [Hc Hl] Hget.
      destruct (failed_lookup_is_one_request _ _ _ _ _ Hdown Hc Hget)
        as [Hc' Hl'].
      split; [exact Hc' | lia]. }
    pose proof (lookupChain_counts
                  (fun n st0 =>
                     tileCache st0 = ∅ /\
                     length (requests st0) = (length (requests st) + n)%nat)
                  Hstep lookups st st' 0%nat
                  ltac:(cbn beta; split; [exact Hempty | lia]) Hchain)
      as [Hc Hl].
    exists samples, st'. split; [exact Hrun|]. split; [exact Hc|].
    now rewrite Hcount in Hl.
Qed.
End CacheFacts.

(** ** The chart and its pixels *)

Section RendererFacts.
Local Open Scope R_scope.
Context {engine : JsEngine}.














Lemma chooseNiceStep_range (rawStep : R) :
  10 <= chooseNiceStep rawStep <= 2000 /\
  (rawStep <= 2000 -> rawStep <= chooseNiceStep rawStep).
Proof.
  unfold chooseNiceStep, niceSteps.
  cbn [map firstAtLeast js_leb js_lit R_JsNumber].
  repeat match goal with
         | |- context [Rleb rawStep ?c] =>
             let H := fresh "H" in
             destruct (Rleb rawStep c) eqn:H;
             [apply Rleb_true in H | apply Rleb_false in H]
         end;
    (split; [lra | intros; lra]).
Qed.

(** The tick loop ends within [fuel] further turns once [fuel] steps lead
    past the end of the axis; more fuel changes nothing. *)
Lemma tickLoop_ends (effectiveTotal totalDistance stepMeters : R) (fuel : nat) :
  0 < stepMeters ->
  forall d,
    effectiveTotal + 1 / 1000000 < d + INR fuel * stepMeters ->
    exists ticks,
      (length ticks <= fuel)%nat /\
      Forall (fun tick => tick <= totalDistance) ticks /\
      forall more, (fuel < more)%nat ->
        tickLoop more effectiveTotal totalDistance stepMeters d = Some ticks.
Proof.
  intros Hstep. induction fuel as [|fuel IH]; intros d Hpast.
  - exists []. split; [reflexivity|]. split; [constructor|].
    intros [|more] Hmore; [lia|]. cbn [tickLoop].
    replace (Rleb d (effectiveTotal + 1 / 1000000)) with false;
      [reflexivity|].
    symmetry. apply Rleb_false. cbn in Hpast. lra.
  - destruct (Rleb d (effectiveTotal + 1 / 1000000)) eqn:Hturn.
    + destruct (IH (d + stepMeters)) as (ticks & Hlen & Hall & Hrun).
      { rewrite S_INR in Hpast. lra. }
      exists (Rmin d totalDistance :: ticks).
      split; [cbn; lia|]. split; [constructor; [apply Rmin_r | exact Hall]|].
      intros [|more] Hmore; [lia|]. cbn [tickLoop]. rewrite Hturn.
      rewrite Hrun by lia. reflexivity.
    + exists []. split; [cbn; lia|]. split; [constructor|].
      intros [|more] Hmore; [lia|]. cbn [tickLoop]. now rewrite Hturn.
Qed.

(** X17.  The tick loop of the distance axis.  For every sample list the
    step is between 10 and 2000, and the loop ends: from some number of
    turns on it yields the same ticks, the first of them at distance zero
    (clamped to the total distance), none beyond the total distance, and no
    more ticks than turns.  While the axis is at most 10 km long six turns
    are enough, so at most six ticks are drawn. *)
Theorem tick_loop_ends (samples : list Sample) :
  let chart := profileChart samples in
  10 <= stepMeters chart <= 2000 /\
  exists turns ticks,
    (forall fuel, (turns < fuel)%nat ->
       tickDistances fuel chart = Some ticks) /\
    head ticks = Some (Rmin 0 (totalDistance chart)) /\
    Forall (fun tick => tick <= totalDistance chart) ticks /\
    (length ticks <= turns)%nat /\
    (totalDistance chart <= 10000 -> (turns <= 6)%nat).
Proof.
  intros chart. subst chart. unfold tickDistances, profileChart.
  cbn [stepMeters totalDistance].
  set (total := lastOr1 (map distance samples)).
  set (eff := Rmax total 1).
  destruct (chooseNiceStep_range (eff / 5)) as [Hrange Hraw].
  set (step := chooseNiceStep (eff / 5)) in *.
  split; [exact Hrange|].
  assert (1 <= eff) as Heff by apply Rmax_r.
  assert (total <= eff) as Htotal by apply Rmax_l.
  assert (Rleb 0 (eff + 1 / 1000000) = true) as Hfirst
    by (apply Rleb_true; lra).
  assert (exists turns,
            eff + 1 / 1000000 < 0 + step + INR turns * step /\
            (total <= 10000 -> (turns <= 5)%nat)) as (turns & Hpast & Hfew).
  { destruct (Rle_dec total 10000) as [Hshort | Hlong].
    - exists 5%nat. split; [|intros _; lia].
      assert (eff <= 10000) as Heff' by (apply Rmax_lub; lra).
      assert (eff / 5 <= step) by (apply Hraw; lra).
      change (INR 5) with (1 + 1 + 1 + 1 + 1). lra.
    - exists (Z.to_nat (up ((eff + 1) / step))). split; [|intros; lra].
      destruct (archimed ((eff + 1) / step)) as [Hup _].
      assert (0 < (eff + 1) / step) as Hpos
        by (apply Rdiv_lt_0_compat; lra).
      assert (0 < up ((eff + 1) / step))%Z as Hz
        by (apply lt_IZR; lra).
      rewrite INR_IZR_INZ, Z2Nat.id by lia.
      assert ((eff + 1) / step * step = eff + 1) as Hcancel
        by (field; lra).
      assert ((eff + 1) / step * step < IZR (up ((eff + 1) / step)) * step)
        by (apply Rmult_lt_compat_r; lra).
      lra. }
  destruct (tickLoop_ends eff total step turns ltac:(lra) (0 + step) Hpast)
    as (ticks & Hlen & Hall & Hrun).
  exists (S turns), (Rmin 0 total :: ticks).
  split; [|split; [reflexivity|split; [|split]]].
  - intros [|fuel] Hfuel; [lia|]. cbn [tickLoop]. rewrite Hfirst.
    rewrite Hrun by lia. reflexivity.
  - constructor; [apply Rmin_r | exact Hall].
  - cbn. lia.
  - intros Hshort. specialize (Hfew Hshort). lia.
Qed.

Lemma Math_round_nearest (x : R) :
  x - 1 / 2 < IZR (Math_round x) <= x + 1 / 2.
Proof.
  unfold Math_round. destruct (Math_floor_bounds (x + 1 / 2)). lra.
Qed.

(** X18.  [resizeCanvas] gives [drawElevationProfile] a canvas on which the
    chart fits.  The pixel ratio it returns is never zero, and width and
    height are the nearest integers to the scaled rectangle.  For a
    rectangle at least 81 CSS pixels wide and a pixel ratio that is zero
    (read as one) or at least one half, the plot width is not negative and
    the plot height is positive, whatever the height of the rectangle. *)
Theorem resizeCanvas_fits_the_chart (rectWidth rectHeight ratio : R) :
  let size := resizeCanvas rectWidth rectHeight ratio in
  dpr size <> 0 /\
  (rectWidth * dpr size - 1 / 2 < width size <= rectWidth * dpr size + 1 / 2) /\
  (rectHeight * dpr size - 1 / 2 < height size
   <= rectHeight * dpr size + 1 / 2) /\
  (81 <= rectWidth -> ratio = 0 \/ 1 / 2 <= ratio ->
   0 < dpr size /\ 80 * dpr size <= width size /\
   0 <= plotWidth size /\ 0 < plotHeight size).
Proof.
  intros size. subst size. unfold resizeCanvas, plotWidth, plotHeight, margin.
  cbn [dpr width height].
  set (r := if Reqb ratio 0 then 1 else ratio).
  assert (r <> 0) as Hr.
  { subst r. destruct (Reqb ratio 0) eqn:Hzero; [lra|].
    now apply Reqb_false. }
  pose proof (Math_round_nearest (rectWidth * r)) as Hw.
  pose proof (Math_round_nearest (rectHeight * r)) as Hh.
  split; [exact Hr|]. split; [exact Hw|]. split; [exact Hh|].
  intros Hwide Hratio.
  assert (1 / 2 <= r) as Hhalf.
  { subst r. destruct (Reqb ratio 0) eqn:Hzero; [lra|].
    apply Reqb_false in Hzero. destruct Hratio; [contradiction | assumption]. }
  pose proof (Rmax_r (IZR (Math_round (rectHeight * r)) - 40 * r * 2) r).
  assert (80 * r + 1 / 2 <= rectWidth * r) by nra.
  repeat split; lra.
Qed.
End RendererFacts.
(** ** Route editing *)

Section EditingFacts.
Local Open Scope Z_scope.
Context {engine : JsEngine}.

Lemma spliceStart_inside (len start : Z) :
  0 <= start <= len -> spliceStart len start = Z.to_nat start.
Proof.
  intros Hstart. unfold spliceStart.
  destruct (Z.ltb_spec start 0); [lia|]. now rewrite Z.min_l by lia.
Qed.

Lemma spliceStart_beyond (len start : Z) :
  0 <= len <= start -> spliceStart len start = Z.to_nat len.
Proof.
  intros Hstart. unfold spliceStart.
  destruct (Z.ltb_spec start 0); [lia|]. now rewrite Z.min_r by lia.
Qed.

Lemma target_in_range (toIndex : Z) (route : list Waypoint) :
  0 <= toIndex < Z.of_nat (length route) ->
  (toIndex <? 0) || (toIndex >=? Z.of_nat (length route)) = false.
Proof.
  intros Hto. apply orb_false_iff. split; [apply Z.ltb_ge; lia|].
  rewrite Z.geb_leb. apply Z.leb_gt. lia.
Qed.

Lemma moveWaypoint_run (fromIndex toIndex : nat) (route : list Waypoint)
    (waypoint : Waypoint) :
  route !! fromIndex = Some waypoint ->
  (toIndex < length route)%nat ->
  moveWaypoint (Z.of_nat fromIndex) (Z.of_nat toIndex) route =
  Edited (take toIndex (delete fromIndex route) ++
          waypoint :: drop toIndex (delete fromIndex route)).
Proof.
  intros Hitem Hto. pose proof (lookup_lt_Some _ _ _ Hitem) as Hfrom.
  unfold moveWaypoint. rewrite target_in_range by lia. cbv zeta.
  rewrite spliceStart_inside, Nat2Z.id by lia. rewrite Hitem.
  rewrite length_delete by eauto.
  rewrite spliceStart_inside, Nat2Z.id by lia. reflexivity.
Qed.

(** Whatever the indices, a move that is carried out only reorders. *)
Lemma moveWaypoint_Permutation (fromIndex toIndex : Z)
    (route route' : list Waypoint) :
  moveWaypoint fromIndex toIndex route = Edited route' -> route' ≡ₚ route.
Proof.
  unfold moveWaypoint.
  destruct ((toIndex <? 0) || (toIndex >=? Z.of_nat (length route)));
    [discriminate|].
  cbv zeta.
  destruct (route !! spliceStart (Z.of_nat (length route)) fromIndex)
    as [waypoint|] eqn:Hitem; [|discriminate].
  intros [= <-]. rewrite <- Permutation_middle, take_drop.
  symmetry. now apply delete_Permutation.
Qed.

(** X19.  [moveWaypoint] between two positions of the route.  The waypoint
    at [fromIndex] lands at [toIndex]; the other waypoints keep their
    order; the route is a permutation of what it was; and moving the
    waypoint back from [toIndex] to [fromIndex] restores the route. *)
Theorem moveWaypoint_reorders (fromIndex toIndex : nat)
    (route : list Waypoint) :
  (fromIndex < length route)%nat ->
  (toIndex < length route)%nat ->
  exists waypoint route',
    route !! fromIndex = Some waypoint /\
    moveWaypoint (Z.of_nat fromIndex) (Z.of_nat toIndex) route =
      Edited route' /\
    route' !! toIndex = Some waypoint /\
    delete toIndex route' = delete fromIndex route /\
    route' ≡ₚ route /\
    moveWaypoint (Z.of_nat toIndex) (Z.of_nat fromIndex) route' =
      Edited route.
Proof.
  intros Hfrom Hto.
  destruct (lookup_lt_is_Some_2 route fromIndex Hfrom) as [waypoint Hitem].
  pose proof (moveWaypoint_run _ _ _ _ Hitem Hto) as Hrun.
  set (rest := delete fromIndex route) in *.
  assert (length rest = (length route - 1)%nat) as Hrest
    by (apply length_delete; eauto).
  assert (length (take toIndex rest) = toIndex) as Htake
    by (apply length_take_le; lia).
  set (route' := take toIndex rest ++ waypoint :: drop toIndex rest) in *.
  assert (route' !! toIndex = Some waypoint) as Hlanded
    by (now apply list_lookup_middle).
  assert (delete toIndex route' = rest) as Hothers.
  { pose proof (delete_middle (take toIndex rest) (drop toIndex rest) waypoint)
      as Hdel.
    rewrite Htake in Hdel. subst route'. rewrite Hdel. apply take_drop. }
  exists waypoint, route'.
  split; [exact Hitem|]. split; [exact Hrun|]. split; [exact Hlanded|].
  split; [exact Hothers|].
  split; [exact (moveWaypoint_Permutation _ _ _ _ Hrun)|].
  assert (length route' = length route) as Hlen
    by (apply Permutation_length, (moveWaypoint_Permutation _ _ _ _ Hrun)).
  rewrite (moveWaypoint_run toIndex fromIndex route' waypoint Hlanded)
    by lia.
  rewrite Hothers. subst rest. rewrite delete_take_drop.
  assert (length (take fromIndex route) = fromIndex) as Hhead
    by (apply length_take_le; lia).
  rewrite take_app_length', drop_app_length' by (symmetry; exact Hhead).
  now rewrite take_drop_middle.
Qed.

(** X20.  What [moveWaypoint] checks and what it does not.  Only the target
    index is checked: outside the route it returns at once.  A source index
    at or beyond the end of the route is not caught: nothing is taken out,
    and [undefined] is put in at the target.  A negative source index counts
    from the end of the route, as [splice] has it. *)
Theorem moveWaypoint_checks_the_target_only (fromIndex toIndex : Z)
    (route : list Waypoint) :
  (toIndex < 0 \/ Z.of_nat (length route) <= toIndex ->
   moveWaypoint fromIndex toIndex route = Returned) /\
  (0 <= toIndex < Z.of_nat (length route) ->
   Z.of_nat (length route) <= fromIndex ->
   moveWaypoint fromIndex toIndex route =
   Corrupted (take (Z.to_nat toIndex) route) (drop (Z.to_nat toIndex) route)) /\
  (0 <= toIndex < Z.of_nat (length route) ->
   - Z.of_nat (length route) <= fromIndex < 0 ->
   moveWaypoint fromIndex toIndex route =
   moveWaypoint (Z.of_nat (length route) + fromIndex) toIndex route).
Proof.
  split; [|split].
  - intros Hto. unfold moveWaypoint.
    replace ((toIndex <? 0) || (toIndex >=? Z.of_nat (length route)))
      with true; [reflexivity|].
    symmetry. apply orb_true_iff. rewrite Z.geb_leb.
    destruct Hto; [left; apply Z.ltb_lt | right; apply Z.leb_le]; lia.
  - intros Hto Hfrom. unfold moveWaypoint.
    rewrite target_in_range by exact Hto. cbv zeta.
    rewrite spliceStart_beyond, Nat2Z.id by lia.
    rewrite lookup_ge_None_2 by lia.
    rewrite delete_take_drop.
    rewrite (take_ge route (length route)),
      (drop_ge route (S (length route))), app_nil_r by lia.
    rewrite spliceStart_inside by lia. reflexivity.
  - intros Hto Hfrom. unfold moveWaypoint.
    rewrite target_in_range by exact Hto. cbv zeta.
    replace (spliceStart (Z.of_nat (length route)) fromIndex)
      with (spliceStart (Z.of_nat (length route))
              (Z.of_nat (length route) + fromIndex)); [reflexivity|].
    rewrite spliceStart_inside by lia. unfold spliceStart.
    destruct (Z.ltb_spec fromIndex 0); [|lia]. now rewrite Z.max_l by lia.
Qed.

Lemma findIndex_first (predicate : Waypoint -> bool) (route : list Waypoint) :
  match findIndex predicate route with
  | None => Forall (fun wp => predicate wp = false) route
  | Some index =>
      exists before waypoint after,
        route = before ++ waypoint :: after /\
        length before = index /\
        Forall (fun wp => predicate wp = false) before /\
        predicate waypoint = true
  end.
Proof.
  induction route as [|wp rest IH]; cbn [findIndex]; [constructor|].
  destruct (predicate wp) eqn:Hwp.
  - exists [], wp, rest. repeat split; [constructor | exact Hwp].
  - destruct (findIndex predicate rest) as [index|]; cbn [option_map].
    + destruct IH as (before & waypoint & after & -> & <- & Hnone & Hhit).
      exists (wp :: before), waypoint, after.
      repeat split; [now constructor | exact Hhit].
    + now constructor.
Qed.

Lemma no_match_no_id (id0 : string) (route : list Waypoint) :
  Forall (fun wp => String.eqb (id wp) id0 = false) route <->
  id0 ∉ ids route.
Proof.
  unfold ids. induction route as [|wp rest IH]; cbn [map].
  - split; [intros _ Hin; inversion Hin | constructor].
  - rewrite Forall_cons, IH, not_elem_of_cons, String.eqb_neq.
    split; intros [H1 H2]; split; try assumption; congruence.
Qed.

Lemma ids_alter_assign (updates : Updates) (index : nat)
    (route : list Waypoint) :
  ids (alter (fun waypoint => Object_assign waypoint updates) index route) =
  ids route.
Proof.
  unfold ids. revert index.
  induction route as [|wp rest IH]; intros [|index]; cbn; try reflexivity.
  now rewrite IH.
Qed.

(** X21.  [updateWaypoint] changes the first waypoint that has the id, and
    nothing else: all waypoints before it have other ids, the waypoints
    after it are untouched even when they share the id, and the ids of the
    route stay as they were.  It returns early exactly when no waypoint has
    the id. *)
Theorem updateWaypoint_changes_the_first_match (id0 : string)
    (updates : Updates) (route : list Waypoint) :
  match updateWaypoint id0 updates route with
  | Returned => id0 ∉ ids route
  | Edited route' =>
      exists before waypoint after,
        route = before ++ waypoint :: after /\
        (id0 ∉ ids before) /\
        id waypoint = id0 /\
        route' = before ++ Object_assign waypoint updates :: after /\
        ids route' = ids route
  | Corrupted _ _ => False
  end.
Proof.
  unfold updateWaypoint.
  pose proof (findIndex_first (fun wp => String.eqb (id wp) id0) route)
    as Hfind.
  destruct (findIndex _ route) as [index|].
  - destruct Hfind as (before & waypoint & after & -> & <- & Hnone & Hhit).
    exists before, waypoint, after.
    split; [reflexivity|]. split; [now apply no_match_no_id|].
    split; [now apply String.eqb_eq|].
    split; [|apply ids_alter_assign].
    rewrite alter_app_r_alt by lia. now rewrite Nat.sub_diag.
  - now apply no_match_no_id.
Qed.

Lemma ids_filter (id0 : string) (route : list Waypoint) :
  ids (List.filter (fun wp => negb (String.eqb (id wp) id0)) route) =
  List.filter (fun i => negb (String.eqb i id0)) (ids route).
Proof.
  unfold ids. induction route as [|wp rest IH]; cbn; [reflexivity|].
  destruct (String.eqb (id wp) id0); cbn; now rewrite IH.
Qed.

Lemma filter_keeps_NoDup (id0 : string) (names : list string) :
  NoDup names ->
  NoDup (List.filter (fun i => negb (String.eqb i id0)) names).
Proof.
  induction 1 as [|name rest Hnew _ IH]; cbn; [constructor|].
  destruct (String.eqb name id0); cbn; [exact IH|].
  constructor; [|exact IH].
  intros Hin. apply Hnew.
  apply list_elem_of_In, filter_In in Hin as [Hin _].
  now apply list_elem_of_In.
Qed.

Lemma filter_removes_one (id0 : string) (names : list string) :
  NoDup names -> id0 ∈ names ->
  S (length (List.filter (fun i => negb (String.eqb i id0)) names)) =
  length names.
Proof.
  induction 1 as [|name rest Hnew Hrest IH]; intros Hin;
    [inversion Hin|].
  cbn. destruct (String.eqb_spec name id0) as [-> | Hother]; cbn.
  - f_equal. clear IH Hin Hrest.
    induction rest as [|other rest IH]; [reflexivity|].
    apply not_elem_of_cons in Hnew as [Hne Hnew]. cbn.
    destruct (String.eqb_spec other id0) as [-> | _]; [congruence|].
    cbn. f_equal. now apply IH.
  - f_equal. apply IH. apply elem_of_cons in Hin as [-> | Hin];
      [congruence | exact Hin].
Qed.

(** X22.  Unique ids stay unique.  On a route whose waypoints have different
    ids, every edit that is carried out leaves such a route, provided the
    id that [addWaypoint] generates is not in use.  On such a route
    [removeWaypoint] of an id in use takes out exactly one waypoint. *)
Theorem unique_ids_are_kept (edit : Edit) (route route' : list Waypoint) :
  NoDup (ids route) ->
  generatesFreshId edit route ->
  applyEdit edit route = Edited route' ->
  NoDup (ids route') /\
  (forall id0, edit = RemoveWaypoint id0 -> id0 ∈ ids route ->
     S (length route') = length route).
Proof.
  intros Hunique Hfresh Hrun.
  destruct edit as [generatedId type0 lat0 lon0 alt0 note0
                   | fromIndex toIndex | id0 updates | id0];
    cbn [applyEdit generatesFreshId] in *.
  - unfold addWaypoint in Hrun. injection Hrun as <-.
    split; [|discriminate].
    unfold ids in *. rewrite map_app. cbn [map id].
    apply NoDup_app. split; [exact Hunique|].
    split; [|apply NoDup_singleton].
    intros name Hin Hnew. apply list_elem_of_singleton in Hnew as ->.
    contradiction.
  - split; [|discriminate].
    apply moveWaypoint_Permutation in Hrun. unfold ids.
    now rewrite Hrun.
  - split; [|discriminate].
    unfold updateWaypoint in Hrun.
    destruct (findIndex _ route) as [index|]; [|discriminate].
    injection Hrun as <-. now rewrite ids_alter_assign.
  - unfold removeWaypoint in Hrun. injection Hrun as <-.
    split.
    + rewrite ids_filter. now apply filter_keeps_NoDup.
    + intros ? [= <-] Hin.
      pose proof (filter_removes_one id0 (ids route) Hunique Hin) as Hone.
      rewrite <- ids_filter in Hone. unfold ids in Hone.
      now rewrite !length_map in Hone.
Qed.

Lemma filter_without_match (id0 : string) (route : list Waypoint) :
  id0 ∉ ids route ->
  List.filter (fun wp => negb (String.eqb (id wp) id0)) route = route.
Proof.
  intros Habsent. apply no_match_no_id in Habsent.
  induction Habsent as [|wp rest Hwp _ IH]; cbn; [reflexivity|].
  now rewrite Hwp, IH.
Qed.

Lemma step_progress_keeps (sys : System) (ev : Event) :
  isProgress ev ->
  profileToken (fst (step sys ev)) = profileToken (fst sys) /\
  canvas (fst (step sys ev)) = canvas (fst sys) /\
  waypoints (fst (step sys ev)) = waypoints (fst sys) /\
  snd (step sys ev) = snd sys.
Proof.
  destruct sys as [st pending], ev as [route | cache fetched warnings | t o];
    cbn [isProgress]; try contradiction.
  intros _. cbn. repeat split.
Qed.

Lemma runEvents_progress_keeps (events : list Event) :
  Forall isProgress events ->
  forall sys : System,
    profileToken (fst (runEvents events sys)) = profileToken (fst sys) /\
    canvas (fst (runEvents events sys)) = canvas (fst sys) /\
    waypoints (fst (runEvents events sys)) = waypoints (fst sys) /\
    snd (runEvents events sys) = snd sys.
Proof.
  unfold runEvents. induction 1 as [|ev rest Hev _ IH]; intros sys;
    cbn [fold_left]; [repeat split|].
  destruct (IH (step sys ev)) as (-> & -> & -> & ->).
  now apply step_progress_keeps.
Qed.

(** X23.  Edits and refreshes.  An edit that is carried out leaves its route
    in the state and starts a refresh: while the counter can still count it
    is raised by one, and every invocation that captured its token earlier
    changes nothing on the canvas when it settles.  [updateWaypoint] of an
    id that no waypoint has leaves everything as it is, pending refreshes
    included; [removeWaypoint] of such an id restarts the refresh on the
    unchanged route. *)
Theorem edits_restart_the_refresh (edit : Edit) (sys : System) :
  (profileToken (fst sys) < 2 ^ 53) ->
  (forall route,
     applyEdit edit (waypoints (fst sys)) = Edited route ->
     exists sys',
       handleEdit edit sys = Some sys' /\
       waypoints (fst sys') = route /\
       profileToken (fst sys') = profileToken (fst sys) + 1 /\
       tileCache (fst sys') = tileCache (fst sys) /\
       forall token outcome,
         token <= profileToken (fst sys) ->
         canvas (fst (step sys' (SamplingSettled token outcome))) =
         canvas (fst sys')) /\
  (forall id0 updates,
     id0 ∉ ids (waypoints (fst sys)) ->
     handleEdit (UpdateWaypoint id0 updates) sys = Some sys /\
     handleEdit (RemoveWaypoint id0) sys =
       Some (step sys (RouteEdited (waypoints (fst sys))))).
Proof.
  intros Hroom. split.
  - intros route Hrun. exists (step sys (RouteEdited route)).
    unfold handleEdit. rewrite Hrun. split; [reflexivity|].
    assert (profileToken (fst (step sys (RouteEdited route))) =
            profileToken (fst sys) + 1) as Htoken.
    { rewrite route_edit_increments. unfold nextToken.
      destruct (Z.ltb_spec (profileToken (fst sys)) (2 ^ 53)); lia. }
    split; [|split; [exact Htoken|split]].
    + destruct sys as [st pending]. cbn [step fst].
      rewrite updateElevationProfile_begin_run. cbn [waypoints set_waypoints].
      destruct (length route <? 2)%nat; reflexivity.
    + destruct sys as [st pending]. cbn [step fst].
      rewrite updateElevationProfile_begin_run. cbn [waypoints set_waypoints].
      destruct (length route <? 2)%nat; reflexivity.
    + intros token outcome Hold. apply step_settle_superseded. lia.
  - intros id0 updates Habsent. unfold handleEdit. cbn [applyEdit]. split.
    + unfold updateWaypoint.
      pose proof (findIndex_first (fun wp => String.eqb (id wp) id0)
                    (waypoints (fst sys))) as Hfind.
      destruct (findIndex _ (waypoints (fst sys))) as [index|];
        [|reflexivity].
      destruct Hfind as (before & waypoint & after & Hroute & _ & _ & Hhit).
      exfalso. apply Habsent. rewrite Hroute. unfold ids.
      rewrite map_app. cbn [map]. apply elem_of_app. right.
      apply String.eqb_eq in Hhit. rewrite Hhit. now left.
    + unfold removeWaypoint. now rewrite filter_without_match.
Qed.

(** X24.  The most recent invocation draws.  After an edit has started a
    refresh on a route of two or more waypoints, and while only the sampler
    takes turns, the invocation is awaiting, and when its sampling settles
    it draws: the chart of the samples; or, after clearing the canvas, the
    failure message when the samples are more than the spreads of
    [drawElevationProfile] can pass; or the failure message when the
    sampling threw.  The route set by the edit is still in place. *)
Theorem latest_invocation_draws (sys : System) (route : list Waypoint)
    (progress : list Event) (outcome : Completion (list Sample)) :
  (2 <= length route)%nat ->
  Forall isProgress progress ->
  let begun := step sys (RouteEdited route) in
  let token := profileToken (fst begun) in
  let later := runEvents progress begun in
  token ∈ snd later /\
  waypoints (fst later) = route /\
  canvas (fst later) = canvas (fst sys) ++ [Placeholder msgComputing] /\
  fst (step later (SamplingSettled token outcome)) =
  settled outcome (fst later) /\
  canvas (fst (step later (SamplingSettled token outcome))) =
  canvas (fst later) ++
  match outcome with
  | Normal samples =>
      if tooManyArguments samples then [Cleared; Placeholder msgFailed]
      else [Profile (profileChart samples)]
  | Thrown _ => [Placeholder msgFailed]
  end.
Proof.
  intros Hlen Hprogress begun token later.
  destruct (runEvents_progress_keeps progress Hprogress begun)
    as (Htoken & Hcanvas & Hroute & Hpending).
  fold later in Htoken, Hcanvas, Hroute, Hpending.
  assert (begun =
          (started (set_waypoints (fun _ => route) (fst sys)),
           snd sys ++ [nextToken (profileToken (fst sys))])) as Hstarted.
  { subst begun. destruct sys as [st pending]. cbn [step fst snd].
    rewrite updateElevationProfile_begin_run. cbn [waypoints set_waypoints].
    replace (length route <? 2)%nat with false; [reflexivity|].
    symmetry. apply Nat.ltb_ge. exact Hlen. }
  assert (token = nextToken (profileToken (fst sys))) as Htok
    by (subst token; rewrite Hstarted; reflexivity).
  assert (token ∈ snd later) as Hawaiting.
  { rewrite Hpending, Hstarted. cbn [snd]. rewrite <- Htok.
    apply elem_of_app. right. now left. }
  split; [exact Hawaiting|].
  split; [rewrite Hroute, Hstarted; reflexivity|].
  split; [rewrite Hcanvas, Hstarted; reflexivity|].
  assert (fst (step later (SamplingSettled token outcome)) =
          settled outcome (fst later)) as Hsettled.
  { destruct later as [st pending] eqn:Hlater. cbn [step fst snd] in *.
    rewrite bool_decide_eq_true_2 by exact Hawaiting. cbn [fst].
    replace token with (profileToken st) by (now rewrite Htoken).
    now rewrite resume_current. }
  split; [exact Hsettled|]. rewrite Hsettled. unfold settled.
  destruct outcome as [samples | e]; [|reflexivity].
  destruct (tooManyArguments samples); cbn [canvas set_canvas set_console];
    [now rewrite <- app_assoc | reflexivity].
Qed.
End EditingFacts.
(** ** Flight plan files *)

Section PlanFacts.
Local Open Scope R_scope.

Lemma forallb_same {A : Type} (f g : A -> bool) (l : list A) :
  (forall a, f a = g a) -> forallb f l = forallb g l.
Proof.
  intros Hsame. induction l as [|a rest IH]; [reflexivity|].
  cbn [forallb]. now rewrite Hsame, IH.
Qed.

Lemma validate_object (required : list string)
    (properties : list (string * Schema)) (members : list (string * Json)) :
  validate (ObjectSchema required properties) (JObject members) =
  forallb (fun key => hasKey key members) required &&
  forallb (fun member : string * Json =>
             match propertyOf (fst member) properties with
             | Some property => validate property (snd member)
             | None => false
             end) members.
Proof.
  cbn [validate]. f_equal. apply forallb_same. intros member.
  induction properties as [|[key property] others IH]; [reflexivity|].
  cbn [propertyOf]. destruct (String.eqb (fst member) key); [reflexivity|].
  exact IH.
Qed.

Lemma field_In (key : string) (members : list (string * Json)) (value : Json) :
  field key members = Some value -> In (key, value) members.
Proof.
  induction members as [|[name v] rest IH]; cbn [field]; [discriminate|].
  destruct (String.eqb_spec name key) as [-> | _].
  - intros [= ->]. now left.
  - intros Hrest. right. now apply IH.
Qed.

Lemma hasKey_field (key : string) (members : list (string * Json)) :
  hasKey key members = true -> exists value, field key members = Some value.
Proof.
  unfold hasKey.
  induction members as [|[name v] rest IH]; cbn [existsb field fst];
    [discriminate|].
  destruct (String.eqb name key); [intros _; now exists v|]. exact IH.
Qed.

(** A required key of a valid object is there, and its value is valid
    against the schema that [properties] gives for it. *)
Lemma valid_object_field (required : list string)
    (properties : list (string * Schema)) (members : list (string * Json))
    (key : string) :
  validate (ObjectSchema required properties) (JObject members) = true ->
  In key required ->
  exists value property,
    field key members = Some value /\
    propertyOf key properties = Some property /\
    validate property value = true.
Proof.
  rewrite validate_object. intros Hvalid Hrequired.
  apply andb_true_iff in Hvalid as [Hkeys Hmembers].
  rewrite forallb_forall in Hkeys, Hmembers.
  destruct (hasKey_field key members (Hkeys key Hrequired)) as [value Hfield].
  specialize (Hmembers (key, value) (field_In _ _ _ Hfield)).
  cbn [fst snd] in Hmembers.
  destruct (propertyOf key properties) as [property|]; [|discriminate].
  now exists value, property.
Qed.

Lemma valid_number (minimum maximum : option R) (value : Json) :
  validate (NumberSchema minimum maximum) value = true ->
  exists x, value = JNumber x /\
            atLeast minimum x = true /\ atMost maximum x = true.
Proof.
  destruct value; cbn [validate]; try discriminate.
  intros Hvalid. apply andb_true_iff in Hvalid. now exists x.
Qed.

Lemma valid_string (const : option string) (enum : option (list string))
    (value : Json) :
  validate (StringSchema const enum) value = true ->
  exists s, value = JString s /\
            isConst const s = true /\ inEnum enum s = true.
Proof.
  destruct value; cbn [validate]; try discriminate.
  intros Hvalid. apply andb_true_iff in Hvalid. now exists s.
Qed.

Lemma valid_waypoint (value : Json) :
  validate waypointSchema value = true -> acceptableWaypoint value.
Proof.
  intros Hvalid. unfold waypointSchema in Hvalid.
  destruct value as [| | | |items|members];
    try (cbn [validate] in Hvalid; discriminate).
  pose proof (fun key => valid_object_field _ _ members key Hvalid) as Hfield.
  destruct (Hfield "id"%string) as (v1 & p1 & F1 & P1 & V1);
    [cbn; tauto|].
  destruct (Hfield "type"%string) as (v2 & p2 & F2 & P2 & V2);
    [cbn; tauto|].
  destruct (Hfield "latitude"%string) as (v3 & p3 & F3 & P3 & V3);
    [cbn; tauto|].
  destruct (Hfield "longitude"%string) as (v4 & p4 & F4 & P4 & V4);
    [cbn; tauto|].
  destruct (Hfield "altitude"%string) as (v5 & p5 & F5 & P5 & V5);
    [cbn; tauto|].
  cbn in P1, P2, P3, P4, P5.
  injection P1 as <-. injection P2 as <-. injection P3 as <-.
  injection P4 as <-. injection P5 as <-.
  apply valid_string in V1 as (id0 & -> & _ & _).
  apply valid_string in V2 as (type0 & -> & _ & Htype).
  apply valid_number in V3 as (latitude0 & -> & Hlat1 & Hlat2).
  apply valid_number in V4 as (longitude0 & -> & Hlon1 & Hlon2).
  apply valid_number in V5 as (altitude0 & -> & Halt & _).
  cbn [atLeast atMost] in *.
  apply Rleb_true in Hlat1, Hlat2, Hlon1, Hlon2, Halt.
  exists members, id0, type0, latitude0, longitude0, altitude0.
  repeat split; try assumption.
  cbn [inEnum] in Htype. apply existsb_exists in Htype as (key & Hin & Heq).
  apply String.eqb_eq in Heq. now subst.
Qed.

Lemma valid_waypointObject (wp : Waypoint) :
  validate waypointSchema (waypointObject wp) = true <-> waypointInRange wp.
Proof.
  unfold waypointSchema, waypointObject. rewrite validate_object.
  cbn [forallb hasKey existsb fst snd propertyOf String.eqb Ascii.eqb
       Bool.eqb validate isConst inEnum atLeast atMost andb orb].
  assert (existsb (String.eqb (typeKey (type wp))) typeKeys = true) as ->
    by (destruct (type wp); reflexivity).
  cbn [andb]. unfold waypointInRange.
  rewrite !andb_true_iff, !Rleb_true. intuition (try reflexivity).
Qed.

Lemma valid_planFile (route : list Waypoint) :
  validatePlan (planFile route) = true <->
  (2 <= length route)%nat /\ Forall waypointInRange route.
Proof.
  unfold validatePlan, planFile, planSchema. rewrite validate_object.
  cbn [forallb hasKey existsb fst snd propertyOf String.eqb Ascii.eqb
       Bool.eqb isConst inEnum andb orb].
  cbn [validate isConst inEnum andb String.eqb Ascii.eqb Bool.eqb].
  rewrite !andb_true_r, andb_true_iff, length_map, Nat.leb_le.
  rewrite forallb_forall, List.Forall_forall.
  split; intros [Hlen Hall]; (split; [exact Hlen|]).
  - intros wp Hin. apply valid_waypointObject, Hall. now apply in_map.
  - intros value Hin. apply in_map_iff in Hin as (wp & <- & Hin).
    now apply valid_waypointObject, Hall.
Qed.

Lemma saved_plan_is_invalid (generatedAt : string) (route : list Waypoint) :
  validatePlan (savedPlan generatedAt route) = false.
Proof.
  unfold validatePlan, savedPlan, planSchema. rewrite validate_object.
  apply andb_false_iff. right.
  cbn [forallb fst snd propertyOf String.eqb Ascii.eqb Bool.eqb andb].
  cbn [validate isConst inEnum andb String.eqb Ascii.eqb Bool.eqb].
  reflexivity.
Qed.

(** X25.  [handleSavePlan] never reaches the download.  With fewer than two
    waypoints it stops at the first alert; with two or more, the plan it
    builds carries the key [generatedAt], which [planSchema] does not list
    while [additionalProperties] is [false], so that [validatePlan] fails
    on it whatever the route.  [handleLoadPlan] rejects the same object. *)
Theorem handleSavePlan_never_downloads (generatedAt : string)
    (route : list Waypoint) :
  handleSavePlan generatedAt route =
    (if (length route <? 2)%nat then TooFewWaypoints else PlanRejected) /\
  handleLoadPlan (Some (savedPlan generatedAt route)) = FileRejected.
Proof.
  unfold handleSavePlan, handleLoadPlan. cbv zeta.
  rewrite saved_plan_is_invalid. cbn [negb].
  now destruct (length route <? 2)%nat.
Qed.

(** X26.  What [handleLoadPlan] lets in.  Whatever it loads has two or more
    waypoints, each an object with a string [id], a [type] among the five
    keys, a [latitude] in [-90, 90], a [longitude] in [-180, 180] and an
    [altitude] that is not negative.  A plan file for a route of the editor
    (the keys [version], [vehicleType], [description] and [waypoints]) is
    loaded exactly when the route has two or more waypoints in those
    ranges, and then the waypoints loaded are those of the route. *)
Theorem handleLoadPlan_lets_in (json : Json) (route : list Waypoint) :
  (forall loaded,
     handleLoadPlan (Some json) = Loaded loaded ->
     (2 <= length loaded)%nat /\ Forall acceptableWaypoint loaded) /\
  ((2 <= length route)%nat /\ Forall waypointInRange route <->
   handleLoadPlan (Some (planFile route)) = Loaded (map waypointObject route)) /\
  (forall loaded,
     handleLoadPlan (Some (planFile route)) = Loaded loaded ->
     loaded = map waypointObject route).
Proof.
  split; [|split].
  - intros loaded. unfold handleLoadPlan.
    destruct (validatePlan json) eqn:Hvalid; cbn [negb]; [|discriminate].
    destruct json as [| | | |items|members]; try discriminate.
    unfold validatePlan, planSchema in Hvalid.
    destruct (valid_object_field _ _ members "waypoints"%string Hvalid)
      as (value & property & Hfield & Hproperty & Hvalue); [cbn; tauto|].
    rewrite Hfield. cbn in Hproperty. injection Hproperty as <-.
    destruct value as [| | | |items|]; try discriminate.
    intros [= <-]. cbn [validate] in Hvalue.
    apply andb_true_iff in Hvalue as [Hlen Hitems].
    split; [now apply Nat.leb_le|].
    rewrite forallb_forall in Hitems. apply List.Forall_forall.
    intros value Hin. now apply valid_waypoint, Hitems.
  - rewrite <- valid_planFile. unfold handleLoadPlan.
    destruct (validatePlan (planFile route)); cbn [negb].
    + split; [intros _; reflexivity | reflexivity].
    + split; discriminate.
  - intros loaded. unfold handleLoadPlan.
    destruct (validatePlan (planFile route)); cbn [negb]; [|discriminate].
    cbn. now intros [= <-].
Qed.
End PlanFacts.

(** ** The markers of the map *)

Section MarkerFacts.
Local Open Scope nat_scope.

Lemma Map_set_new (key : string) (value : Marker)
    (entries : list (string * Marker)) :
  ~ In key (map fst entries) ->
  Map_set key value entries = entries ++ [(key, value)].
Proof.
  induction entries as [|[k v] rest IH]; cbn [Map_set map fst];
    [reflexivity|].
  intros Hnew. destruct (String.eqb_spec k key) as [-> | _].
  - exfalso. apply Hnew. now left.
  - cbn. f_equal. apply IH. intros Hin. apply Hnew. now right.
Qed.

Lemma Map_set_In (key : string) (value : Marker)
    (entries : list (string * Marker)) (k : string) (v : Marker) :
  In (k, v) (Map_set key value entries) ->
  (k = key /\ v = value) \/ In (k, v) entries.
Proof.
  induction entries as [|[k0 v0] rest IH]; cbn [Map_set].
  - intros [[= <- <-] | []]. now left.
  - destruct (String.eqb_spec k0 key) as [-> | _].
    + intros [[= <- <-] | Hin]; [now left | right; now right].
    + intros [Heq | Hin]; [right; now left|].
      destruct (IH Hin) as [Hnew | Hold]; [now left | right; now right].
Qed.

Lemma Map_set_In_other (key : string) (value : Marker)
    (entries : list (string * Marker)) (k : string) (v : Marker) :
  List.NoDup (map fst entries) ->
  In (k, v) (Map_set key value entries) ->
  (k = key /\ v = value) \/ (k <> key /\ In (k, v) entries).
Proof.
  induction entries as [|[k0 v0] rest IH]; cbn [Map_set map fst].
  - intros _ [[= <- <-] | []]. now left.
  - intros Hkeys. inversion Hkeys as [|? ? Hfirst Hrest]; subst.
    destruct (String.eqb_spec k0 key) as [-> | Hother].
    + intros [[= <- <-] | Hin]; [now left|]. right. split; [|now right].
      intros ->. apply Hfirst. now apply (in_map fst _ (key, v)).
    + intros [[= <- <-] | Hin]; [right; split; [exact Hother | now left]|].
      destruct (IH Hrest Hin) as [Hnew | [Hne Hold]]; [now left|].
      right. split; [exact Hne | now right].
Qed.

Lemma Map_set_keys (key : string) (value : Marker)
    (entries : list (string * Marker)) :
  List.NoDup (map fst entries) ->
  List.NoDup (map fst (Map_set key value entries)).
Proof.
  induction entries as [|[k0 v0] rest IH]; cbn [Map_set map fst].
  - intros _. repeat constructor. intros [].
  - intros Hkeys. inversion Hkeys as [|? ? Hfirst Hrest]; subst.
    destruct (String.eqb_spec k0 key) as [-> | Hother]; cbn [map fst].
    + now constructor.
    + constructor; [|now apply IH].
      intros Hin. apply in_map_iff in Hin as ([k v] & Hk & Hin).
      cbn in Hk. subst k.
      destruct (Map_set_In _ _ _ _ _ Hin) as [[Heq _] | Hold];
        [congruence|].
      apply Hfirst. now apply (in_map fst _ (k0, v)).
Qed.

Lemma isTracked_false (view : MapView) (marker : Marker) :
  isTracked view marker = false <->
  forall k v, In (k, v) (markers view) -> serial v <> serial marker.
Proof.
  unfold isTracked. split.
  - intros Hnone k v Hin Heq.
    assert (existsb (fun entry => Nat.eqb (serial (snd entry)) (serial marker))
              (markers view) = true) as Hsome; [|congruence].
    apply existsb_exists. exists (k, v). split; [exact Hin|].
    now apply Nat.eqb_eq.
  - intros Hall. apply not_true_is_false. intros Hsome.
    apply existsb_exists in Hsome as ([k v] & Hin & Heq).
    apply Nat.eqb_eq in Heq. exact (Hall k v Hin Heq).
Qed.

Lemma removeMarkers_clears (view : MapView) :
  allTracked view -> shown (removeMarkers view) = [].
Proof.
  unfold allTracked, removeMarkers. cbn [shown].
  induction 1 as [|marker rest Hmarker _ IH]; cbn [List.filter];
    [reflexivity|].
  now rewrite Hmarker.
Qed.

(** The second loop on a route with new, different ids. *)
Lemma placeMarkers_run (route : list Waypoint) :
  forall view : MapView,
    List.NoDup (map fst (markers view) ++ ids route) ->
    fold_left placeMarker route view =
    {| shown := shown view ++ markersFrom (created view) route;
       markers := markers view ++
                  combine (ids route) (markersFrom (created view) route);
       created := created view + length route |}.
Proof.
  induction route as [|wp rest IH]; intros view Hkeys.
  - cbn. rewrite !app_nil_r, Nat.add_0_r. now destruct view.
  - assert (~ In (id wp) (map fst (markers view))) as Hnew.
    { apply NoDup_remove_2 in Hkeys. intros Hin. apply Hkeys.
      apply in_or_app. now left. }
    cbn [fold_left]. rewrite IH.
    + unfold placeMarker. cbn [shown markers created].
      rewrite (Map_set_new _ _ _ Hnew).
      rewrite <- !app_assoc. cbn [app ids map combine markersFrom length].
      f_equal. lia.
    + unfold placeMarker. cbn [markers].
      rewrite (Map_set_new _ _ _ Hnew).
      rewrite map_app. cbn [map fst]. rewrite <- app_assoc. exact Hkeys.
Qed.

Lemma markersFrom_length (route : list Waypoint) :
  forall count, length (markersFrom count route) = length route.
Proof. induction route as [|wp rest IH]; intros count; cbn; congruence. Qed.

Lemma markersFrom_ids (route : list Waypoint) :
  forall count, map waypointId (markersFrom count route) = ids route.
Proof.
  induction route as [|wp rest IH]; intros count; cbn; [reflexivity|].
  f_equal. apply IH.
Qed.

Lemma markersFrom_positions (route : list Waypoint) :
  forall count,
    map lngLat (markersFrom count route) =
    map (fun wp => (longitude wp, latitude wp)) route.
Proof.
  induction route as [|wp rest IH]; intros count; cbn; [reflexivity|].
  f_equal. apply IH.
Qed.

Lemma combine_snd {A B : Type} (l : list A) (k : list B) :
  length l = length k -> map snd (combine l k) = k.
Proof.
  revert k. induction l as [|a l IH]; intros [|b k]; cbn; try congruence.
  intros [= Hlen]. f_equal. now apply IH.
Qed.

Lemma combine_fst {A B : Type} (l : list A) (k : list B) :
  length l = length k -> map fst (combine l k) = l.
Proof.
  revert k. induction l as [|a l IH]; intros [|b k]; cbn; try congruence.
  intros [= Hlen]. f_equal. now apply IH.
Qed.

(** X27.  With different ids every marker is accounted for.  When the ids
    of the route are all different and every marker on the map is
    remembered in [state.markers], [refreshMarkers] leaves exactly one
    marker per waypoint on the map, in route order and at the waypoint's
    position, each remembered under its waypoint's id and wired to that id;
    and again every marker on the map is remembered. *)
Theorem unique_ids_track_every_marker (route : list Waypoint)
    (view : MapView) :
  List.NoDup (ids route) ->
  allTracked view ->
  let view' := refreshMarkers route view in
  shown view' = markersFrom (created view) route /\
  map snd (markers view') = shown view' /\
  map fst (markers view') = ids route /\
  map lngLat (shown view') =
    map (fun wp => (longitude wp, latitude wp)) route /\
  map waypointId (shown view') = ids route /\
  allTracked view'.
Proof.
  intros Hids Htracked view'. subst view'. unfold refreshMarkers.
  rewrite placeMarkers_run by exact Hids.
  pose proof (removeMarkers_clears view Htracked) as Hclear.
  cbn [shown markers created removeMarkers] in *.
  rewrite Hclear. cbn [app].
  assert (length (ids route) = length (markersFrom (created view) route))
    as Hlen by (unfold ids; now rewrite length_map, markersFrom_length).
  split; [reflexivity|].
  split; [now apply combine_snd|].
  split; [now apply combine_fst|].
  split; [apply markersFrom_positions|].
  split; [apply markersFrom_ids|].
  unfold allTracked. cbn [shown]. apply List.Forall_forall.
  intros marker Hin. unfold isTracked. cbn [markers].
  apply existsb_exists.
  rewrite <- (combine_snd (ids route) (markersFrom (created view) route) Hlen)
    in Hin.
  apply in_map_iff in Hin as (entry & <- & Hin).
  exists entry. split; [exact Hin | apply Nat.eqb_refl].
Qed.

Lemma placeMarker_counted (view : MapView) (wp : Waypoint) :
  countedMarkers view -> countedMarkers (placeMarker view wp).
Proof.
  intros [Hshown Hmarkers]. unfold countedMarkers, placeMarker.
  cbn [shown markers created].
  rewrite List.Forall_forall in Hshown, Hmarkers. split.
  - apply List.Forall_forall. intros marker Hin.
    apply in_app_or in Hin as [Hin | [<- | []]]; [|cbn; lia].
    specialize (Hshown _ Hin). lia.
  - apply List.Forall_forall. intros [k v] Hin.
    destruct (Map_set_In _ _ _ _ _ Hin) as [[_ ->] | Hold];
      [cbn; lia|].
    specialize (Hmarkers _ Hold). cbn in *. lia.
Qed.

Lemma placeMarker_keeps_untracked (view : MapView) (wp : Waypoint)
    (marker : Marker) :
  serial marker < created view ->
  isTracked view marker = false ->
  isTracked (placeMarker view wp) marker = false.
Proof.
  rewrite !isTracked_false. intros Hold Hnone k v Hin.
  unfold placeMarker in Hin. cbn [markers] in Hin.
  destruct (Map_set_In _ _ _ _ _ Hin) as [[_ ->] | Hin'];
    [cbn; lia | now apply (Hnone k v)].
Qed.

(** What the second loop keeps: the keys stay different, the count stays
    ahead, markers on the map stay there, and a marker that is on the map
    without being remembered stays so. *)
Lemma placeMarkers_keep (route : list Waypoint) :
  forall view : MapView,
    countedMarkers view ->
    List.NoDup (map fst (markers view)) ->
    countedMarkers (fold_left placeMarker route view) /\
    List.NoDup (map fst (markers (fold_left placeMarker route view))) /\
    created view <= created (fold_left placeMarker route view) /\
    (forall marker,
       In marker (shown view) ->
       In marker (shown (fold_left placeMarker route view))) /\
    (forall marker,
       serial marker < created view ->
       isTracked view marker = false ->
       isTracked (fold_left placeMarker route view) marker = false).
Proof.
  induction route as [|wp rest IH]; intros view Hcounted Hkeys;
    cbn [fold_left];
    [split; [exact Hcounted | repeat split; auto] |].
  destruct (IH (placeMarker view wp)) as (Hc & Hk & Hn & Hs & Hu).
  - now apply placeMarker_counted.
  - unfold placeMarker. cbn [markers]. now apply Map_set_keys.
  - split; [exact Hc|]. split; [exact Hk|].
    split; [cbn [placeMarker created] in Hn; lia|]. split.
    + intros marker Hin. apply Hs. unfold placeMarker. cbn [shown].
      apply in_or_app. now left.
    + intros marker Hold Hnone. apply Hu.
      * cbn [placeMarker created]. lia.
      * now apply placeMarker_keeps_untracked.
Qed.

(** The entries that hold an older marker stay under the key they had. *)
Lemma placeMarkers_own (count : nat) (key : string) (route : list Waypoint) :
  forall view : MapView,
    count < created view ->
    (forall k v, In (k, v) (markers view) -> serial v = count -> k = key) ->
    forall k v,
      In (k, v) (markers (fold_left placeMarker route view)) ->
      serial v = count -> k = key.
Proof.
  induction route as [|wp rest IH]; intros view Hcount Hown;
    cbn [fold_left]; [exact Hown|].
  apply IH; [cbn [placeMarker created]; lia|].
  intros k v Hin Hserial. unfold placeMarker in Hin. cbn [markers] in Hin.
  destruct (Map_set_In _ _ _ _ _ Hin) as [[_ ->] | Hold].
  - cbn in Hserial. lia.
  - exact (Hown k v Hold Hserial).
Qed.

Lemma removeMarkers_counted (view : MapView) :
  countedMarkers view -> countedMarkers (removeMarkers view).
Proof.
  intros [Hshown _]. unfold countedMarkers, removeMarkers.
  cbn [shown markers created]. split; [|constructor].
  rewrite List.Forall_forall in Hshown. apply List.Forall_forall.
  intros marker Hin. apply filter_In in Hin as [Hin _]. now apply Hshown.
Qed.

(** A marker that is on the map without being remembered survives a
    refresh, and then every further one. *)
Lemma orphan_survives (route : list Waypoint) (view : MapView)
    (marker : Marker) :
  countedMarkers view ->
  In marker (shown view) ->
  isTracked view marker = false ->
  countedMarkers (refreshMarkers route view) /\
  In marker (shown (refreshMarkers route view)) /\
  isTracked (refreshMarkers route view) marker = false.
Proof.
  intros Hcounted Hin Hnone. unfold refreshMarkers.
  destruct (placeMarkers_keep route (removeMarkers view))
    as (Hc & _ & _ & Hs & Hu).
  - now apply removeMarkers_counted.
  - constructor.
  - split; [exact Hc|]. split.
    + apply Hs. unfold removeMarkers. cbn [shown]. apply filter_In.
      split; [exact Hin | now rewrite Hnone].
    + apply Hu; [|reflexivity].
      destruct Hcounted as [Hshown _]. rewrite List.Forall_forall in Hshown.
      exact (Hshown marker Hin).
Qed.

Lemma orphan_survives_all (later : list (list Waypoint)) (marker : Marker) :
  forall view : MapView,
    countedMarkers view ->
    In marker (shown view) ->
    isTracked view marker = false ->
    In marker (shown (fold_left (fun v r => refreshMarkers r v) later view)).
Proof.
  induction later as [|route rest IH]; intros view Hcounted Hin Hnone;
    cbn [fold_left]; [exact Hin|].
  destruct (orphan_survives route view marker Hcounted Hin Hnone)
    as (Hc & Hs & Hu).
  now apply IH.
Qed.

Lemma repeated_id (route : list Waypoint) :
  ~ List.NoDup (ids route) ->
  exists before a between b after,
    route = before ++ a :: between ++ b :: after /\ id a = id b.
Proof.
  induction route as [|wp rest IH]; intros Hdup.
  - exfalso. apply Hdup. constructor.
  - destruct (in_dec String.string_dec (id wp) (ids rest)) as [Hin | Hnew].
    + unfold ids in Hin. apply in_map_iff in Hin as (b & Hid & Hin).
      apply in_split in Hin as (between & after & ->).
      now exists [], wp, between, b, after.
    + destruct IH as (before & a & between & b & after & -> & Hid).
      * intros Hrest. apply Hdup. cbn. now constructor.
      * now exists (wp :: before), a, between, b, after.
Qed.

(** The second loop across a repeated id: the marker of the first of the
    two waypoints is on the map and no longer remembered. *)
Lemma repeated_id_orphan (before between after : list Waypoint)
    (a b : Waypoint) (view : MapView) :
  countedMarkers view ->
  List.NoDup (map fst (markers view)) ->
  id a = id b ->
  exists marker,
    countedMarkers
      (fold_left placeMarker (before ++ a :: between ++ b :: after) view) /\
    In marker
      (shown (fold_left placeMarker
                (before ++ a :: between ++ b :: after) view)) /\
    isTracked
      (fold_left placeMarker (before ++ a :: between ++ b :: after) view)
      marker = false.
Proof.
  intros Hc0 Hk0 Hid.
  rewrite fold_left_app. cbn [fold_left].
  rewrite fold_left_app. cbn [fold_left].
  destruct (placeMarkers_keep before view Hc0 Hk0) as (Hc1 & Hk1 & _).
  set (v1 := fold_left placeMarker before view) in *.
  set (marker := newMarker (created v1) a).
  assert (countedMarkers (placeMarker v1 a)) as Hc2
    by now apply placeMarker_counted.
  assert (List.NoDup (map fst (markers (placeMarker v1 a)))) as Hk2
    by (unfold placeMarker; cbn [markers]; now apply Map_set_keys).
  assert (In marker (shown (placeMarker v1 a))) as Hs2
    by (unfold placeMarker; cbn [shown]; apply in_or_app; right; now left).
  assert (forall k v, In (k, v) (markers (placeMarker v1 a)) ->
                      serial v = created v1 -> k = id a) as Hown2.
  { intros k v Hin Hserial. unfold placeMarker in Hin. cbn [markers] in Hin.
    destruct (Map_set_In _ _ _ _ _ Hin) as [[-> _] | Hold]; [reflexivity|].
    destruct Hc1 as [_ Hm]. rewrite List.Forall_forall in Hm.
    specialize (Hm _ Hold). cbn in Hm. lia. }
  set (v2 := placeMarker v1 a) in *.
  assert (created v1 < created v2) as Hn2 by (subst v2; cbn; lia).
  destruct (placeMarkers_keep between v2 Hc2 Hk2)
    as (Hc3 & Hk3 & Hn3 & Hs3 & _).
  pose proof (placeMarkers_own (created v1) (id a) between v2 Hn2 Hown2)
    as Hown3.
  set (v3 := fold_left placeMarker between v2) in *.
  assert (countedMarkers (placeMarker v3 b)) as Hc4
    by now apply placeMarker_counted.
  assert (List.NoDup (map fst (markers (placeMarker v3 b)))) as Hk4
    by (unfold placeMarker; cbn [markers]; now apply Map_set_keys).
  assert (isTracked (placeMarker v3 b) marker = false) as Hu4.
  { apply isTracked_false. intros k v Hin Hserial.
    change (serial marker) with (created v1) in Hserial.
    unfold placeMarker in Hin. cbn [markers] in Hin.
    destruct (Map_set_In_other _ _ _ _ _ Hk3 Hin) as [[_ ->] | [Hne Hold]].
    - cbn in Hserial. lia.
    - apply Hne. rewrite <- Hid. exact (Hown3 k v Hold Hserial). }
  assert (In marker (shown (placeMarker v3 b))) as Hs4.
  { unfold placeMarker. cbn [shown]. apply in_or_app. left.
    now apply Hs3. }
  set (v4 := placeMarker v3 b) in *.
  destruct (placeMarkers_keep after v4 Hc4 Hk4) as (Hc5 & _ & _ & Hs5 & Hu5).
  exists marker. split; [exact Hc5|]. split; [now apply Hs5|].
  apply Hu5; [|exact Hu4].
  change (serial marker) with (created v1). subst v4.
  cbn [placeMarker created]. lia.
Qed.

(** X28.  A repeated id leaks a marker.  When two waypoints of the route
    have the same id (the schema of plan files does not exclude it),
    [refreshMarkers] leaves a marker on the map that [state.markers] does
    not remember; no later refresh takes it off the map, whatever the
    routes. *)
Theorem repeated_id_leaks_a_marker (route : list Waypoint)
    (view : MapView) :
  countedMarkers view ->
  ~ List.NoDup (ids route) ->
  exists marker,
    In marker (shown (refreshMarkers route view)) /\
    isTracked (refreshMarkers route view) marker = false /\
    forall later : list (list Waypoint),
      In marker
        (shown (fold_left (fun v r => refreshMarkers r v) later
                  (refreshMarkers route view))).
Proof.
  intros Hcounted Hdup.
  destruct (repeated_id route Hdup)
    as (before & a & between & b & after & -> & Hid).
  destruct (repeated_id_orphan before between after a b (removeMarkers view)
              (removeMarkers_counted view Hcounted)
              ltac:(constructor) Hid)
    as (marker & Hc & Hs & Hu).
  exists marker. unfold refreshMarkers at 1 2.
  split; [exact Hs|]. split; [exact Hu|].
  intros later. now apply orphan_survives_all.
Qed.
End MarkerFacts.


(** ** The token counter at its limit *)

Section TokenFacts.
Local Open Scope Z_scope.
Context {engine : JsEngine}.

Lemma removeFirst_app (token : Z) (pending more : list Z) :
  token ∈ pending ->
  removeFirst token (pending ++ more) = removeFirst token pending ++ more.
Proof.
  induction pending as [|t rest IH]; intros Hin.
  - now apply elem_of_nil in Hin.
  - cbn [app removeFirst]. destruct (Z.eqb_spec t token) as [-> | Hne];
      [reflexivity|].
    apply elem_of_cons in Hin as [-> | Hin]; [contradiction|].
    now rewrite (IH Hin).
Qed.

(** X29.  The bound on the counter cannot be dropped.  At [2 ^ 53] the
    increment no longer changes [state.profileToken]: a route edit leaves
    the counter where it was, and an invocation that captured [2 ^ 53]
    before the edit still finds its token current when it settles, and
    draws over the placeholder of the newer refresh: the chart of its
    samples when the spreads of [drawElevationProfile] can pass them, the
    failure message otherwise.  On a route of two or more waypoints the
    newer invocation, which captured [2 ^ 53] as well, is still awaiting
    after that, and draws in its turn when it settles. *)
Theorem saturated_counter_lets_a_stale_refresh_draw (st : State)
    (pending : list Z) (route : list Waypoint) (samples : list Sample) :
  profileToken st = 2 ^ 53 ->
  2 ^ 53 ∈ pending ->
  let later := step (st, pending) (RouteEdited route) in
  let once := step later (SamplingSettled (2 ^ 53) (Normal samples)) in
  profileToken (fst later) = 2 ^ 53 /\
  waypoints (fst later) = route /\
  fst once = settled (Normal samples) (fst later) /\
  (tooManyArguments samples = false ->
   canvas (fst once) = canvas (fst later) ++ [Profile (profileChart samples)]) /\
  (tooManyArguments samples = true ->
   canvas (fst once) = canvas (fst later) ++ [Cleared; Placeholder msgFailed]) /\
  ((2 <= length route)%nat ->
   2 ^ 53 ∈ snd once /\
   forall outcome,
     fst (step once (SamplingSettled (2 ^ 53) outcome)) =
     settled outcome (fst once)).
Proof.
  intros Hfull Hawaiting later once.
  assert (profileToken (fst later) = 2 ^ 53) as Htoken.
  { subst later. rewrite route_edit_increments. cbn [fst].
    rewrite Hfull. reflexivity. }
  assert (2 ^ 53 ∈ snd later /\ waypoints (fst later) = route /\
          ((2 <= length route)%nat -> snd later = pending ++ [2 ^ 53]))
    as (Hstill & Hroute & Hnewer).
  { subst later. cbn [step]. rewrite updateElevationProfile_begin_run.
    cbn [waypoints set_waypoints].
    destruct (Nat.ltb_spec (length route) 2); cbn [fst snd].
    - split; [exact Hawaiting|]. split; [reflexivity | lia].
    - split; [apply elem_of_app; now left|]. split; [reflexivity|].
      intros _. cbn [profileToken set_waypoints]. now rewrite Hfull. }
  assert (once = (settled (Normal samples) (fst later),
                  removeFirst (2 ^ 53) (snd later))) as Honce.
  { subst once. destruct later as [st' pending']. cbn [step fst snd] in *.
    rewrite bool_decide_eq_true_2 by exact Hstill.
    now rewrite <- Htoken, resume_current. }
  split; [exact Htoken|]. split; [exact Hroute|].
  split; [now rewrite Honce|].
  split; [|split].
  - intros Hfits. rewrite Honce. cbn [fst settled]. now rewrite Hfits.
  - intros Hmany. rewrite Honce. cbn [fst settled]. rewrite Hmany.
    cbn [canvas set_canvas set_console]. now rewrite <- app_assoc.
  - intros Hlen.
    assert (2 ^ 53 ∈ snd once) as Hnew.
    { rewrite Honce. cbn [snd]. rewrite (Hnewer Hlen).
      rewrite removeFirst_app by exact Hawaiting.
      apply elem_of_app. right. now left. }
    split; [exact Hnew|]. intros outcome.
    assert (profileToken (fst once) = 2 ^ 53) as Hcurrent.
    { rewrite Honce. cbn [fst settled].
      destruct (tooManyArguments samples); exact Htoken. }
    destruct once as [st1 pending1]. cbn [step fst snd] in *.
    rewrite bool_decide_eq_true_2 by exact Hnew.
    now rewrite <- Hcurrent, resume_current.
Qed.
End TokenFacts.

Section TokenScenarios.
Local Open Scope Z_scope.
#[local] Existing Instance scenarioEngine.

Lemma saturated_counter_lets_a_stale_refresh_draw_witness :
  let later :=
    step (set_profileToken (fun _ => 2 ^ 53) initialState, [2 ^ 53])
      (RouteEdited scenarioRoute) in
  let once := step later (SamplingSettled (2 ^ 53) (Normal [])) in
  profileToken (fst later) = 2 ^ 53 /\
  waypoints (fst later) = scenarioRoute /\
  canvas (fst once) = canvas (fst later) ++ [Profile (profileChart [])] /\
  2 ^ 53 ∈ snd once.
Proof.
  destruct (saturated_counter_lets_a_stale_refresh_draw
              (set_profileToken (fun _ => 2 ^ 53) initialState) [2 ^ 53]
              scenarioRoute [])
    as (Htoken & Hroute & _ & Hchart & _ & Hnewer);
    [reflexivity | now left |].
  split; [exact Htoken|]. split; [exact Hroute|].
  split; [apply Hchart; vm_compute; reflexivity|].
  apply Hnewer. cbn. lia.
Defined.
End TokenScenarios.
(** ** The theorems at concrete inputs *)

Section MoreWitnesses.
Local Open Scope R_scope.
#[local] Existing Instance scenarioEngine.

Lemma available_tiles_are_requested_once_witness :
  exists samples st',
    sampleElevationAlongRoute online scenarioRoute initialState =
    (Normal samples, st') /\
    NoDup (requests st') /\
    forall key, key ∈ requests st' -> is_Some (tileCache st' !! key).
Proof.
  apply (available_tiles_are_requested_once online scenarioRoute initialState).
  - intros n key. eexists. reflexivity.
  - split; [constructor | intros key Hkey; inversion Hkey].
Defined.

Lemma requests_per_lookup_witness :
  exists samples st',
    sampleElevationAlongRoute offline scenarioRoute initialState =
    (Normal samples, st') /\
    tileCache st' = ∅ /\
    length (requests st') =
    (length (requests initialState) + routeLookups scenarioRoute)%nat.
Proof.
  apply (proj2 (proj2 (requests_per_lookup offline scenarioRoute
                         initialState))).
  - intros n key. reflexivity.
  - reflexivity.
Defined.


Lemma resizeCanvas_fits_the_chart_witness :
  0 < dpr (resizeCanvas 400 150 2) /\
  80 * dpr (resizeCanvas 400 150 2) <= width (resizeCanvas 400 150 2) /\
  0 <= plotWidth (resizeCanvas 400 150 2) /\
  0 < plotHeight (resizeCanvas 400 150 2).
Proof.
  apply (proj2 (proj2 (proj2 (resizeCanvas_fits_the_chart 400 150 2))));
    [lra | right; lra].
Defined.

Lemma moveWaypoint_reorders_witness :
  exists waypoint route',
    scenarioRoute !! 0%nat = Some waypoint /\
    moveWaypoint (Z.of_nat 0) (Z.of_nat 1) scenarioRoute = Edited route' /\
    route' !! 1%nat = Some waypoint /\
    delete 1%nat route' = delete 0%nat scenarioRoute /\
    route' ≡ₚ scenarioRoute /\
    moveWaypoint (Z.of_nat 1) (Z.of_nat 0) route' = Edited scenarioRoute.
Proof. apply (moveWaypoint_reorders 0 1 scenarioRoute); cbn; lia. Defined.

Lemma unique_ids_are_kept_witness :
  NoDup (ids (drop 1 scenarioRoute)) /\
  (forall id0,
     RemoveWaypoint "wp-1" = RemoveWaypoint id0 ->
     id0 ∈ ids scenarioRoute ->
     S (length (drop 1 scenarioRoute)) = length scenarioRoute).
Proof.
  apply (unique_ids_are_kept (RemoveWaypoint "wp-1") scenarioRoute
           (drop 1 scenarioRoute)).
  - cbn. apply NoDup_cons. split; [|apply NoDup_singleton].
    intros Hin. apply list_elem_of_singleton in Hin. discriminate.
  - exact Logic.I.
  - reflexivity.
Defined.

Lemma edits_restart_the_refresh_witness :
  handleEdit (UpdateWaypoint "wp-9"
                {| newType := None; newLatitude := None;
                   newLongitude := None; newAltitude := Some 120%R;
                   newNote := None |})
    (scenarioState, []) = Some (scenarioState, []) /\
  handleEdit (RemoveWaypoint "wp-9") (scenarioState, []) =
    Some (step (scenarioState, []) (RouteEdited scenarioRoute)).
Proof.
  apply (proj2 (edits_restart_the_refresh (RemoveWaypoint "wp-9")
                  (scenarioState, []) ltac:(reflexivity))).
  cbn. intros Hin.
  apply elem_of_cons in Hin as [Hin | Hin]; [discriminate|].
  apply list_elem_of_singleton in Hin. discriminate.
Defined.

Lemma latest_invocation_draws_witness :
  let begun := step (initialState, []) (RouteEdited scenarioRoute) in
  let token := profileToken (fst begun) in
  let later := runEvents [] begun in
  token ∈ snd later /\
  waypoints (fst later) = scenarioRoute /\
  canvas (fst later) =
    canvas (fst (initialState, @nil Z)) ++ [Placeholder msgComputing] /\
  fst (step later (SamplingSettled token (Thrown FetchRejected))) =
  settled (Thrown FetchRejected) (fst later) /\
  canvas (fst (step later (SamplingSettled token (Thrown FetchRejected)))) =
  canvas (fst later) ++ [Placeholder msgFailed].
Proof.
  apply (latest_invocation_draws (initialState, []) scenarioRoute []
           (Thrown FetchRejected)).
  - cbn. lia.
  - constructor.
Defined.

Lemma unique_ids_track_every_marker_witness :
  let view' := refreshMarkers scenarioRoute emptyView in
  shown view' = markersFrom (created emptyView) scenarioRoute /\
  map snd (markers view') = shown view' /\
  map fst (markers view') = ids scenarioRoute /\
  map lngLat (shown view') =
    map (fun wp => (longitude wp, latitude wp)) scenarioRoute /\
  map waypointId (shown view') = ids scenarioRoute /\
  allTracked view'.
Proof.
  apply (unique_ids_track_every_marker scenarioRoute emptyView).
  - cbn. repeat constructor; cbn; intuition discriminate.
  - constructor.
Defined.

Lemma repeated_id_leaks_a_marker_witness :
  exists marker,
    In marker
      (shown (refreshMarkers (scenarioRoute ++ scenarioRoute) emptyView)) /\
    isTracked (refreshMarkers (scenarioRoute ++ scenarioRoute) emptyView)
      marker = false /\
    forall later : list (list Waypoint),
      In marker
        (shown (fold_left (fun v r => refreshMarkers r v) later
                  (refreshMarkers (scenarioRoute ++ scenarioRoute)
                     emptyView))).
Proof.
  apply (repeated_id_leaks_a_marker (scenarioRoute ++ scenarioRoute)
           emptyView).
  - split; constructor.
  - cbn. intros Hunique. inversion Hunique as [|? ? Hnew _]; subst.
    apply Hnew. cbn. tauto.
Defined.

End MoreWitnesses.
